(** * png_to_svg: the converter facade, the bulk driver, the REST handlers
      and the options of the command lines, embedded from
      [src/converter.ts], [src/bulk-converter.ts], [src/server.ts] and the
      commander program [cli.ts].

    The image library (Jimp) and the tracer (potrace) are external: they
    enter as the fields of an environment record [Env].  The file system,
    the console and the two sources of fresh names ([Date.now] and
    [Math.random]) are explicit state.  An [async] function is embedded
    twice where its waits matter: as a computation that runs to its end,
    and turn by turn, for the chunk tasks that run side by side. *)

From Stdlib Require Import Ascii String QArith Qround Lia Lqa.
From stdpp Require Import gmap strings list fin_maps pretty.

Local Open Scope string_scope.
Local Open Scope list_scope.
Local Open Scope Z_scope.

(* ===================================================================== *)
(** ** JavaScript values *)
(* ===================================================================== *)

Module JS.

(** A JS number.  The option values of this program are stored and
    compared but never computed with, so a finite number is the rational
    its literal denotes; the one division of the program
    ([stats.size / 1024]) is by a power of two.  [Fin 0] stands for both
    zeros, which truthiness and [<] do not tell apart. *)
Inductive number : Type :=
  | NaN
  | Inf (negative : bool)
  | Fin (q : Q).

Inductive value : Type :=
  | VUndefined
  | VNum (n : number)
  | VBool (b : bool)
  | VStr (s : string).

(** A plain object used as a record of named properties.  A key bound to
    [VUndefined] is a property that is present and holds [undefined];
    an unbound key is a missing property. *)
Abbreviation obj := (gmap string value).

(** [o.k] *)
Definition get (o : obj) (k : string) : value := default VUndefined (o !! k).

(** [{ ...lo, ...hi }]: every own property of [hi] wins, also one that
    holds [undefined]. *)
Definition spread (lo hi : obj) : obj := hi ∪ lo.

(** ToBoolean on a number: zero and [NaN] are falsy *)
Definition num_truthy (n : number) : bool :=
  match n with
  | NaN => false
  | Inf _ => true
  | Fin q => negb (Qeq_bool q 0)
  end.

(** ToBoolean on a string: the empty string is falsy *)
Definition str_truthy (s : string) : bool :=
  match s with EmptyString => false | String _ _ => true end.

(** [v !== undefined] *)
Definition is_defined (v : value) : bool :=
  match v with VUndefined => false | _ => true end.

(** [a < b] on numbers *)
Definition num_lt (a b : number) : bool :=
  match a, b with
  | NaN, _ | _, NaN => false
  | Inf true, Inf true => false
  | Inf true, _ => true
  | _, Inf true => false
  | Inf false, _ => false
  | Fin _, Inf false => true
  | Fin x, Fin y => negb (Qle_bool y x)
  end.

(** [a > b] *)
Definition num_gt (a b : number) : bool := num_lt b a.

(** An optional property of a typed options record, read as a condition:
    [if (o.k)]. *)
Definition opt_truthy {A} (t : A → bool) (o : option A) : bool :=
  match o with Some a => t a | None => false end.

(** *** Strings *)

(** [s.replace(pat, rep)] with a string pattern: the first occurrence of
    [pat] is replaced.  (The replacement strings of this program hold no
    [$], so no replacement pattern is expanded.) *)
Fixpoint replace_first (pat rep s : string) : string :=
  if String.prefix pat s
  then rep +:+ String.substring (String.length pat) (String.length s - String.length pat)%nat s
  else match s with
       | EmptyString => EmptyString
       | String c s' => String c (replace_first pat rep s')
       end.

(** [s.includes(pat)] *)
Fixpoint occurs (pat s : string) : bool :=
  String.prefix pat s
  || match s with
     | EmptyString => false
     | String _ s' => occurs pat s'
     end.

Definition lower_ascii (c : ascii) : ascii :=
  let n := nat_of_ascii c in
  if ((65 <=? n) && (n <=? 90))%nat then ascii_of_nat (n + 32) else c.

(** [s.toLowerCase()] on ASCII letters *)
Fixpoint toLowerCase (s : string) : string :=
  match s with
  | EmptyString => EmptyString
  | String c s' => String (lower_ascii c) (toLowerCase s')
  end.

(** [s.endsWith(suffix)] *)
Definition endsWith (s suffix : string) : bool :=
  let n := String.length s in
  let k := String.length suffix in
  ((k <=? n)%nat && String.eqb (String.substring (n - k)%nat k s) suffix).

(** [s.replace(/\.png$/i, '.svg')] *)
Definition replace_png_ext (s : string) : string :=
  if endsWith (toLowerCase s) ".png"
  then String.substring 0 (String.length s - 4)%nat s +:+ ".svg"
  else s.

(** Template interpolation of a non-negative integer: [`${n}`] *)
Definition show_N (n : N) : string := pretty n.

(** *** parseInt *)

Definition is_space (c : ascii) : bool :=
  let n := nat_of_ascii c in
  ((n =? 32) || ((9 <=? n) && (n <=? 13)))%nat.

Fixpoint skip_spaces (s : string) : string :=
  match s with
  | String c s' => if is_space c then skip_spaces s' else s
  | EmptyString => EmptyString
  end.

Definition digit_of (radix : Z) (c : ascii) : option Z :=
  let n := Z.of_nat (nat_of_ascii c) in
  let d := if (48 <=? n) && (n <=? 57) then Some (n - 48)
           else if (97 <=? n) && (n <=? 122) then Some (n - 87)
           else if (65 <=? n) && (n <=? 90) then Some (n - 55)
           else None in
  match d with
  | Some k => if k <? radix then Some k else None
  | None => None
  end.

(** The longest prefix of digits, as [Some] of its value, or [None] when
    the string starts with no digit. *)
Fixpoint digits (radix : Z) (acc : option Z) (s : string) : option Z :=
  match s with
  | EmptyString => acc
  | String c s' =>
      match digit_of radix c with
      | Some d => digits radix (Some (default 0 acc * radix + d)) s'
      | None => acc
      end
  end.

(** The number value of an integer: the nearest double, ties to the even
    significand, and an infinity from [2^1024] on.  Integers below [2^53]
    in absolute value are doubles themselves. *)
Definition to_double (z : Z) : number :=
  let a := Z.abs z in
  if a <? 9007199254740992 then Fin (inject_Z z)
  else
    let e := Z.log2 a - 52 in
    let q := Z.shiftr a e in
    let r := a - Z.shiftl q e in
    let half := Z.shiftl 1 (e - 1) in
    let q' := if (half <? r) || ((r =? half) && Z.odd q) then q + 1 else q in
    let m := Z.shiftl q' e in
    if 2 ^ 1024 <=? m then Inf (z <? 0) else Fin (inject_Z (Z.sgn z * m)).

(** [parseInt(s)] with no radix argument: leading white space (the ASCII
    part of it), a sign, a [0x] prefix for radix 16, then the digits;
    [NaN] without a digit.  The result is the number value of the integer
    the digits denote.  (Past twenty significant decimal digits the
    language lets an engine approximate the integer before it rounds; the
    result is an integer or an infinity all the same.) *)
Definition parseInt (s : string) : number :=
  let s1 := skip_spaces s in
  let '(sign, s2) :=
    match s1 with
    | String "-" r => (-1, r)
    | String "+" r => (1, r)
    | _ => (1, s1)
    end in
  let '(radix, s3) :=
    match s2 with
    | String "0" (String "x" r) | String "0" (String "X" r) => (16, r)
    | _ => (10, s2)
    end in
  match digits radix None s3 with
  | Some n => to_double (sign * n)
  | None => NaN
  end.

(** *** Arrays *)

(** [array.slice(start, end)] *)
Definition slice {T} (array : list T) (start stop : Z) : list T :=
  let len := Z.of_nat (length array) in
  let k := if start <? 0 then Z.max (len + start) 0 else Z.min start len in
  let final := if stop <? 0 then Z.max (len + stop) 0 else Z.min stop len in
  take (Z.to_nat (final - k)) (drop (Z.to_nat k) array).

End JS.

(* ===================================================================== *)
(** ** Effects: outcomes, the world, the external libraries *)
(* ===================================================================== *)

Module Eff.
Import JS.

Inductive error : Type :=
  | FsError (code path : string)     (* an exception of the [fs] module *)
  | JimpError (msg : string)         (* the image library rejected a call *)
  | TraceError (msg : string)        (* the tracer reported an error *)
  | ReferenceError (name : string).  (* an identifier that is not defined *)

(** How an [async] function ends.  [Escaped e]: an exception was thrown
    inside the tracer's callback, where no handler of this program
    catches it; the promise the caller awaits is never settled. *)
Inductive outcome (A : Type) : Type :=
  | Returned (a : A)
  | Thrown (e : error)
  | Escaped (e : error)
  | Diverged.                        (* a loop that never ends *)
Arguments Returned {A} a.
Arguments Thrown {A} e.
Arguments Escaped {A} e.
Arguments Diverged {A}.

(** State and exceptions *)
Definition M (S A : Type) : Type := S → outcome A * S.

Definition ret {S A} (a : A) : M S A := fun s => (Returned a, s).
Definition throw {S A} (e : error) : M S A := fun s => (Thrown e, s).
Definition diverge {S A} : M S A := fun s => (Diverged, s).

Definition bind {S A B} (m : M S A) (k : A → M S B) : M S B :=
  fun s =>
    match m s with
    | (Returned a, s') => k a s'
    | (Thrown e, s') => (Thrown e, s')
    | (Escaped e, s') => (Escaped e, s')
    | (Diverged, s') => (Diverged, s')
    end.

(** [try { body } catch (error) { handler }] *)
Definition try_catch {S A} (body : M S A) (handler : error → M S A) : M S A :=
  fun s =>
    match body s with
    | (Thrown e, s') => handler e s'
    | r => r
    end.

Definition gets {S A} (f : S → A) : M S A := fun s => (Returned (f s), s).
Definition modify {S} (f : S → S) : M S unit := fun s => (Returned tt, f s).

(** A computation that always settles: it returns or throws, whatever
    the world. *)
Definition settles {S A} (m : M S A) : Prop :=
  ∀ s, ∃ s', (∃ a, m s = (Returned a, s')) ∨ (∃ e, m s = (Thrown e, s')).

(** A result of an external library call, raised when it is an error *)
Definition lift_sum {S A} (r : error + A) : M S A :=
  match r with inl e => throw e | inr a => ret a end.

Declare Scope eff_scope.
Delimit Scope eff_scope with eff.
Notation "'let*' x := c 'in' k" := (bind c (fun x => k))
  (at level 10, x pattern, c at level 100, k at level 200) : eff_scope.
Notation "c ;;; k" := (bind c (fun _ => k))
  (at level 100, k at level 200, right associativity) : eff_scope.

(** *** Turns of the event loop *)

(** What is left of a call of an [async] function that was started: it
    has ended, or it waits, and goes on in a later turn of the event loop,
    from the state it is resumed in up to its next wait.  Between two
    turns of one call the turns of other calls may run. *)
#[warnings="-register-all"]
Inductive Co (S A : Type) : Type :=
  | Done (o : outcome A)
  | Await (resume : S → Co S A * S).
Arguments Done {S A} o.
Arguments Await {S A} resume.

(** A call of an [async] function: it runs up to its first wait. *)
Definition Async (S A : Type) : Type := S → Co S A * S.

(** Code that runs within one turn *)
Definition sync {S A} (m : M S A) : Async S A :=
  fun s => let '(o, s') := m s in (Done o, s').

Fixpoint co_bind {S A B} (c : Co S A) (k : A → Async S B) (s : S) : Co S B * S :=
  match c with
  | Done (Returned a) => k a s
  | Done (Thrown e) => (Done (Thrown e), s)
  | Done (Escaped e) => (Done (Escaped e), s)
  | Done Diverged => (Done Diverged, s)
  | Await resume =>
      (Await (fun s1 => let '(c', s2) := resume s1 in co_bind c' k s2), s)
  end.

Definition abind {S A B} (m : Async S A) (k : A → Async S B) : Async S B :=
  fun s => let '(c, s') := m s in co_bind c k s'.

(** [try { body } catch (error) { handler }] around code that waits *)
Fixpoint co_catch {S A} (c : Co S A) (handler : error → Async S A) (s : S) : Co S A * S :=
  match c with
  | Done (Thrown e) => handler e s
  | Done o => (Done o, s)
  | Await resume =>
      (Await (fun s1 => let '(c', s2) := resume s1 in co_catch c' handler s2), s)
  end.

Definition atry {S A} (body : Async S A) (handler : error → Async S A) : Async S A :=
  fun s => let '(c, s') := body s in co_catch c handler s'.

(** The work of a library behind a promise or a callback: it is done in
    a later turn. *)
Definition later {S A} (m : M S A) : Async S A :=
  fun s => (Await (sync m), s).

(** [await p]: the function goes on, with the value or the exception of
    [p], in a turn after the one that settled [p]. *)
Fixpoint co_settle {S A} (c : Co S A) : Co S A :=
  match c with
  | Done (Returned a) => Await (fun s => (Done (Returned a), s))
  | Done (Thrown e) => Await (fun s => (Done (Thrown e), s))
  | Done o => Done o
  | Await resume => Await (fun s => let '(c', s') := resume s in (co_settle c', s'))
  end.

Definition await {S A} (p : Async S A) : Async S A :=
  fun s => let '(c, s') := p s in (co_settle c, s').

(** A started call run to its end with no turn of another call in
    between *)
Fixpoint run {S A} (c : Co S A) (s : S) : outcome A * S :=
  match c with
  | Done o => (o, s)
  | Await resume => let '(c', s') := resume s in run c' s'
  end.


Notation "'let!' x := c 'in' k" := (abind c (fun x => k))
  (at level 10, x pattern, c at level 100, k at level 200) : eff_scope.
Notation "c ;! k" := (abind c (fun _ => k))
  (at level 100, k at level 200, right associativity) : eff_scope.

(** *** The file system *)

Inductive node : Type :=
  | File (bytes : string)
  | Dir (items : list string).     (* what [readdirSync] lists *)

(** What the program prints, one constructor per message *)
Inductive event : Type :=
  | LogConverting (inputPath : string)
  | LogDimensions (width height : N)
  | LogConverted (outputPath : string)
  | ErrConversionFailed (e : error)
  | ErrBufferConversionFailed (e : error)
  | WarnCleanup (tempPath : string)
  | LogBulkStart (inputDir outputDir : string)
  | LogFound (n : nat)
  | LogNoPngFiles
  | LogAfterFilter (n : nat)
  | LogSequential
  | LogParallel (maxWorkers : number)
  | LogFile (index total : nat) (relativePath : string)
  | LogSkipped
  | LogFileConverted
  | LogFileFailed (e : error)
  | LogWorkerFile (worker : nat) (relativePath : string)
  | LogWorkerSkipped (worker : nat)
  | LogWorkerConverted (worker : nat)
  | LogWorkerFailed (worker : nat) (e : error)
  | LogSummary (total successful failed skipped : nat)
  | LogOptions (options : obj)
  | ErrConversion (e : error).

Record World : Type := mkWorld {
  nodes : gmap string node;      (* path ↦ file or directory *)
  sticky : gset string;          (* paths the process may not unlink *)
  clock_reads : nat;             (* calls of [Date.now] so far *)
  random_reads : nat;            (* calls of [Math.random] so far *)
  console : list event;
}.

Definition set_nodes (f : gmap string node → gmap string node) (w : World) : World :=
  mkWorld (f (nodes w)) (sticky w) (clock_reads w) (random_reads w) (console w).

Definition logged (e : event) (w : World) : World :=
  mkWorld (nodes w) (sticky w) (clock_reads w) (random_reads w) (console w ++ [e]).

(** [console.log], [console.warn], [console.error] *)
Definition log (e : event) : M World unit := modify (logged e).

(** The file system of [w'] is that of [w] at every path outside [P]. *)
Definition kept (P : string → Prop) (w w' : World) : Prop :=
  ∀ path, ¬ P path → nodes w' !! path = nodes w !! path.

(** [fs.existsSync(path)] *)
Definition existsSync (path : string) : M World bool :=
  gets (fun w => bool_decide (is_Some (nodes w !! path))).

(** [fs.unlinkSync(path)] *)
Definition unlinkSync (path : string) : M World unit :=
  fun w =>
    match nodes w !! path with
    | None => (Thrown (FsError "ENOENT" path), w)
    | Some (Dir _) => (Thrown (FsError "EISDIR" path), w)
    | Some (File _) =>
        if bool_decide (path ∈ sticky w)
        then (Thrown (FsError "EPERM" path), w)
        else (Returned tt, set_nodes (delete path) w)
    end.

(** Reading a whole file *)
Definition readFile (path : string) : M World string :=
  fun w =>
    match nodes w !! path with
    | None => (Thrown (FsError "ENOENT" path), w)
    | Some (Dir _) => (Thrown (FsError "EISDIR" path), w)
    | Some (File bytes) => (Returned bytes, w)
    end.

(** [fs.statSync(path)]: the three properties the program reads.  (The
    size a directory reports depends on the platform; the program asks
    for the size of regular files only.) *)
Record Stat : Type := mkStat { isDirectory : bool; isFile : bool; size : N }.

Definition statSync (path : string) : M World Stat :=
  fun w =>
    match nodes w !! path with
    | None => (Thrown (FsError "ENOENT" path), w)
    | Some (Dir _) => (Returned (mkStat true false 0), w)
    | Some (File bytes) =>
        (Returned (mkStat false true (N.of_nat (String.length bytes))), w)
    end.

(** [fs.readdirSync(path)] *)
Definition readdirSync (path : string) : M World (list string) :=
  fun w =>
    match nodes w !! path with
    | None => (Thrown (FsError "ENOENT" path), w)
    | Some (File _) => (Thrown (FsError "ENOTDIR" path), w)
    | Some (Dir items) => (Returned items, w)
    end.

(** [fs.mkdirSync(path, { recursive: true })] on a path that does not
    exist *)
Definition mkdirSync (path : string) : M World unit :=
  modify (set_nodes (fun m => match m !! path with
                              | None => <[path := Dir []]> m
                              | Some _ => m
                              end)).

(** *** The external libraries and the two sources of fresh names *)

Inductive jimp_op : Type :=
  | Greyscale
  | Contrast (amount : number)
  | Normalize
  | Threshold (max : value).          (* [threshold({ max })] *)

Record Env : Type := mkEnv {
  image : Type;
  jimp_decode : string → error + image;            (* [Jimp.read] on the bytes *)
  jimp_apply : jimp_op → image → error + image;    (* one image operation *)
  jimp_encode : image → string;                    (* the bytes [write] stores *)
  jimp_size : image → N * N;                       (* [bitmap.width], [bitmap.height] *)
  potrace_trace : string → obj → error + string;   (* [potrace.trace] on the bytes *)
  timeline : nat → N;                              (* the k-th [Date.now()] *)
  randoms : nat → string;   (* the k-th [Math.random().toString(36).substr(2, 9)] *)
  path_relative : string → string → string;        (* [path.relative(from, to)] *)
  path_join : string → string → string;            (* [path.join(a, b)] *)
  path_dirname : string → string;                  (* [path.dirname(p)] *)
  max_depth : nat;          (* directory nesting the platform resolves *)
  jimp_missing : string → error;    (* what [Jimp.read] throws for a path that does not exist *)
  jimp_mime : string → error + string;
    (* the format [write] takes from the extension of the path, or what it
       throws for an extension it has no encoder for *)
  potrace_validate : obj → option error;
    (* what [potrace.trace] throws, before it reads the file or calls
       back, for options it does not accept *)
}.

(** Writing a whole file: [fs.writeFile] and the write of the image
    library.  The directory the path lies in must exist.  (The listing
    stored with a directory is what [readdirSync] returned when the world
    was set up; a write or an unlink leaves it as it is.  A run of the
    bulk driver lists its input directory before it writes.) *)
Definition writeFile (env : Env) (path bytes : string) : M World unit :=
  fun w =>
    match nodes w !! path_dirname env path with
    | None => (Thrown (FsError "ENOENT" path), w)
    | Some (File _) => (Thrown (FsError "ENOTDIR" path), w)
    | Some (Dir _) =>
        match nodes w !! path with
        | Some (Dir _) => (Thrown (FsError "EISDIR" path), w)
        | _ => (Returned tt, set_nodes (insert path (File bytes)) w)
        end
    end.

(** [Date.now()] *)
Definition dateNow (env : Env) : M World N :=
  fun w => (Returned (timeline env (clock_reads w)),
            mkWorld (nodes w) (sticky w) (S (clock_reads w)) (random_reads w) (console w)).

(** [Math.random().toString(36).substr(2, 9)] *)
Definition randomSuffix (env : Env) : M World string :=
  fun w => (Returned (randoms env (random_reads w)),
            mkWorld (nodes w) (sticky w) (clock_reads w) (S (random_reads w)) (console w)).

End Eff.

(* ===================================================================== *)
(** ** [converter.ts]: class [PngToSvgConverter] *)
(* ===================================================================== *)

Module Converter.
Import JS Eff.
Local Open Scope eff_scope.

(** [private defaultOptions] *)
Definition defaultOptions : obj :=
  {[ "threshold" := VNum (Fin 128);
     "turdSize" := VNum (Fin 2);
     "alphaMax" := VNum (Fin 1);
     "optCurve" := VBool true;
     "optTolerance" := VNum (Fin 0.2);
     "turnPolicy" := VStr "minority";
     "blackOnWhite" := VBool true ]}.

(** [{ ...this.defaultOptions, ...options }] *)
Definition mergeOptions (options : obj) : obj := spread defaultOptions options.

(** [static getPresetOptions(preset)] *)
Definition getPresetOptions (preset : string) : obj :=
  if String.eqb preset "logo" then
    {[ "threshold" := VNum (Fin 128);
       "turdSize" := VNum (Fin 2);
       "optCurve" := VBool true;
       "optTolerance" := VNum (Fin 0.2);
       "turnPolicy" := VStr "minority" ]}
  else if String.eqb preset "photo" then
    {[ "threshold" := VNum (Fin 120);
       "turdSize" := VNum (Fin 4);
       "optCurve" := VBool true;
       "optTolerance" := VNum (Fin 0.3);
       "turnPolicy" := VStr "majority" ]}
  else if String.eqb preset "drawing" then
    {[ "threshold" := VNum (Fin 140);
       "turdSize" := VNum (Fin 1);
       "optCurve" := VBool true;
       "optTolerance" := VNum (Fin 0.1);
       "turnPolicy" := VStr "minority" ]}
  else if String.eqb preset "text" then
    {[ "threshold" := VNum (Fin 128);
       "turdSize" := VNum (Fin 1);
       "optCurve" := VBool false;
       "optTolerance" := VNum (Fin 0.1);
       "turnPolicy" := VStr "black" ]}
  else ∅.

(** The temporary path of [convertFile]:
    [inputPath.replace('.png', `.temp_${Date.now()}.png`)] *)
Definition fileTempPath (inputPath : string) (now : N) : string :=
  replace_first ".png" (".temp_" +:+ show_N now +:+ ".png") inputPath.

(** The temporary path of [convertImageToSvg]:
    [`/tmp/temp_${Date.now()}_${Math.random().toString(36).substr(2, 9)}.png`] *)
Definition bufferTempPath (now : N) (rnd : string) : string :=
  "/tmp/temp_" +:+ show_N now +:+ "_" +:+ rnd +:+ ".png".

Section WithEnv.
Context (env : Env).

(** [image.greyscale().contrast(0.3).normalize()] *)
Definition basePipeline (img : image env) : M World (image env) :=
  let* g := lift_sum (jimp_apply env Greyscale img) in
  let* c := lift_sum (jimp_apply env (Contrast (Fin 0.3)) g) in
  lift_sum (jimp_apply env Normalize c).

(** The preprocessing both conversions share: the base pipeline, then
    [if (opts.threshold !== undefined) processedImage.threshold({ max: opts.threshold })] *)
Definition preprocess (opts : obj) (img : image env) : M World (image env) :=
  let* processedImage := basePipeline img in
  if is_defined (get opts "threshold")
  then lift_sum (jimp_apply env (Threshold (get opts "threshold")) processedImage)
  else ret processedImage.

(** [Jimp.read(inputPath)]: a path that exists is read as a file and
    decoded; for a path that does not exist the library throws an error
    of its own. *)
Definition jimpRead (path : string) : M World (image env) :=
  let* there := existsSync path in
  if there then
    let* bytes := readFile path in
    lift_sum (jimp_decode env bytes)
  else throw (jimp_missing env path).

(** [processedImage.write(path)]: the format comes from the extension of
    the path. *)
Definition jimpWrite (img : image env) (path : string) : M World unit :=
  lift_sum (jimp_mime env path) ;;;
  writeFile env path (jimp_encode env img).

(** The call [potrace.trace(tempPath, opts, callback)] itself, inside the
    executor of the promise: options the tracer does not accept make it
    throw there, the promise is rejected and the callback never runs. *)
Definition traceCall (opts : obj) : M World unit :=
  match potrace_validate env opts with
  | Some e => throw e
  | None => ret tt
  end.

(** [potrace.trace(tempPath, opts, callback)] up to the point where the
    library calls back: the error or the SVG text it passes. *)
Definition traceResult (tempPath : string) (opts : obj) (w : World) : error + string :=
  match nodes w !! tempPath with
  | Some (File bytes) => potrace_trace env bytes opts
  | Some (Dir _) => inl (FsError "EISDIR" tempPath)
  | None => inl (FsError "ENOENT" tempPath)
  end.

(** The callback of [convertFile]: it unlinks the temporary file first,
    outside any [try], then rejects or resolves. *)
Definition traceCallback (tempPath : string) (r : error + string) : M World string :=
  fun w =>
    match unlinkSync tempPath w with
    | (Returned _, w') => lift_sum r w'
    | (Thrown e, w') | (Escaped e, w') => (Escaped e, w')
    | (Diverged, w') => (Diverged, w')
    end.

(** The promise around the tracer in [convertFile] *)
Definition traceAndUnlink (tempPath : string) (opts : obj) : M World string :=
  traceCall opts ;;;
  let* r := gets (traceResult tempPath opts) in
  traceCallback tempPath r.

(** [async convertFile(inputPath, outputPath, options = {})] *)
Definition convertFile (inputPath outputPath : string) (options : obj) : M World unit :=
  try_catch
    (log (LogConverting inputPath) ;;;
     let* image := jimpRead inputPath in
     let opts := mergeOptions options in
     let* processedImage := preprocess opts image in
     let* now := dateNow env in
     let tempPath := fileTempPath inputPath now in
     jimpWrite processedImage tempPath ;;;
     log (LogDimensions (fst (jimp_size env processedImage))
                        (snd (jimp_size env processedImage))) ;;;
     let* svgContent := traceAndUnlink tempPath opts in
     writeFile env outputPath svgContent ;;;
     log (LogConverted outputPath))
    (fun error => log (ErrConversionFailed error) ;;; throw error).

(** [convertFile] turn by turn.  The call runs up to [Jimp.read]; the
    library reads and decodes in a later turn, and the function goes on
    after that; likewise for the write of the temporary file, for the
    tracer (it reads the file in one turn and calls back in another) and
    for the write of the output. *)
Definition traceAndUnlink_async (tempPath : string) (opts : obj) : Async World string :=
  sync (traceCall opts) ;!
  let! r := later (gets (traceResult tempPath opts)) in
  later (traceCallback tempPath r).

Definition convertFile_async (inputPath outputPath : string) (options : obj)
    : Async World unit :=
  atry
    (sync (log (LogConverting inputPath)) ;!
     let! image := await (later (jimpRead inputPath)) in
     let opts := mergeOptions options in
     let! processedImage := sync (preprocess opts image) in
     let! now := sync (dateNow env) in
     let tempPath := fileTempPath inputPath now in
     await (later (jimpWrite processedImage tempPath)) ;!
     sync (log (LogDimensions (fst (jimp_size env processedImage))
                              (snd (jimp_size env processedImage)))) ;!
     let! svgContent := await (traceAndUnlink_async tempPath opts) in
     await (later (writeFile env outputPath svgContent)) ;!
     sync (log (LogConverted outputPath)))
    (fun error => sync (log (ErrConversionFailed error) ;;; throw error)).

(** The promise around the tracer in [convertImageToSvg]: here the
    callback unlinks inside [try { } catch (cleanupErr) { console.warn }]. *)
Definition traceAndTryUnlink (tempPath : string) (opts : obj) : M World string :=
  traceCall opts ;;;
  let* r := gets (traceResult tempPath opts) in
  try_catch (unlinkSync tempPath) (fun _ => log (WarnCleanup tempPath)) ;;;
  lift_sum r.

(** [private async convertImageToSvg(image, options)] *)
Definition convertImageToSvg (image : image env) (options : obj) : M World string :=
  let opts := mergeOptions options in
  let* processedImage := preprocess opts image in
  log (LogDimensions (fst (jimp_size env processedImage))
                     (snd (jimp_size env processedImage))) ;;;
  let* now := dateNow env in
  let* rnd := randomSuffix env in
  let tempPath := bufferTempPath now rnd in
  jimpWrite processedImage tempPath ;;;
  traceAndTryUnlink tempPath opts.

(** [async convertBuffer(pngBuffer, options = {})] *)
Definition convertBuffer (pngBuffer : string) (options : obj) : M World string :=
  try_catch
    (let* image := lift_sum (jimp_decode env pngBuffer) in
     convertImageToSvg image options)
    (fun error => log (ErrBufferConversionFailed error) ;;; throw error).

End WithEnv.

End Converter.

(* ===================================================================== *)
(** ** [bulk-converter.ts]: class [BulkConverter] *)
(* ===================================================================== *)

Module Bulk.
Import JS Eff Converter.
Local Open Scope eff_scope.

(** [filterSize?: { min?: number; max?: number }] *)
Record SizeFilter : Type := mkSizeFilter {
  min : option number;
  max : option number;
}.

(** [interface BulkConversionOptions]; [None] is a property that is
    missing or [undefined] (the driver only reads these properties, and
    both read as [undefined]). *)
Record BulkConversionOptions : Type := mkOptions {
  preset : option string;
  threshold : option number;
  turdSize : option number;
  optCurve : option bool;
  turnPolicy : option string;
  parallel : option bool;
  maxWorkers : option number;
  recursive : option bool;
  overwrite : option bool;
  filterSize : option SizeFilter;
}.

(** [private stats].  [startTime] and [endTime] only feed the duration the
    summary prints; they are left out. *)
Record Stats : Type := mkStats {
  total : nat;
  successful : nat;
  failed : nat;
  skipped : nat;
}.

(** The counters of a [new BulkConverter()] *)
Definition initialStats : Stats := mkStats 0 0 0 0.

(** The files accounted for: [successful + failed + skipped] *)
Definition accounted (st : Stats) : nat := (successful st + failed st + skipped st)%nat.

Record BulkState : Type := mkState {
  stats : Stats;
  world : World;
}.

Definition liftW {A} (m : M World A) : M BulkState A :=
  fun s => let '(r, w) := m (world s) in (r, mkState (stats s) w).

Definition modifyStats (f : Stats → Stats) : M BulkState unit :=
  modify (fun s => mkState (f (stats s)) (world s)).

Fixpoint co_liftW {A} (c : Co World A) : Co BulkState A :=
  match c with
  | Done o => Done o
  | Await resume =>
      Await (fun s => let '(c', w) := resume (world s) in
                      (co_liftW c', mkState (stats s) w))
  end.

Definition aliftW {A} (m : Async World A) : Async BulkState A :=
  fun s => let '(c, w) := m (world s) in (co_liftW c, mkState (stats s) w).

(** One turn took the counters from [s] to [s']: it accounted for [j]
    more files and left [total]. *)
Definition turn_adds (s s' : BulkState) (j : nat) : Prop :=
  accounted (stats s') = (accounted (stats s) + j)%nat ∧ total (stats s') = total (stats s).

(** What a started call does to the counters, whatever the states its
    turns are resumed in: [d] is the number of files it has accounted for
    so far; [QR] holds of the result and of that number when the call
    returns, [QT] of the exception and of that number when it throws. *)
Fixpoint tallies {A} (c : Co BulkState A) (d : nat)
    (QR : A → nat → Prop) (QT : error → nat → Prop) : Prop :=
  match c with
  | Done (Returned a) => QR a d
  | Done (Thrown e) => QT e d
  | Done _ => True
  | Await resume =>
      ∀ s, ∃ j, turn_adds s (resume s).2 j ∧ tallies (resume s).1 (d + j) QR QT
  end.

Definition atallies {A} (m : Async BulkState A) (d : nat)
    (QR : A → nat → Prop) (QT : error → nat → Prop) : Prop :=
  ∀ s, ∃ j, turn_adds s (m s).2 j ∧ tallies (m s).1 (d + j) QR QT.

(** A started task that has accounted for [dn.1] files and returns, if
    it does, when it has accounted for [dn.2]. *)
Definition owes (task : Co BulkState unit) (dn : nat * nat) : Prop :=
  tallies task dn.1 (fun _ d => d = dn.2) (fun _ _ => True).

Definition set_total (n : nat) (st : Stats) : Stats :=
  mkStats n (successful st) (failed st) (skipped st).
Definition incr_successful (st : Stats) : Stats :=
  mkStats (total st) (S (successful st)) (failed st) (skipped st).
Definition incr_failed (st : Stats) : Stats :=
  mkStats (total st) (successful st) (S (failed st)) (skipped st).
Definition incr_skipped (st : Stats) : Stats :=
  mkStats (total st) (successful st) (failed st) (S (skipped st)).

(** The lines that open both [convertSequentially] and [processChunk].
    First [if (options.preset) conversionOptions = getPresetOptions(options.preset)] *)
Definition presetOptionsOf (options : BulkConversionOptions) : obj :=
  match preset options with
  | Some p => if str_truthy p then getPresetOptions p else ∅
  | None => ∅
  end.

(** ... then "Override with custom options":
    [if (options.threshold) ...], [if (options.turdSize) ...],
    [if (options.optCurve !== undefined) ...], [if (options.turnPolicy) ...] *)
Definition conversionOptionsOf (options : BulkConversionOptions) : obj :=
  let c0 : obj := presetOptionsOf options in
  let c1 : obj :=
    match threshold options with
    | Some t => if num_truthy t then <["threshold" := VNum t]> c0 else c0
    | None => c0
    end in
  let c2 : obj :=
    match turdSize options with
    | Some t => if num_truthy t then <["turdSize" := VNum t]> c1 else c1
    | None => c1
    end in
  let c3 : obj :=
    match optCurve options with
    | Some b => <["optCurve" := VBool b]> c2
    | None => c2
    end in
  match turnPolicy options with
  | Some p => if str_truthy p then <["turnPolicy" := VStr p]> c3 else c3
  | None => c3
  end.

(** [private chunkArray(array, chunkSize)]: the loop
    [for (let i = 0; i < array.length; i += chunkSize)], run for at most
    [fuel] iterations. *)
Fixpoint chunkArray_loop {T} (fuel : nat) (array : list T) (chunkSize i : Z)
    (chunks : list (list T)) : option (list (list T)) :=
  if i <? Z.of_nat (length array) then
    match fuel with
    | O => None
    | S fuel' =>
        chunkArray_loop fuel' array chunkSize (i + chunkSize)
                        (chunks ++ [slice array i (i + chunkSize)])
    end
  else Some chunks.

(** [chunkArray]: [None] when the loop does not end.  One iteration per
    element is enough whenever the loop ends at all (lemmas
    [chunkArray_loop_ends] and [chunkArray_loop_never_ends]). *)
Definition chunkArray {T} (array : list T) (chunkSize : Z) : option (list (list T)) :=
  chunkArray_loop (length array) array chunkSize 0 [].

(** [options.maxWorkers || Math.min(4, files.length)] *)
Definition maxWorkersOf (options : BulkConversionOptions) (len : nat) : number :=
  match maxWorkers options with
  | Some w => if num_truthy w then w else Fin (inject_Z (Z.min 4 (Z.of_nat len)))
  | None => Fin (inject_Z (Z.min 4 (Z.of_nat len)))
  end.

(** [Math.ceil(files.length / maxWorkers)].  The quotient by an infinite
    [maxWorkers] is zero.  [maxWorkers] is zero only for an empty file
    list, which [chunkArray] maps to no chunk whatever the chunk size. *)
Definition chunkSizeOf (len : nat) (maxWorkers : number) : Z :=
  match maxWorkers with
  | Fin q => Qceiling (inject_Z (Z.of_nat len) / q)
  | Inf _ | NaN => 0
  end.

Section WithEnv.
Context (env : Env).

(** [searchDir] of [findPngFiles], appending to [files]; [depth] bounds
    the nesting. *)
Fixpoint searchDir (depth : nat) (recursive : bool) (currentDir : string)
    (files : list string) : M World (list string) :=
  match depth with
  | O => throw (FsError "ELOOP" currentDir)
  | S depth' =>
      let* items := readdirSync currentDir in
      (fix each (items : list string) (files : list string) : M World (list string) :=
         match items with
         | [] => ret files
         | item :: rest =>
             let fullPath := path_join env currentDir item in
             let* stat := statSync fullPath in
             let* files' :=
               (if isDirectory stat && recursive
                then searchDir depth' recursive fullPath files
                else if isFile stat && endsWith (toLowerCase item) ".png"
                     then ret (files ++ [fullPath])
                     else ret files) in
             each rest files'
         end) items files
  end.

(** [private async findPngFiles(dir, recursive = false)] *)
Definition findPngFiles (dir : string) (recursive : option bool) : M World (list string) :=
  searchDir (max_depth env) (default false recursive) dir [].

(** One file of [filterBySize]: is it kept? *)
Definition keptBySize (sizeFilter : SizeFilter) (size : N) : bool :=
  let sizeKB := Fin (Z.of_N size # 1024) in
  if opt_truthy num_truthy (min sizeFilter)
     && opt_truthy (num_lt sizeKB) (min sizeFilter) then false
  else if opt_truthy num_truthy (max sizeFilter)
          && opt_truthy (num_gt sizeKB) (max sizeFilter) then false
  else true.

(** The loop of [filterBySize], pushing to [filtered] *)
Fixpoint filterLoop (sizeFilter : SizeFilter) (files filtered : list string)
    : M World (list string) :=
  match files with
  | [] => ret filtered
  | file :: rest =>
      let* stats := statSync file in
      if keptBySize sizeFilter (size stats)
      then filterLoop sizeFilter rest (filtered ++ [file])
      else filterLoop sizeFilter rest filtered
  end.

(** [private async filterBySize(files, sizeFilter?)] *)
Definition filterBySize (files : list string) (sizeFilter : option SizeFilter)
    : M World (list string) :=
  match sizeFilter with
  | None => ret files
  | Some sf => filterLoop sf files []
  end.

(** The mirrored destination:
    [path.join(outputDir, relativePath.replace(/\.png$/i, '.svg'))] *)
Definition outputPathOf (inputDir outputDir file : string) : string :=
  path_join env outputDir (replace_png_ext (path_relative env inputDir file)).

(** [if (!fs.existsSync(outputDirPath)) fs.mkdirSync(outputDirPath, { recursive: true })] *)
Definition ensureDir (dir : string) : M World unit :=
  let* there := existsSync dir in
  if there then ret tt else mkdirSync dir.

(** The body of the loop of [convertSequentially] *)
Definition sequentialBody (options : BulkConversionOptions) (conversionOptions : obj)
    (inputDir outputDir : string) (n i : nat) (file : string) : M BulkState unit :=
  let relativePath := path_relative env inputDir file in
  let outputPath := outputPathOf inputDir outputDir file in
  liftW (log (LogFile (i + 1) n relativePath)) ;;;
  let* there := liftW (existsSync outputPath) in
  if negb (opt_truthy id (overwrite options)) && there then
    liftW (log LogSkipped) ;;;
    modifyStats incr_skipped
  else
    liftW (ensureDir (path_dirname env outputPath)) ;;;
    try_catch
      (liftW (convertFile env file outputPath conversionOptions) ;;;
       liftW (log LogFileConverted) ;;;
       modifyStats incr_successful)
      (fun error =>
         liftW (log (LogFileFailed error)) ;;;
         modifyStats incr_failed).

(** The loop of [convertSequentially], from index [i] on; [n] is
    [files.length] *)
Fixpoint sequentialLoop (options : BulkConversionOptions) (conversionOptions : obj)
    (inputDir outputDir : string) (n : nat) (rest : list string) (i : nat)
    : M BulkState unit :=
  match rest with
  | [] => ret tt
  | file :: rest' =>
      sequentialBody options conversionOptions inputDir outputDir n i file ;;;
      sequentialLoop options conversionOptions inputDir outputDir n rest' (S i)
  end.

(** [private async convertSequentially(files, inputDir, outputDir, options)] *)
Definition convertSequentially (files : list string) (inputDir outputDir : string)
    (options : BulkConversionOptions) : M BulkState unit :=
  liftW (log LogSequential) ;;;
  sequentialLoop options (conversionOptionsOf options) inputDir outputDir
                 (length files) files O.

(** The body of the loop of [processChunk] *)
Definition chunkBody (options : BulkConversionOptions) (conversionOptions : obj)
    (inputDir outputDir : string) (workerIndex : nat) (file : string) : M BulkState unit :=
  let relativePath := path_relative env inputDir file in
  let outputPath := outputPathOf inputDir outputDir file in
  liftW (log (LogWorkerFile (workerIndex + 1) relativePath)) ;;;
  let* there := liftW (existsSync outputPath) in
  if negb (opt_truthy id (overwrite options)) && there then
    liftW (log (LogWorkerSkipped (workerIndex + 1))) ;;;
    modifyStats incr_skipped
  else
    liftW (ensureDir (path_dirname env outputPath)) ;;;
    try_catch
      (liftW (convertFile env file outputPath conversionOptions) ;;;
       liftW (log (LogWorkerConverted (workerIndex + 1))) ;;;
       modifyStats incr_successful)
      (fun error =>
         liftW (log (LogWorkerFailed (workerIndex + 1) error)) ;;;
         modifyStats incr_failed).

(** The loop of [processChunk] *)
Fixpoint chunkLoop (options : BulkConversionOptions) (conversionOptions : obj)
    (inputDir outputDir : string) (workerIndex : nat) (rest : list string)
    : M BulkState unit :=
  match rest with
  | [] => ret tt
  | file :: rest' =>
      chunkBody options conversionOptions inputDir outputDir workerIndex file ;;;
      chunkLoop options conversionOptions inputDir outputDir workerIndex rest'
  end.


(** What the two loop bodies share, with the four messages as
    parameters; [sequentialBody] and [chunkBody] are compared with it. *)
Definition fileBody (header skippedMsg convertedMsg : event) (failedMsg : error → event)
    (options : BulkConversionOptions) (conversionOptions : obj)
    (inputDir outputDir : string) (file : string) : M BulkState unit :=
  let outputPath := outputPathOf inputDir outputDir file in
  liftW (log header) ;;;
  let* there := liftW (existsSync outputPath) in
  if negb (opt_truthy id (overwrite options)) && there then
    liftW (log skippedMsg) ;;;
    modifyStats incr_skipped
  else
    liftW (ensureDir (path_dirname env outputPath)) ;;;
    try_catch
      (liftW (convertFile env file outputPath conversionOptions) ;;;
       liftW (log convertedMsg) ;;;
       modifyStats incr_successful)
      (fun error =>
         liftW (log (failedMsg error)) ;;;
         modifyStats incr_failed).

(** The second branch of the bodies, as a function of the state: the
    destination directory is made, the converter runs on the file, and
    its outcome is counted. *)
Definition convertAndCount (header convertedMsg : event) (failedMsg : error → event)
    (conversionOptions : obj) (inputDir outputDir file : string) (s : BulkState)
    : outcome unit * BulkState :=
  let outputPath := outputPathOf inputDir outputDir file in
  let w1 := snd (ensureDir (path_dirname env outputPath) (logged header (world s))) in
  match convertFile env file outputPath conversionOptions w1 with
  | (Returned _, w2) =>
      (Returned tt, mkState (incr_successful (stats s)) (logged convertedMsg w2))
  | (Thrown e, w2) =>
      (Returned tt, mkState (incr_failed (stats s)) (logged (failedMsg e) w2))
  | (Escaped e, w2) => (Escaped e, mkState (stats s) w2)
  | (Diverged, w2) => (Diverged, mkState (stats s) w2)
  end.

(** What one file does to the driver's state: skipped, or converted and
    counted. *)
Definition fileOutcome (header skippedMsg convertedMsg : event) (failedMsg : error → event)
    (options : BulkConversionOptions) (conversionOptions : obj)
    (inputDir outputDir file : string) (s : BulkState) : outcome unit * BulkState :=
  if negb (opt_truthy id (overwrite options))
     && bool_decide (is_Some (nodes (world s) !! outputPathOf inputDir outputDir file))
  then (Returned tt,
        mkState (incr_skipped (stats s)) (logged skippedMsg (logged header (world s))))
  else convertAndCount header convertedMsg failedMsg conversionOptions
                       inputDir outputDir file s.

(** [processChunk] turn by turn: the body of its loop waits for
    [convertFile] and goes on a turn after that call has ended. *)
Definition chunkBody_async (options : BulkConversionOptions) (conversionOptions : obj)
    (inputDir outputDir : string) (workerIndex : nat) (file : string)
    : Async BulkState unit :=
  let relativePath := path_relative env inputDir file in
  let outputPath := outputPathOf inputDir outputDir file in
  sync (liftW (log (LogWorkerFile (workerIndex + 1) relativePath))) ;!
  let! there := sync (liftW (existsSync outputPath)) in
  if negb (opt_truthy id (overwrite options)) && there then
    sync (liftW (log (LogWorkerSkipped (workerIndex + 1))) ;;;
          modifyStats incr_skipped)
  else
    sync (liftW (ensureDir (path_dirname env outputPath))) ;!
    atry
      (await (aliftW (convertFile_async env file outputPath conversionOptions)) ;!
       sync (liftW (log (LogWorkerConverted (workerIndex + 1))) ;;;
             modifyStats incr_successful))
      (fun error =>
         sync (liftW (log (LogWorkerFailed (workerIndex + 1) error)) ;;;
               modifyStats incr_failed)).

Fixpoint chunkLoop_async (options : BulkConversionOptions) (conversionOptions : obj)
    (inputDir outputDir : string) (workerIndex : nat) (rest : list string)
    : Async BulkState unit :=
  match rest with
  | [] => sync (ret tt)
  | file :: rest' =>
      chunkBody_async options conversionOptions inputDir outputDir workerIndex file ;!
      chunkLoop_async options conversionOptions inputDir outputDir workerIndex rest'
  end.

Definition processChunk_async (files : list string) (inputDir outputDir : string)
    (options : BulkConversionOptions) (workerIndex : nat) : Async BulkState unit :=
  chunkLoop_async options (conversionOptionsOf options) inputDir outputDir workerIndex files.

(** A started chunk task *)
Abbreviation Task := (Co BulkState unit).

(** [chunks.map((chunk, index) => this.processChunk(chunk, ..., index))]:
    the tasks are started one after the other, each up to its first
    wait. *)
Fixpoint startTasks (chunks : list (list string)) (index : nat)
    (inputDir outputDir : string) (options : BulkConversionOptions)
    (s : BulkState) : list Task * BulkState :=
  match chunks with
  | [] => ([], s)
  | chunk :: chunks' =>
      let '(task, s1) := processChunk_async chunk inputDir outputDir options index s in
      let '(tasks, s2) := startTasks chunks' (S index) inputDir outputDir options s1 in
      (task :: tasks, s2)
  end.

(** The exception [Promise.all] rejects with is that of the task that
    threw first. *)
Definition noteRejection (first : option error) (task : Task) : option error :=
  match first, task with
  | None, Done (Thrown e) => Some e
  | _, _ => first
  end.

(** The started tasks interleave where they wait.  The interleaving is an
    input: [schedule] names the task that is resumed next, and a task
    that is resumed runs one turn, up to its next wait.  An exception
    that escapes from a callback, in any task, ends the run. *)
Fixpoint runSchedule (schedule : list nat) (tasks : list Task) (first : option error)
    : M BulkState (list Task * option error) :=
  match schedule with
  | [] => ret (tasks, first)
  | k :: schedule' =>
      match tasks !! k with
      | Some (Await resume) =>
          fun s =>
            let '(task, s') := resume s in
            match task with
            | Done (Escaped e) => (Escaped e, s')
            | Done Diverged => (Diverged, s')
            | _ => runSchedule schedule' (<[k := task]> tasks) (noteRejection first task) s'
            end
      | _ => runSchedule schedule' tasks first
      end
  end.

(** What is left of every task once the schedule is used up runs to its
    end, task after task: [await Promise.all(promises)] goes on when all
    tasks have returned, and throws what the first task to throw threw. *)
Fixpoint finishTasks (tasks : list Task) (first : option error) : M BulkState unit :=
  match tasks with
  | [] => match first with Some e => throw e | None => ret tt end
  | task :: tasks' =>
      fun s =>
        match run task s with
        | (Returned _, s') => finishTasks tasks' first s'
        | (Thrown e, s') => finishTasks tasks' (Some (default e first)) s'
        | (Escaped e, s') => (Escaped e, s')
        | (Diverged, s') => (Diverged, s')
        end
  end.

(** [private async convertInParallel(files, inputDir, outputDir, options)] *)
Definition convertInParallel (schedule : list nat) (files : list string)
    (inputDir outputDir : string) (options : BulkConversionOptions) : M BulkState unit :=
  let maxWorkers := maxWorkersOf options (length files) in
  liftW (log (LogParallel maxWorkers)) ;;;
  match chunkArray files (chunkSizeOf (length files) maxWorkers) with
  | None => diverge
  | Some chunks =>
      fun s =>
        let '(tasks, s1) := startTasks chunks O inputDir outputDir options s in
        (let* r := runSchedule schedule tasks (foldl noteRejection None tasks) in
         finishTasks r.1 r.2) s1
  end.

(** [private printSummary()] *)
Definition printSummary : M BulkState unit :=
  fun s =>
    liftW (log (LogSummary (total (stats s)) (successful (stats s))
                           (failed (stats s)) (skipped (stats s)))) s.

(** [async convertDirectory(inputDir, outputDir, options = {})] *)
Definition convertDirectory (schedule : list nat) (inputDir outputDir : string)
    (options : BulkConversionOptions) : M BulkState unit :=
  liftW (log (LogBulkStart inputDir outputDir)) ;;;
  let* pngFiles := liftW (findPngFiles inputDir (recursive options)) in
  modifyStats (set_total (length pngFiles)) ;;;
  liftW (log (LogFound (length pngFiles))) ;;;
  if (length pngFiles =? 0)%nat then
    liftW (log LogNoPngFiles)
  else
    liftW (ensureDir outputDir) ;;;
    let* filteredFiles := liftW (filterBySize pngFiles (filterSize options)) in
    liftW (log (LogAfterFilter (length filteredFiles))) ;;;
    (if opt_truthy id (parallel options) && (1 <? length filteredFiles)%nat
     then convertInParallel schedule filteredFiles inputDir outputDir options
     else convertSequentially filteredFiles inputDir outputDir options) ;;;
    printSummary.

End WithEnv.

End Bulk.

(* ===================================================================== *)
(** ** [server.ts]: the [POST /api/convert] handler *)
(* ===================================================================== *)

Module Server.
Import JS Eff Converter.
Local Open Scope eff_scope.

(** A request after the upload middleware: the uploaded file, if any, and
    the text fields of the multipart form, which are strings. *)
Record Request : Type := mkRequest {
  file : option string;
  body : gmap string string;
}.

Inductive Response : Type :=
  | Json (status : nat) (message : string) (details : option error)
  | Svg (text : string).

(** "Parse options from request body":
    [if (req.body.preset) Object.assign(options, getPresetOptions(req.body.preset))] *)
Definition presetOf (body : gmap string string) : obj :=
  match body !! "preset" with
  | Some p => if str_truthy p then getPresetOptions p else ∅
  | None => ∅
  end.

(** ... and "Override with custom options" *)
Definition parseOptions (body : gmap string string) : obj :=
  let o0 : obj := presetOf body in
  let o1 : obj :=
    match body !! "threshold" with
    | Some t => if str_truthy t then <["threshold" := VNum (parseInt t)]> o0 else o0
    | None => o0
    end in
  let o2 : obj :=
    match body !! "turdSize" with
    | Some t => if str_truthy t then <["turdSize" := VNum (parseInt t)]> o1 else o1
    | None => o1
    end in
  let o3 : obj :=
    match body !! "optCurve" with
    | Some b => <["optCurve" := VBool (String.eqb b "true")]> o2
    | None => o2
    end in
  match body !! "turnPolicy" with
  | Some p => if str_truthy p then <["turnPolicy" := VStr p]> o3 else o3
  | None => o3
  end.

Section WithEnv.
Context (env : Env).

(** [app.post('/api/convert', upload.single('image'), async (req, res) => ...)] *)
Definition convertHandler (req : Request) : M World Response :=
  try_catch
    (match file req with
     | None => ret (Json 400 "No image file provided" None)
     | Some buffer =>
         let options := parseOptions (body req) in
         log (LogOptions options) ;;;
         let* svgString := convertBuffer env buffer options in
         ret (Svg svgString)
     end)
    (fun error =>
       log (ErrConversion error) ;;;
       ret (Json 500 "Failed to convert image" (Some error))).

End WithEnv.

End Server.

(* ===================================================================== *)
(** ** A concrete environment, for running the model *)
(* ===================================================================== *)

Module Sample.
Import JS Eff Converter Bulk Server.

(** An image is the bytes it was decoded from and the operations applied
    to it since. *)
Definition op_tag (op : jimp_op) : string :=
  match op with
  | Greyscale => "g"
  | Contrast _ => "c"
  | Normalize => "n"
  | Threshold _ => "t"
  end.

Fixpoint last_slash (s : string) (pos : nat) (found : option nat) : option nat :=
  match s with
  | EmptyString => found
  | String c s' =>
      last_slash s' (S pos) (if Ascii.eqb c "/" then Some pos else found)
  end.

(** Bytes that start with [PNG] decode; the tracer rejects bytes that
    start with [PNG!], and throws at once for a [turnPolicy] that is not
    one of its six; the image library writes [.png] paths, in any case. *)
Definition env : Env := {|
  image := string * list jimp_op;
  jimp_decode := fun bytes =>
    if String.prefix "PNG" bytes then inr (bytes, [])
    else inl (JimpError "Could not find MIME for Buffer");
  jimp_apply := fun op img => inr (fst img, snd img ++ [op]);
  jimp_encode := fun img => fold_left (fun b op => b +:+ op_tag op) (snd img) (fst img +:+ ":");
  jimp_size := fun _ => (10%N, 10%N);
  potrace_trace := fun bytes _ =>
    if String.prefix "PNG!" bytes then inl (TraceError "trace failed")
    else inr ("<svg>" +:+ bytes +:+ "</svg>");
  timeline := fun k => (1700000000000 + N.of_nat k)%N;
  randoms := fun _ => "k3x9q0zab";
  path_relative := fun from to =>
    if String.prefix (from +:+ "/") to
    then String.substring (S (String.length from))
                          (String.length to - S (String.length from))%nat to
    else to;
  path_join := fun a b => a +:+ "/" +:+ b;
  path_dirname := fun p =>
    match last_slash p 0 None with
    | Some k => String.substring 0 k p
    | None => "."
    end;
  max_depth := 8;
  jimp_missing := fun path => JimpError ("Could not load Buffer from URL: " +:+ path);
  jimp_mime := fun path =>
    if endsWith (toLowerCase path) ".png" then inr "image/png"
    else inl (JimpError "Unsupported MIME type");
  potrace_validate := fun opts =>
    match opts !! "turnPolicy" with
    | Some (VStr policy) =>
        if bool_decide (policy ∈ ["black"; "white"; "left"; "right"; "minority"; "majority"])
        then None
        else Some (TraceError "Bad turnPolicy value")
    | Some _ => Some (TraceError "Bad turnPolicy value")
    | None => None
    end;
|}.

Definition world0 : World := {|
  nodes := {[ "in" := Dir ["a.png"; "B.PNG"; "notes.txt"; "bad.png"; "sub"];
              "in/a.png" := File "PNG-a";
              "in/B.PNG" := File "PNG-b";
              "in/notes.txt" := File "hello";
              "in/bad.png" := File "PNG!bad";
              "in/sub" := Dir ["c.png"];
              "in/sub/c.png" := File "PNG-c";
              "out" := Dir ["a.svg"];
              "out/a.svg" := File "<svg>old</svg>";
              "/tmp" := Dir [] ]};
  sticky := ∅;
  clock_reads := 0;
  random_reads := 0;
  console := [];
|}.

(** The same world, where the temporary file of the next buffer
    conversion may not be unlinked. *)
Definition stickyWorld : World := {|
  nodes := nodes world0;
  sticky := {[ "/tmp/temp_1700000000000_k3x9q0zab.png" ]};
  clock_reads := 0;
  random_reads := 0;
  console := [];
|}.

Definition noOptions : BulkConversionOptions :=
  mkOptions None None None None None None None None None None.

End Sample.

(* ===================================================================== *)
(** ** [converter.ts]: [createBitmap] *)
(* ===================================================================== *)

Module Bitmap.
Import JS.

(** [Math.ceil(width / 8)] *)
Definition bytesPerLineOf (width : nat) : nat :=
  Z.to_nat (Qceiling (inject_Z (Z.of_nat width) / 8)).

(** [data[pixelIndex] > 127]; a read past the end of the buffer gives
    [undefined], and [undefined > 127] is false. *)
Definition isWhiteAt (data : list Z) (pixelIndex : nat) : bool :=
  match data !! pixelIndex with
  | Some r => 127 <? r
  | None => false
  end.

(** The body of the inner loop.  [bitmap[byteIndex] |= 1 << bitIndex]
    stores into a buffer of bytes: the value is taken modulo 256, and a
    store past the end does nothing. *)
Definition setPixel (data : list Z) (width bytesPerLine : nat) (y x : nat)
    (bitmap : list Z) : list Z :=
  let pixelIndex := ((y * width + x) * 4)%nat in
  if isWhiteAt data pixelIndex then
    let byteIndex := (y * bytesPerLine + x / 8)%nat in
    let bitIndex := (7 - x mod 8)%nat in
    <[byteIndex := Z.lor (default 0 (bitmap !! byteIndex))
                         (Z.shiftl 1 (Z.of_nat bitIndex)) mod 256]> bitmap
  else bitmap.

(** [for (let x = 0; x < width; x++)] *)
Definition setRow (data : list Z) (width bytesPerLine : nat) (bitmap : list Z) (y : nat)
    : list Z :=
  foldl (fun bitmap x => setPixel data width bytesPerLine y x bitmap) bitmap (seq 0 width).

(** [private createBitmap(image)], on [image.bitmap]'s [width], [height]
    and [data] (RGBA, four bytes a pixel) *)
Definition createBitmap (width height : nat) (data : list Z) : list Z :=
  let bytesPerLine := bytesPerLineOf width in
  let bitmapSize := (bytesPerLine * height)%nat in
  let bitmap := replicate bitmapSize 0 in
  foldl (setRow data width bytesPerLine) bitmap (seq 0 height).

End Bitmap.

(* ===================================================================== *)
(** ** Messages of the posterizer and of the other REST handlers *)
(* ===================================================================== *)

Module Session.
Import JS Eff.

(** The messages [convertToPosterized] and the handlers of
    [/api/posterize] and [/api/bulk-convert] print. *)
Inductive note : Type :=
  | LogPosterizing (steps : number)
  | LogPosterized (outputPath : string)
  | ErrPosterizedFailed (e : error)
  | ErrPosterizedConversion (e : error)
  | LogBulkConverting (count : nat)
  | LogConvertingFile (filename : string)
  | ErrFailedToConvert (filename : string) (e : error)
  | ErrBulkConversion (e : error).

(** The world, and the notes printed so far; a note carries the number
    of events the console held when it was printed, which places it
    among them. *)
Record Session : Type := mkSession {
  sworld : World;
  notes : list (nat * note);
}.

Definition liftS {A} (m : M World A) : M Session A :=
  fun s => let '(r, w) := m (sworld s) in (r, mkSession w (notes s)).

Definition noted (n : note) (s : Session) : Session :=
  mkSession (sworld s) (notes s ++ [(length (console (sworld s)), n)]).

Definition logNote (n : note) : M Session unit := modify (noted n).

End Session.

(* ===================================================================== *)
(** ** [converter.ts]: [convertToPosterized] *)
(* ===================================================================== *)

Module Posterize.
Import JS Eff Converter Session.
Local Open Scope eff_scope.

(** The temporary path of [convertToPosterized]:
    [inputPath.replace('.png', `.temp-posterize_${Date.now()}.png`)] *)
Definition posterizeTempPath (inputPath : string) (now : N) : string :=
  replace_first ".png" (".temp-posterize_" +:+ show_N now +:+ ".png") inputPath.

(** [{ steps, ...options }] *)
Definition posterizeOptions (steps : number) (options : obj) : obj :=
  spread {[ "steps" := VNum steps ]} options.

Section WithEnv.
Context (env : Env).
(** [potrace.posterize] on the bytes of the file, up to its callback *)
Context (potrace_posterize : string → obj → error + string).
(** What [potrace.posterize] throws, before it reads the file or calls
    back, for options it does not accept *)
Context (posterize_validate : obj → option error).

(** [image.greyscale().normalize()], then
    [if (options.threshold !== undefined) processedImage.threshold({ max: options.threshold })] *)
Definition preprocessPosterized (options : obj) (img : image env) : M World (image env) :=
  let* g := lift_sum (jimp_apply env Greyscale img) in
  let* processedImage := lift_sum (jimp_apply env Normalize g) in
  if is_defined (get options "threshold")
  then lift_sum (jimp_apply env (Threshold (get options "threshold")) processedImage)
  else ret processedImage.

Definition posterizeResult (tempPath : string) (opts : obj) (w : World) : error + string :=
  match nodes w !! tempPath with
  | Some (File bytes) => potrace_posterize bytes opts
  | Some (Dir _) => inl (FsError "EISDIR" tempPath)
  | None => inl (FsError "ENOENT" tempPath)
  end.

(** The call [potrace.posterize(tempPath, { steps, ...options }, callback)]
    itself, inside the executor of the promise *)
Definition posterizeCall (opts : obj) : M World unit :=
  match posterize_validate opts with
  | Some e => throw e
  | None => ret tt
  end.

(** The promise around the posterizer: a call that throws rejects it;
    otherwise the callback unlinks the temporary file first, outside any
    [try], then rejects or resolves. *)
Definition posterizeAndUnlink (tempPath : string) (opts : obj) : M World string :=
  posterizeCall opts ;;;
  let* r := gets (posterizeResult tempPath opts) in
  fun w =>
    match unlinkSync tempPath w with
    | (Returned _, w') => lift_sum r w'
    | (Thrown e, w') | (Escaped e, w') => (Escaped e, w')
    | (Diverged, w') => (Diverged, w')
    end.

(** [async convertToPosterized(inputPath, outputPath, steps = 4, options = {})] *)
Definition convertToPosterized (inputPath outputPath : string) (steps : number)
    (options : obj) : M Session unit :=
  try_catch
    (logNote (LogPosterizing steps) ;;;
     let* image := liftS (jimpRead env inputPath) in
     let* processedImage := liftS (preprocessPosterized options image) in
     let* now := liftS (dateNow env) in
     let tempPath := posterizeTempPath inputPath now in
     liftS (jimpWrite env processedImage tempPath) ;;;
     let* svg := liftS (posterizeAndUnlink tempPath (posterizeOptions steps options)) in
     liftS (writeFile env outputPath svg) ;;;
     logNote (LogPosterized outputPath))
    (fun error => logNote (ErrPosterizedFailed error) ;;; throw error).

End WithEnv.

End Posterize.

(* ===================================================================== *)
(** ** [server.ts]: the upload filter, [POST /api/posterize],
       [POST /api/bulk-convert] and the error middleware *)
(* ===================================================================== *)

Module Rest.
Import JS Eff Converter Session Posterize Server.
Local Open Scope eff_scope.

(** What the upload middleware hands to [next]: the [code] and the
    [message] of the error. *)
Record UploadError : Type := mkUploadError {
  code : option string;
  message : string;
}.

(** [fileFilter: (req, file, cb) => ...], as the error or the flag the
    callback receives *)
Definition fileFilter (mimetype : string) : UploadError + bool :=
  if String.eqb mimetype "image/png" then inr true
  else inl (mkUploadError None "Only PNG files are allowed").

(** The error handling middleware *)
Definition errorMiddleware (error : UploadError) : Response :=
  if bool_decide (code error = Some "LIMIT_FILE_SIZE")
  then Json 400 "File too large. Maximum size is 10MB." None
  else if String.eqb (message error) "Only PNG files are allowed"
       then Json 400 "Only PNG files are allowed" None
       else Json 500 "Internal server error" None.

(** [parseInt(req.body.steps) || 4]; a form without the field gives
    [parseInt(undefined)], which is [NaN]. *)
Definition stepsOf (body : gmap string string) : number :=
  let parsed := match body !! "steps" with
                | Some s => parseInt s
                | None => NaN
                end in
  if num_truthy parsed then parsed else Fin 4.

(** [`/tmp/temp_${Date.now()}.png`] *)
Definition uploadPath (now : N) : string := "/tmp/temp_" +:+ show_N now +:+ ".png".

(** [`/tmp/output_${Date.now()}.svg`] *)
Definition resultPath (now : N) : string := "/tmp/output_" +:+ show_N now +:+ ".svg".

(** One file of [req.files] *)
Record Upload : Type := mkUpload {
  originalname : string;
  buffer : string;
}.

(** An element of [results] *)
Inductive FileResult : Type :=
  | Converted (filename svgFilename svg : string) (size : nat)
  | NotConverted (filename : string) (e : error).

(** The [filename] and [success] properties of an element of [results] *)
Definition filename (r : FileResult) : string :=
  match r with
  | Converted f _ _ _ | NotConverted f _ => f
  end.
Definition success (r : FileResult) : bool :=
  match r with
  | Converted _ _ _ _ => true
  | NotConverted _ _ => false
  end.

(** [summary]; [processing_time] is the instant [new Date()] read, not
    its ISO text. *)
Record Summary : Type := mkSummary {
  total : nat;
  successful : nat;
  failed : nat;
  processing_time : N;
}.

Inductive BulkResponse : Type :=
  | BulkError (status : nat) (message : string) (details : option error)
  | BulkJson (summary : Summary) (results : list FileResult).

(** [file.originalname || `image_${i + 1}.png`] *)
Definition filenameOf (i : nat) (file : Upload) : string :=
  if str_truthy (originalname file) then originalname file
  else "image_" +:+ show_N (N.of_nat (i + 1)) +:+ ".png".

(** [require(name)].  The sources are ES modules ([import.meta.url] in
    [bulk-converter.ts], [test.ts] and [examples.ts]; the [.js] import
    specifiers), in which no [require] is defined: evaluating the
    identifier throws. *)
Definition require (name : string) : M World unit :=
  throw (ReferenceError "require").

Section WithEnv.
Context (env : Env).
Context (potrace_posterize : string → obj → error + string).
Context (posterize_validate : obj → option error).

(** [app.post('/api/posterize', upload.single('image'), async (req, res) => ...)] *)
Definition posterizeHandler (req : Request) : M Session Response :=
  try_catch
    (match file req with
     | None => ret (Json 400 "No image file provided" None)
     | Some buffer =>
         let steps := stepsOf (body req) in
         let* now := liftS (dateNow env) in
         let tempPath := uploadPath now in
         let* now' := liftS (dateNow env) in
         let outputPath := resultPath now' in
         liftS (require "fs") ;;;
         liftS (writeFile env tempPath buffer) ;;;
         convertToPosterized env potrace_posterize posterize_validate
                             tempPath outputPath steps ∅ ;;;
         liftS (require "fs") ;;;
         let* svgString := liftS (readFile outputPath) in
         liftS (require "fs") ;;;
         liftS (unlinkSync tempPath) ;;;
         liftS (require "fs") ;;;
         liftS (unlinkSync outputPath) ;;;
         ret (Svg svgString)
     end)
    (fun error =>
       logNote (ErrPosterizedConversion error) ;;;
       ret (Json 500 "Failed to convert image" (Some error))).

(** The loop of the bulk handler from index [i] on, with [results],
    [successful] and [failed] as they stand *)
Fixpoint bulkLoop (options : obj) (files : list Upload) (i : nat)
    (results : list FileResult) (successful failed : nat)
    : M Session (list FileResult * nat * nat) :=
  match files with
  | [] => ret (results, successful, failed)
  | file :: rest =>
      let filename := filenameOf i file in
      let* r :=
        try_catch
          (logNote (LogConvertingFile filename) ;;;
           let* svgString := liftS (convertBuffer env (buffer file) options) in
           ret (results ++ [Converted filename (replace_png_ext filename) svgString
                                      (String.length svgString)],
                S successful, failed))
          (fun error =>
             logNote (ErrFailedToConvert filename error) ;;;
             ret (results ++ [NotConverted filename error], successful, S failed)) in
      bulkLoop options rest (S i) r.1.1 r.1.2 r.2
  end.

(** [app.post('/api/bulk-convert', upload.array('images', 20), async (req, res) => ...)];
    [files] is [req.files], which is [undefined] when the request had no
    multipart body. *)
Definition bulkHandler (files : option (list Upload)) (body : gmap string string)
    : M Session BulkResponse :=
  try_catch
    (match files with
     | None | Some [] => ret (BulkError 400 "No image files provided" None)
     | Some files =>
         logNote (LogBulkConverting (length files)) ;;;
         let options := parseOptions body in
         let* r := bulkLoop options files 0 [] 0 0 in
         let* now := liftS (dateNow env) in
         ret (BulkJson (mkSummary (length files) r.1.2 r.2 now) r.1.1)
     end)
    (fun error =>
       logNote (ErrBulkConversion error) ;;;
       ret (BulkError 500 "Failed to process bulk conversion" (Some error))).

End WithEnv.

End Rest.

(* ===================================================================== *)
(** ** [bulk-converter.ts]: the command line *)
(* ===================================================================== *)

Module BulkCli.
Import JS Eff Converter Bulk.

(** [const options: BulkConversionOptions = {}] *)
Definition emptyOptions : BulkConversionOptions :=
  mkOptions None None None None None None None None None None.

(** [parseInt(value)] for [value = args[i + 1]], which is [undefined]
    past the end of the arguments *)
Definition parseIntArg (value : option string) : number :=
  match value with
  | Some v => parseInt v
  | None => NaN
  end.

(** The three cases of the [switch] that end in [i--]: the flag takes no
    value. *)
Definition isSwitch (flag : string) : bool :=
  String.eqb flag "--parallel" || String.eqb flag "--recursive"
  || String.eqb flag "--overwrite".

Definition setSwitch (flag : string) (o : BulkConversionOptions) : BulkConversionOptions :=
  if String.eqb flag "--parallel" then
    mkOptions (preset o) (threshold o) (turdSize o) (optCurve o) (turnPolicy o)
              (Some true) (maxWorkers o) (recursive o) (overwrite o) (filterSize o)
  else if String.eqb flag "--recursive" then
    mkOptions (preset o) (threshold o) (turdSize o) (optCurve o) (turnPolicy o)
              (parallel o) (maxWorkers o) (Some true) (overwrite o) (filterSize o)
  else if String.eqb flag "--overwrite" then
    mkOptions (preset o) (threshold o) (turdSize o) (optCurve o) (turnPolicy o)
              (parallel o) (maxWorkers o) (recursive o) (Some true) (filterSize o)
  else o.

(** [{ ...options.filterSize, min: n }] and [{ ...options.filterSize, max: n }] *)
Definition withMin (f : option SizeFilter) (n : number) : SizeFilter :=
  mkSizeFilter (Some n) (match f with Some sf => max sf | None => None end).
Definition withMax (f : option SizeFilter) (n : number) : SizeFilter :=
  mkSizeFilter (match f with Some sf => min sf | None => None end) (Some n).

(** The other cases of the [switch]; a flag that is none of them leaves
    the options as they are. *)
Definition setValued (flag : string) (value : option string) (o : BulkConversionOptions)
    : BulkConversionOptions :=
  if String.eqb flag "--preset" then
    mkOptions value (threshold o) (turdSize o) (optCurve o) (turnPolicy o)
              (parallel o) (maxWorkers o) (recursive o) (overwrite o) (filterSize o)
  else if String.eqb flag "--threshold" then
    mkOptions (preset o) (Some (parseIntArg value)) (turdSize o) (optCurve o) (turnPolicy o)
              (parallel o) (maxWorkers o) (recursive o) (overwrite o) (filterSize o)
  else if String.eqb flag "--max-workers" then
    mkOptions (preset o) (threshold o) (turdSize o) (optCurve o) (turnPolicy o)
              (parallel o) (Some (parseIntArg value)) (recursive o) (overwrite o) (filterSize o)
  else if String.eqb flag "--min-size" then
    mkOptions (preset o) (threshold o) (turdSize o) (optCurve o) (turnPolicy o)
              (parallel o) (maxWorkers o) (recursive o) (overwrite o)
              (Some (withMin (filterSize o) (parseIntArg value)))
  else if String.eqb flag "--max-size" then
    mkOptions (preset o) (threshold o) (turdSize o) (optCurve o) (turnPolicy o)
              (parallel o) (maxWorkers o) (recursive o) (overwrite o)
              (Some (withMax (filterSize o) (parseIntArg value)))
  else o.

(** The loop [for (let i = 2; i < args.length; i += 2)] on the arguments
    from index [i] on: [flag] is [args[i]] and [value] is [args[i + 1]];
    after a switch the next flag is [args[i + 1]], after any other flag
    it is [args[i + 2]]. *)
Fixpoint parseFlags (args : list string) (options : BulkConversionOptions)
    : BulkConversionOptions :=
  match args with
  | [] => options
  | flag :: rest =>
      if isSwitch flag then parseFlags rest (setSwitch flag options)
      else match rest with
           | [] => setValued flag None options
           | value :: rest' => parseFlags rest' (setValued flag (Some value) options)
           end
  end.

(** The arguments of the call of [convertDirectory]; [None] when there
    are fewer than two arguments: the usage is printed and the process
    exits with status 1. *)
Definition parseArgs (args : list string)
    : option (string * string * BulkConversionOptions) :=
  match args with
  | inputDir :: outputDir :: flags => Some (inputDir, outputDir, parseFlags flags emptyOptions)
  | _ => None
  end.

(** A number [parseInt] can return: [NaN], an infinity or an integer *)
Definition integral (n : number) : Prop :=
  n = NaN ∨ (∃ negative, n = Inf negative) ∨ ∃ z : Z, n = Fin (inject_Z z).

Definition integral_opt (o : option number) : Prop := ∀ n, o = Some n → integral n.

(** What the flags of the command line can say: nothing about
    [turdSize], [optCurve] and [turnPolicy], a switch only switched on,
    and numbers that [parseInt] returned. *)
Definition expressible (o : BulkConversionOptions) : Prop :=
  turdSize o = None ∧ optCurve o = None ∧ turnPolicy o = None ∧
  parallel o ≠ Some false ∧ recursive o ≠ Some false ∧ overwrite o ≠ Some false ∧
  integral_opt (threshold o) ∧ integral_opt (maxWorkers o) ∧
  (∀ sf, filterSize o = Some sf → integral_opt (min sf) ∧ integral_opt (max sf)).

End BulkCli.

(* ===================================================================== *)
(** ** [cli.ts] (the commander program, kept in the tree at the end of
       [src/jimp-test.ts]): the options of the [convert] and [posterize]
       commands *)
(* ===================================================================== *)

Module Cli.
Import JS Eff Converter.

(** The [options] the [convert] action receives: the text of an option
    that takes a value, the flag of a negatable one, [None] for
    [undefined]. *)
Record ConvertFlags : Type := mkConvertFlags {
  threshold : option string;
  turdSize : option string;
  alphaMax : option string;
  optCurve : option bool;
  optTolerance : option string;
  turnPolicy : option string;
  blackOnWhite : option bool;
  preset : option string;
}.

(** What the declarations of the command give an option that is not on
    the command line: ['128'], ['2'], ['1'], ['0.2'], ['minority'], and
    [true] for [--no-opt-curve] and [--no-black-on-white]. *)
Definition convertDefaults : ConvertFlags :=
  mkConvertFlags (Some "128") (Some "2") (Some "1") (Some true) (Some "0.2")
                 (Some "minority") (Some true) None.

(** The [options] the [posterize] action receives *)
Record PosterizeFlags : Type := mkPosterizeFlags {
  psteps : option string;
  pthreshold : option string;
  ppreset : option string;
}.

Definition posterizeDefaults : PosterizeFlags :=
  mkPosterizeFlags (Some "4") (Some "128") None.

(** [if (options.preset) conversionOptions = getPresetOptions(options.preset)] *)
Definition presetOptions (preset : option string) : obj :=
  match preset with
  | Some p => if str_truthy p then getPresetOptions p else ∅
  | None => ∅
  end.

Section WithParseFloat.
(** [parseFloat] *)
Context (parseFloat : string → number).

(** "build options" and "override with CLI options" of the [convert]
    action *)
Definition convertOptionsOf (options : ConvertFlags) : obj :=
  let c0 : obj := presetOptions (preset options) in
  let c1 : obj :=
    match threshold options with
    | Some t => if str_truthy t then <["threshold" := VNum (parseInt t)]> c0 else c0
    | None => c0
    end in
  let c2 : obj :=
    match turdSize options with
    | Some t => if str_truthy t then <["turdSize" := VNum (parseInt t)]> c1 else c1
    | None => c1
    end in
  let c3 : obj :=
    match alphaMax options with
    | Some a => if str_truthy a then <["alphaMax" := VNum (parseFloat a)]> c2 else c2
    | None => c2
    end in
  let c4 : obj :=
    match optCurve options with
    | Some false => <["optCurve" := VBool false]> c3
    | _ => c3
    end in
  let c5 : obj :=
    match optTolerance options with
    | Some t => if str_truthy t then <["optTolerance" := VNum (parseFloat t)]> c4 else c4
    | None => c4
    end in
  let c6 : obj :=
    match turnPolicy options with
    | Some p => if str_truthy p then <["turnPolicy" := VStr p]> c5 else c5
    | None => c5
    end in
  match blackOnWhite options with
  | Some false => <["blackOnWhite" := VBool false]> c6
  | _ => c6
  end.

End WithParseFloat.

(** The options of the [posterize] action: the preset, then
    [if (options.threshold) conversionOptions.threshold = parseInt(options.threshold)] *)
Definition posterizeConversionOptions (options : PosterizeFlags) : obj :=
  let c0 : obj := presetOptions (ppreset options) in
  match pthreshold options with
  | Some t => if str_truthy t then <["threshold" := VNum (parseInt t)]> c0 else c0
  | None => c0
  end.

(** [parseInt(options.steps) || 4] *)
Definition posterizeSteps (options : PosterizeFlags) : number :=
  let parsed := match psteps options with
                | Some s => parseInt s
                | None => NaN
                end in
  if num_truthy parsed then parsed else Fin 4.

End Cli.

(* ===================================================================== *)
(** ** A concrete posterizer, for running the handlers *)
(* ===================================================================== *)

Module SampleRest.
Import JS Eff.

(** The posterizer rejects bytes that start with [PNG!]; its result names
    the options it was given. *)
Definition posterize (bytes : string) (opts : obj) : error + string :=
  if String.prefix "PNG!" bytes then inl (TraceError "posterize failed")
  else inr ("<svg " +:+ String.concat " " (map fst (map_to_list opts)) +:+ ">"
            +:+ bytes +:+ "</svg>").

(** It throws at once for [steps] that is a truthy number outside the
    range from 1 to 255. *)
Definition validate (opts : obj) : option error :=
  match opts !! "steps" with
  | Some (VNum (Fin q)) =>
      if Qeq_bool q 0 || (Qle_bool 1 q && Qle_bool q 255) then None
      else Some (TraceError "Bad 'steps' value")
  | Some (VNum (Inf _)) => Some (TraceError "Bad 'steps' value")
  | _ => None
  end.

End SampleRest.

(* ===================================================================== *)
(** ** Running the effects *)
(* ===================================================================== *)

Module EffFacts.
Import JS Eff.
Local Open Scope eff_scope.

Lemma bind_Returned {S A B} (m : M S A) (k : A → M S B) s a s' :
  m s = (Returned a, s') → bind m k s = k a s'.
Proof. intros H. unfold bind. by rewrite H. Qed.

Lemma bind_Thrown {S A B} (m : M S A) (k : A → M S B) s e s' :
  m s = (Thrown e, s') → bind m k s = (Thrown e, s').
Proof. intros H. unfold bind. by rewrite H. Qed.

(** A sequence that returns went through a first part that returned. *)
Lemma bind_inv_Returned {S A B} (m : M S A) (k : A → M S B) s b s2 :
  bind m k s = (Returned b, s2) →
  ∃ a s1, m s = (Returned a, s1) ∧ k a s1 = (Returned b, s2).
Proof.
  unfold bind. destruct (m s) as [[a|e|e|] s1]; intros H; try discriminate.
  by exists a, s1.
Qed.

Lemma writeFile_ok env path bytes w parent :
  nodes w !! path_dirname env path = Some (Dir parent) →
  (∀ items, nodes w !! path ≠ Some (Dir items)) →
  writeFile env path bytes w = (Returned tt, set_nodes (insert path (File bytes)) w).
Proof.
  intros Hp H. unfold writeFile. rewrite Hp.
  destruct (nodes w !! path) as [[b|items]|] eqn:E; try done.
  by destruct (H items).
Qed.

(** A write that returned found the directory and stored the file. *)
Lemma writeFile_inv env path bytes w w' :
  writeFile env path bytes w = (Returned tt, w') →
  (∃ parent, nodes w !! path_dirname env path = Some (Dir parent))
  ∧ (∀ items, nodes w !! path ≠ Some (Dir items))
  ∧ w' = set_nodes (insert path (File bytes)) w.
Proof.
  unfold writeFile.
  destruct (nodes w !! path_dirname env path) as [[b|parent]|]; try discriminate.
  destruct (nodes w !! path) as [[b|items]|]; try discriminate;
    intros [= <-]; (split; [by eexists|split; [done|done]]).
Qed.

Lemma lift_sum_inv {S A} (r : error + A) (s s' : S) (a : A) :
  lift_sum r s = (Returned a, s') → r = inr a ∧ s' = s.
Proof. destruct r as [e|a']; [discriminate|]. by intros [= <- <-]. Qed.

(** A write changes the world only when it returns. *)
Lemma writeFile_Thrown env path bytes w e w' :
  writeFile env path bytes w = (Thrown e, w') → w' = w.
Proof.
  unfold writeFile.
  destruct (nodes w !! path_dirname env path) as [[b|parent]|]; try congruence.
  destruct (nodes w !! path) as [[b|items]|]; congruence.
Qed.

Lemma unlinkSync_ok path bytes w :
  nodes w !! path = Some (File bytes) → path ∉ sticky w →
  unlinkSync path w = (Returned tt, set_nodes (delete path) w).
Proof.
  intros H Hs. unfold unlinkSync. rewrite H.
  by rewrite bool_decide_eq_false_2.
Qed.


(** *** What a computation leaves of the file system *)

Lemma kept_nodes (P : string → Prop) (w w' : World) : nodes w' = nodes w → kept P w w'.
Proof. intros H path _. by rewrite H. Qed.

Lemma kept_trans (P : string → Prop) (w1 w2 w3 : World) :
  kept P w1 w2 → kept P w2 w3 → kept P w1 w3.
Proof. intros H1 H2 path Hp. by rewrite H2, H1. Qed.

Lemma kept_bind {A B} (P : string → Prop) (m : M World A) (k : A → M World B) (w : World) :
  kept P w (m w).2 →
  (∀ a, (m w).1 = Returned a → kept P (m w).2 (k a (m w).2).2) →
  kept P w (bind m k w).2.
Proof.
  intros Hm Hk. unfold bind. destruct (m w) as [[a|e|e|] w1]; cbn in *; try done.
  eapply kept_trans; [exact Hm | by apply Hk].
Qed.

Lemma kept_try_catch {A} (P : string → Prop) (body : M World A) (h : error → M World A)
    (w : World) :
  kept P w (body w).2 →
  (∀ e, (body w).1 = Thrown e → kept P (body w).2 (h e (body w).2).2) →
  kept P w (try_catch body h w).2.
Proof.
  intros Hb Hh. unfold try_catch. destruct (body w) as [[a|e|e|] w1]; cbn in *; try done.
  eapply kept_trans; [exact Hb | by apply Hh].
Qed.

Lemma kept_lift_sum {A} (P : string → Prop) (r : error + A) (w : World) :
  kept P w (lift_sum r w).2.
Proof. apply kept_nodes. by destruct r. Qed.

Lemma kept_writeFile (P : string → Prop) env (path bytes : string) (w : World) :
  P path → kept P w (writeFile env path bytes w).2.
Proof.
  intros Hp q Hq. unfold writeFile.
  destruct (nodes w !! path_dirname env path) as [[b|parent]|]; try done.
  destruct (nodes w !! path) as [[b|items]|]; try done;
    cbn; rewrite lookup_insert_ne; congruence.
Qed.

Lemma kept_unlinkSync (P : string → Prop) (path : string) (w : World) :
  P path → kept P w (unlinkSync path w).2.
Proof.
  intros Hp q Hq. unfold unlinkSync.
  destruct (nodes w !! path) as [[b|items]|]; try done.
  destruct (bool_decide _); [done|]. cbn. rewrite lookup_delete_ne; congruence.
Qed.

Lemma settles_ret {S A} (a : A) : settles (ret a : M S A).
Proof. intros s. exists s. left. by exists a. Qed.

Lemma settles_throw {S A} (e : error) : settles (throw e : M S A).
Proof. intros s. exists s. right. by exists e. Qed.

Lemma settles_lift_sum {S A} (r : error + A) : settles (lift_sum r : M S A).
Proof. destruct r; [apply settles_throw | apply settles_ret]. Qed.

Lemma settles_gets {S A} (f : S → A) : settles (gets f).
Proof. intros s. exists s. left. by exists (f s). Qed.

Lemma settles_modify {S} (f : S → S) : settles (modify f).
Proof. intros s. exists (f s). left. by exists tt. Qed.

Lemma settles_bind {S A B} (m : M S A) (k : A → M S B) :
  settles m → (∀ a, settles (k a)) → settles (bind m k).
Proof.
  intros Hm Hk s. unfold bind.
  destruct (Hm s) as (s1 & [[a ->] | [e ->]]).
  - apply Hk.
  - exists s1. right. by exists e.
Qed.

Lemma settles_try_catch {S A} (body : M S A) (handler : error → M S A) :
  settles body → (∀ e, settles (handler e)) → settles (try_catch body handler).
Proof.
  intros Hb Hh s. unfold try_catch.
  destruct (Hb s) as (s1 & [[a ->] | [e ->]]).
  - exists s1. left. by exists a.
  - apply Hh.
Qed.

Lemma settles_log (e : event) : settles (log e).
Proof. apply settles_modify. Qed.

Lemma settles_unlinkSync (path : string) : settles (unlinkSync path).
Proof.
  intros w. unfold unlinkSync.
  destruct (nodes w !! path) as [[b|items]|]; [|eauto..].
  destruct (bool_decide _); eauto.
Qed.

Lemma settles_writeFile env (path bytes : string) : settles (writeFile env path bytes).
Proof.
  intros w. unfold writeFile.
  destruct (nodes w !! path_dirname env path) as [[b|parent]|]; eauto.
  destruct (nodes w !! path) as [[b|items]|]; eauto.
Qed.

Lemma settles_dateNow (env : Env) : settles (dateNow env).
Proof. intros w. unfold dateNow. eauto. Qed.

Lemma settles_randomSuffix (env : Env) : settles (randomSuffix env).
Proof. intros w. unfold randomSuffix. eauto. Qed.

End EffFacts.

(* ===================================================================== *)
(** ** Turns: a call run with nothing in between *)
(* ===================================================================== *)

Module TurnFacts.
Import JS Eff EffFacts.
Local Open Scope eff_scope.

Lemma Co_induction {S A} (P : Co S A → Prop) :
  (∀ o, P (Done o)) →
  (∀ resume, (∀ s, P (resume s).1) → P (Await resume)) →
  ∀ c, P c.
Proof.
  intros Hd Ha. fix IH 1. intros [o|resume].
  - apply Hd.
  - apply Ha. intros s. apply IH.
Qed.











End TurnFacts.

(* ===================================================================== *)
(** ** Facts about the converter facade *)
(* ===================================================================== *)

Module ConverterFacts.
Import JS Eff Converter EffFacts TurnFacts.
Local Open Scope eff_scope.

(** *** Options *)

Lemma mergeOptions_supplied (options : obj) (k : string) (v : value) :
  options !! k = Some v → mergeOptions options !! k = Some v.
Proof. intros H. unfold mergeOptions, spread. by apply lookup_union_Some_l. Qed.

Lemma mergeOptions_missing (options : obj) (k : string) :
  options !! k = None → mergeOptions options !! k = defaultOptions !! k.
Proof. intros H. unfold mergeOptions, spread. by apply lookup_union_r. Qed.

(** C5.  [getPresetOptions] is a function of its argument alone; the four
    preset names give the fixed records below, and every other string
    gives the empty record. *)
Theorem getPresetOptions_lookup (preset : string) :
  getPresetOptions "logo" =
    {[ "threshold" := VNum (Fin 128); "turdSize" := VNum (Fin 2);
       "optCurve" := VBool true; "optTolerance" := VNum (Fin 0.2);
       "turnPolicy" := VStr "minority" ]} ∧
  getPresetOptions "photo" =
    {[ "threshold" := VNum (Fin 120); "turdSize" := VNum (Fin 4);
       "optCurve" := VBool true; "optTolerance" := VNum (Fin 0.3);
       "turnPolicy" := VStr "majority" ]} ∧
  getPresetOptions "drawing" =
    {[ "threshold" := VNum (Fin 140); "turdSize" := VNum (Fin 1);
       "optCurve" := VBool true; "optTolerance" := VNum (Fin 0.1);
       "turnPolicy" := VStr "minority" ]} ∧
  getPresetOptions "text" =
    {[ "threshold" := VNum (Fin 128); "turdSize" := VNum (Fin 1);
       "optCurve" := VBool false; "optTolerance" := VNum (Fin 0.1);
       "turnPolicy" := VStr "black" ]} ∧
  (preset ≠ "logo" → preset ≠ "photo" → preset ≠ "drawing" → preset ≠ "text" →
   getPresetOptions preset = ∅).
Proof.
  repeat split; try reflexivity.
  intros H1 H2 H3 H4. unfold getPresetOptions.
  destruct (String.eqb_spec preset "logo"); [done|].
  destruct (String.eqb_spec preset "photo"); [done|].
  destruct (String.eqb_spec preset "drawing"); [done|].
  destruct (String.eqb_spec preset "text"); done.
Qed.

Lemma getPresetOptions_lookup_witness : getPresetOptions "Logo" = ∅.
Proof. apply (getPresetOptions_lookup "Logo"); discriminate. Defined.

(** *** Preprocessing *)

Lemma lift_sum_world {A} (r : error + A) (w : World) :
  snd (lift_sum r w) = w.
Proof. by destruct r. Qed.

Lemma basePipeline_world (env : Env) (img : image env) (w : World) :
  snd (basePipeline env img w) = w.
Proof.
  unfold basePipeline, bind.
  destruct (jimp_apply env Greyscale img) as [e|g]; [done|]; simpl.
  destruct (jimp_apply env (Contrast (Fin 0.3)) g) as [e|c]; [done|]; simpl.
  apply lift_sum_world.
Qed.

Lemma preprocess_world (env : Env) (opts : obj) (img : image env) (w : World) :
  snd (preprocess env opts img w) = w.
Proof.
  unfold preprocess, bind.
  pose proof (basePipeline_world env img w) as Hw.
  destruct (basePipeline env img w) as [[p|e|e|] w1]; simpl in Hw; subst w1; try done.
  destruct (is_defined _); [apply lift_sum_world | done].
Qed.

(** C1 (as amended).  The threshold step of [convertFile] (and of
    [convertImageToSvg]) tests the merged options.  With no [threshold]
    property in the supplied record the default 128 is merged in and the
    threshold operation is applied with 128; with a value it is applied
    with that value; only a [threshold] property that holds [undefined]
    skips the step. *)
Theorem preprocess_threshold_step (env : Env) (options : obj) (img : image env) (w : World) :
  preprocess env (mergeOptions options) img w =
    match options !! "threshold" with
    | None =>
        (let* p := basePipeline env img in
         lift_sum (jimp_apply env (Threshold (VNum (Fin 128))) p)) w
    | Some VUndefined => basePipeline env img w
    | Some v =>
        (let* p := basePipeline env img in
         lift_sum (jimp_apply env (Threshold v) p)) w
    end.
Proof.
  unfold preprocess, get.
  destruct (options !! "threshold") as [v|] eqn:Hv.
  - rewrite (mergeOptions_supplied _ _ _ Hv). simpl.
    destruct v; simpl; try reflexivity.
    unfold bind. destruct (basePipeline env img w) as [[p|e|e|] w1]; reflexivity.
  - rewrite (mergeOptions_missing _ _ Hv). reflexivity.
Qed.

(** C1 as stated fails: with no [threshold] in the options record the
    threshold operation is applied all the same, with the default 128;
    the image [convertFile] hands to the tracer went through it. *)
Lemma threshold_applied_when_unset :
  (∅ : obj) !! "threshold" = None ∧
  preprocess Sample.env (mergeOptions ∅) ("PNG-a", []) Sample.world0 =
    (Returned ("PNG-a", [Greyscale; Contrast (Fin 0.3); Normalize;
                         Threshold (VNum (Fin 128))]), Sample.world0) ∧
  preprocess Sample.env (mergeOptions ∅) ("PNG-a", []) Sample.world0 ≠
    basePipeline Sample.env ("PNG-a", []) Sample.world0 ∧
  nodes (snd (convertFile Sample.env "in/a.png" "out/a.svg" ∅ Sample.world0)) !! "out/a.svg"
    = Some (File "<svg>PNG-a:gcnt</svg>").
Proof.
  split; [reflexivity|]. split; [reflexivity|]. split.
  - intros H. vm_compute in H. discriminate H.
  - vm_compute. reflexivity.
Qed.

Lemma jimpRead_world (env : Env) (path : string) (w : World) :
  snd (jimpRead env path w) = w.
Proof.
  unfold jimpRead, bind, existsSync, gets, readFile.
  destruct (bool_decide _); [|done].
  destruct (nodes w !! path) as [[bytes|items]|]; try done.
  apply lift_sum_world.
Qed.

Lemma kept_jimpWrite (P : string → Prop) (env : Env) (img : image env) path w :
  P path → kept P w (jimpWrite env img path w).2.
Proof.
  intros Hp. unfold jimpWrite. apply kept_bind; [apply kept_lift_sum|].
  intros _ _. rewrite lift_sum_world. by apply kept_writeFile.
Qed.

Lemma traceCall_world (env : Env) (opts : obj) (w : World) : snd (traceCall env opts w) = w.
Proof. unfold traceCall. by destruct (potrace_validate env opts). Qed.

Lemma kept_traceAndUnlink (P : string → Prop) (env : Env) tempPath opts w :
  P tempPath → kept P w (traceAndUnlink env tempPath opts w).2.
Proof.
  intros Hp. unfold traceAndUnlink.
  apply kept_bind; [apply kept_nodes; by rewrite traceCall_world|].
  intros _ _. rewrite traceCall_world.
  apply kept_bind; [by apply kept_nodes|]. intros r _. cbn.
  unfold traceCallback. pose proof (kept_unlinkSync P tempPath w Hp) as H.
  destruct (unlinkSync tempPath w) as [[[]|e|e|] w1]; cbn in *; try done.
  eapply kept_trans; [exact H | apply kept_lift_sum].
Qed.

Lemma kept_traceAndTryUnlink (P : string → Prop) (env : Env) tempPath opts w :
  P tempPath → kept P w (traceAndTryUnlink env tempPath opts w).2.
Proof.
  intros Hp. unfold traceAndTryUnlink.
  apply kept_bind; [apply kept_nodes; by rewrite traceCall_world|].
  intros _ _. rewrite traceCall_world.
  apply kept_bind; [by apply kept_nodes|]. intros r _. cbn.
  apply kept_bind; [|intros; apply kept_lift_sum].
  apply kept_try_catch; [by apply kept_unlinkSync|].
  intros e _. by apply kept_nodes.
Qed.

(** *** Temporary paths *)

Lemma length_append (s1 s2 : string) :
  String.length (s1 +:+ s2) = (String.length s1 + String.length s2)%nat.
Proof. induction s1 as [|c s1 IH]; simpl; [done|]. by rewrite IH. Qed.

Lemma prefix_length (s1 s2 : string) :
  String.prefix s1 s2 = true → (String.length s1 ≤ String.length s2)%nat.
Proof.
  revert s2. induction s1 as [|c s1 IH]; intros [|d s2]; simpl; try lia; try done.
  destruct (Ascii.ascii_dec c d); [|done]. intros H. apply IH in H. lia.
Qed.

Lemma length_substring (n m : nat) (s : string) :
  (n + m ≤ String.length s)%nat → String.length (String.substring n m s) = m.
Proof.
  revert n m. induction s as [|c s IH]; intros [|n] [|m]; simpl; try lia.
  - intros H. rewrite IH; [done|lia].
  - intros H. apply IH. lia.
  - intros H. apply IH. lia.
Qed.

Lemma replace_first_absent (pat rep s : string) :
  occurs pat s = false → replace_first pat rep s = s.
Proof.
  induction s as [|c s IH]; cbn [occurs replace_first].
  - by destruct (String.prefix pat "").
  - destruct (String.prefix pat (String c s)); [done|]. cbn [orb].
    intros H. by rewrite IH.
Qed.

Lemma replace_first_length (pat rep s : string) :
  occurs pat s = true →
  (String.length (replace_first pat rep s) + String.length pat
   = String.length s + String.length rep)%nat.
Proof.
  induction s as [|c s IH].
  - cbn [occurs replace_first]. destruct (String.prefix pat "") eqn:E; [|done]. intros _.
    apply prefix_length in E. rewrite length_append, length_substring; simpl in *; lia.
  - cbn [occurs replace_first].
    destruct (String.prefix pat (String c s)) eqn:E.
    + intros _. apply prefix_length in E.
      rewrite length_append, length_substring; simpl in *; lia.
    + cbn [orb String.length]. intros H. apply IH in H. lia.
Qed.

(** The temporary path of [convertFile] differs from the input path
    exactly when the input path contains [.png]. *)
Lemma fileTempPath_distinct_iff (inputPath : string) (now : N) :
  fileTempPath inputPath now ≠ inputPath ↔ occurs ".png" inputPath = true.
Proof.
  unfold fileTempPath. split.
  - intros H. destruct (occurs ".png" inputPath) eqn:E; [done|].
    destruct H. by apply replace_first_absent.
  - intros H Heq. apply (replace_first_length _ (".temp_" +:+ show_N now +:+ ".png")) in H.
    rewrite Heq in H. rewrite !length_append in H. simpl in H. lia.
Qed.

(** C2 fails on an input whose extension is not the lower-case [.png]:
    [replace] finds nothing to replace, the temporary path is the input
    path itself, the preprocessed image is written over the input and the
    cleanup unlinks it.  (The bulk driver finds such files: its test is
    [item.toLowerCase().endsWith('.png')].) *)
Theorem fileTempPath_uppercase_is_input :
  (∀ now, fileTempPath "in/B.PNG" now = "in/B.PNG") ∧
  nodes Sample.world0 !! "in/B.PNG" = Some (File "PNG-b") ∧
  fst (convertFile Sample.env "in/B.PNG" "out/B.svg" ∅ Sample.world0) = Returned tt ∧
  nodes (snd (convertFile Sample.env "in/B.PNG" "out/B.svg" ∅ Sample.world0)) !! "in/B.PNG"
    = None.
Proof.
  split; [intros now; reflexivity|].
  split; [reflexivity|]. split; vm_compute; reflexivity.
Qed.

(** *** Failures *)

Section Failures.
Context (env : Env).

Lemma jimpWrite_ok (img : image env) path w mime parent :
  jimp_mime env path = inr mime →
  nodes w !! path_dirname env path = Some (Dir parent) →
  (∀ items, nodes w !! path ≠ Some (Dir items)) →
  jimpWrite env img path w
    = (Returned tt, set_nodes (insert path (File (jimp_encode env img))) w).
Proof.
  intros Hmime Hparent Hdir. unfold jimpWrite. rewrite Hmime.
  erewrite bind_Returned by reflexivity.
  by apply (writeFile_ok env path _ w parent).
Qed.

(** The promise around the tracer when the tracer takes the options: the
    temporary file is unlinked, and the promise settles as the tracer
    said. *)
Lemma traceAndUnlink_called tempPath opts bytes w :
  potrace_validate env opts = None →
  nodes w !! tempPath = Some (File bytes) →
  tempPath ∉ sticky w →
  traceAndUnlink env tempPath opts w
    = (match potrace_trace env bytes opts with
       | inl e => Thrown e
       | inr svg => Returned svg
       end, set_nodes (delete tempPath) w).
Proof.
  intros Hvalid Hfile Hsticky. unfold traceAndUnlink, traceCall. rewrite Hvalid.
  erewrite bind_Returned by reflexivity.
  erewrite bind_Returned by reflexivity.
  unfold traceCallback, traceResult. rewrite Hfile.
  erewrite unlinkSync_ok by done.
  by destruct (potrace_trace env bytes opts).
Qed.

(** ... and when the tracer throws on the options: nothing is unlinked. *)
Lemma traceAndUnlink_thrown tempPath opts e w :
  potrace_validate env opts = Some e →
  traceAndUnlink env tempPath opts w = (Thrown e, w).
Proof. intros Hvalid. unfold traceAndUnlink, traceCall. by rewrite Hvalid. Qed.

Lemma jimpRead_ok path bytes img w :
  nodes w !! path = Some (File bytes) → jimp_decode env bytes = inr img →
  jimpRead env path w = (Returned img, w).
Proof.
  intros Hfile Hdec. unfold jimpRead, bind, existsSync, gets, readFile.
  rewrite Hfile, bool_decide_eq_true_2 by done. rewrite Hfile. cbn. by rewrite Hdec.
Qed.

Lemma jimpRead_missing path w :
  nodes w !! path = None → jimpRead env path w = (Thrown (jimp_missing env path), w).
Proof.
  intros Hnone. unfold jimpRead, bind, existsSync, gets.
  rewrite Hnone, bool_decide_eq_false_2; [done|]. by intros [x Hx].
Qed.

(** [convertFile] from the call of the tracer on, once the temporary file
    is written. *)
Lemma convertFile_from_trace inputPath outputPath options w img p mime parent :
  let w1 := logged (LogConverting inputPath) w in
  let opts := mergeOptions options in
  let tempPath := fileTempPath inputPath (timeline env (clock_reads w)) in
  jimpRead env inputPath w1 = (Returned img, w1) →
  preprocess env opts img w1 = (Returned p, w1) →
  jimp_mime env tempPath = inr mime →
  nodes w !! path_dirname env tempPath = Some (Dir parent) →
  (∀ items, nodes w !! tempPath ≠ Some (Dir items)) →
  ∃ w2,
    nodes w2 = <[tempPath := File (jimp_encode env p)]> (nodes w) ∧
    sticky w2 = sticky w ∧
    convertFile env inputPath outputPath options w
    = try_catch
        (let* svgContent := traceAndUnlink env tempPath opts in
         writeFile env outputPath svgContent ;;;
         log (LogConverted outputPath))
        (fun error => log (ErrConversionFailed error) ;;; throw error) w2.
Proof.
  intros w1 opts tempPath Hread Hpre Hmime Hparent Hdir.
  eexists. split; [|split]; [| |].
  3:{ unfold convertFile, try_catch.
      rewrite (bind_Returned _ _ w tt w1) by reflexivity.
      rewrite (bind_Returned _ _ _ _ _ Hread).
      fold opts. rewrite (bind_Returned _ _ _ _ _ Hpre).
      erewrite bind_Returned by reflexivity. simpl clock_reads. fold tempPath.
      erewrite bind_Returned by (by apply (jimpWrite_ok p tempPath _ mime parent)).
      erewrite bind_Returned by reflexivity. reflexivity. }
  - reflexivity.
  - reflexivity.
Qed.

Lemma convertFile_preprocessing_failure inputPath outputPath options w e :
  let w1 := logged (LogConverting inputPath) w in
  (jimpRead env inputPath w1 = (Thrown e, w1) ∨
   ∃ img, jimpRead env inputPath w1 = (Returned img, w1) ∧
          preprocess env (mergeOptions options) img w1 = (Thrown e, w1)) →
  ∃ w', convertFile env inputPath outputPath options w = (Thrown e, w') ∧
        nodes w' = nodes w ∧
        console w' = console w ++ [LogConverting inputPath; ErrConversionFailed e].
Proof.
  intros w1 H. unfold convertFile, try_catch.
  rewrite (bind_Returned _ _ w tt w1) by reflexivity.
  destruct H as [Hread | (img & Hread & Hpre)].
  - rewrite (bind_Thrown _ _ _ _ _ Hread).
    eexists. split; [reflexivity|]. simpl. split; [done|]. by rewrite <- app_assoc.
  - rewrite (bind_Returned _ _ _ _ _ Hread), (bind_Thrown _ _ _ _ _ Hpre).
    eexists. split; [reflexivity|]. simpl. split; [done|]. by rewrite <- app_assoc.
Qed.


(** The tracer throws on the options: the callback never runs, and the
    temporary file is there when the error is thrown. *)
Lemma convertFile_trace_throws inputPath outputPath options w img p e mime parent :
  let w1 := logged (LogConverting inputPath) w in
  let opts := mergeOptions options in
  let tempPath := fileTempPath inputPath (timeline env (clock_reads w)) in
  jimpRead env inputPath w1 = (Returned img, w1) →
  preprocess env opts img w1 = (Returned p, w1) →
  jimp_mime env tempPath = inr mime →
  nodes w !! path_dirname env tempPath = Some (Dir parent) →
  (∀ items, nodes w !! tempPath ≠ Some (Dir items)) →
  potrace_validate env opts = Some e →
  ∃ w', convertFile env inputPath outputPath options w = (Thrown e, w') ∧
        nodes w' = <[tempPath := File (jimp_encode env p)]> (nodes w) ∧
        console w' = console w ++ [LogConverting inputPath;
                                   LogDimensions (jimp_size env p).1 (jimp_size env p).2;
                                   ErrConversionFailed e].
Proof.
  intros w1 opts tempPath Hread Hpre Hmime Hparent Hdir Hvalid.
  unfold convertFile, try_catch.
  rewrite (bind_Returned _ _ w tt w1) by reflexivity.
  rewrite (bind_Returned _ _ _ _ _ Hread).
  fold opts. rewrite (bind_Returned _ _ _ _ _ Hpre).
  erewrite bind_Returned by reflexivity. simpl clock_reads. fold tempPath.
  erewrite bind_Returned by (by apply (jimpWrite_ok p tempPath _ mime parent)).
  erewrite bind_Returned by reflexivity.
  erewrite bind_Thrown by (by apply traceAndUnlink_thrown).
  eexists. split; [reflexivity|]. simpl. split; [done|].
  by rewrite <- !app_assoc.
Qed.

Lemma convertFile_success inputPath outputPath options w img p svg mime parent outParent :
  let w1 := logged (LogConverting inputPath) w in
  let opts := mergeOptions options in
  let tempPath := fileTempPath inputPath (timeline env (clock_reads w)) in
  jimpRead env inputPath w1 = (Returned img, w1) →
  preprocess env opts img w1 = (Returned p, w1) →
  jimp_mime env tempPath = inr mime →
  nodes w !! path_dirname env tempPath = Some (Dir parent) →
  (∀ items, nodes w !! tempPath ≠ Some (Dir items)) →
  tempPath ∉ sticky w →
  potrace_validate env opts = None →
  potrace_trace env (jimp_encode env p) opts = inr svg →
  nodes w !! path_dirname env outputPath = Some (Dir outParent) →
  (∀ items, nodes w !! outputPath ≠ Some (Dir items)) →
  ∃ w', convertFile env inputPath outputPath options w = (Returned tt, w') ∧
        nodes w' = <[outputPath := File svg]> (delete tempPath (nodes w)).
Proof.
  intros w1 opts tempPath Hread Hpre Hmime Hparent Hdir Hsticky Hvalid Htrace Hop Hout.
  unfold convertFile, try_catch.
  rewrite (bind_Returned _ _ w tt w1) by reflexivity.
  rewrite (bind_Returned _ _ _ _ _ Hread).
  fold opts. rewrite (bind_Returned _ _ _ _ _ Hpre).
  erewrite bind_Returned by reflexivity. simpl clock_reads. fold tempPath.
  erewrite bind_Returned by (by apply (jimpWrite_ok p tempPath _ mime parent)).
  erewrite bind_Returned by reflexivity.
  erewrite bind_Returned.
  2:{ erewrite (traceAndUnlink_called tempPath opts (jimp_encode env p));
        [by rewrite Htrace | done | simpl; apply lookup_insert_eq | exact Hsticky]. }
  assert (tempPath ≠ path_dirname env outputPath) as Hne.
  { intros Heq. apply (Hdir outParent). by rewrite Heq. }
  erewrite bind_Returned.
  2:{ apply (writeFile_ok env outputPath _ _ outParent).
      - simpl. rewrite delete_insert_eq. by rewrite lookup_delete_ne.
      - intros items. simpl. rewrite delete_insert_eq.
        destruct (decide (tempPath = outputPath)) as [<-|Hne'].
        + by rewrite lookup_delete_eq.
        + rewrite lookup_delete_ne by done. apply Hout. }
  eexists. split; [reflexivity|]. simpl. by rewrite delete_insert_eq.
Qed.

Lemma convertBuffer_preprocessing_failure pngBuffer options w e :
  (jimp_decode env pngBuffer = inl e ∨
   ∃ img, jimp_decode env pngBuffer = inr img ∧
          preprocess env (mergeOptions options) img w = (Thrown e, w)) →
  ∃ w', convertBuffer env pngBuffer options w = (Thrown e, w') ∧
        nodes w' = nodes w ∧
        console w' = console w ++ [ErrBufferConversionFailed e].
Proof.
  intros H. unfold convertBuffer, try_catch, convertImageToSvg.
  destruct H as [Hdec | (img & Hdec & Hpre)]; rewrite Hdec.
  - erewrite (bind_Thrown (lift_sum _)) by reflexivity.
    eexists. split; [reflexivity|]. done.
  - erewrite (bind_Returned (lift_sum _)) by reflexivity.
    rewrite (bind_Thrown _ _ _ _ _ Hpre).
    eexists. split; [reflexivity|]. done.
Qed.


(** In [convertImageToSvg] too a tracer that throws on the options leaves
    the temporary file. *)
Lemma convertBuffer_trace_throws pngBuffer options w img p e mime parent :
  let opts := mergeOptions options in
  let tempPath := bufferTempPath (timeline env (clock_reads w))
                                 (randoms env (random_reads w)) in
  jimp_decode env pngBuffer = inr img →
  preprocess env opts img w = (Returned p, w) →
  jimp_mime env tempPath = inr mime →
  nodes w !! path_dirname env tempPath = Some (Dir parent) →
  (∀ items, nodes w !! tempPath ≠ Some (Dir items)) →
  potrace_validate env opts = Some e →
  ∃ w', convertBuffer env pngBuffer options w = (Thrown e, w') ∧
        nodes w' = <[tempPath := File (jimp_encode env p)]> (nodes w).
Proof.
  intros opts tempPath Hdec Hpre Hmime Hparent Hdir Hvalid.
  unfold convertBuffer, try_catch, convertImageToSvg.
  rewrite Hdec. erewrite (bind_Returned (lift_sum _)) by reflexivity.
  fold opts. rewrite (bind_Returned _ _ _ _ _ Hpre).
  erewrite bind_Returned by reflexivity.
  erewrite bind_Returned by reflexivity.
  erewrite bind_Returned by reflexivity.
  simpl clock_reads. simpl random_reads. fold tempPath.
  erewrite bind_Returned by (by apply (jimpWrite_ok p tempPath _ mime parent)).
  unfold traceAndTryUnlink, traceCall. rewrite Hvalid.
  erewrite bind_Thrown by reflexivity.
  eexists. split; [reflexivity|]. done.
Qed.

Lemma settles_preprocess opts (img : image env) : settles (preprocess env opts img).
Proof.
  unfold preprocess, basePipeline.
  repeat (apply settles_bind; [|intros ?]); try apply settles_lift_sum.
  destruct (is_defined _); [apply settles_lift_sum | apply settles_ret].
Qed.

(** Whatever the cleanup does, [convertBuffer] returns or throws. *)
Lemma settles_convertBuffer pngBuffer options : settles (convertBuffer env pngBuffer options).
Proof.
  unfold convertBuffer, convertImageToSvg, traceAndTryUnlink, jimpWrite, traceCall.
  apply settles_try_catch.
  - apply settles_bind; [apply settles_lift_sum|]. intros img.
    apply settles_bind; [apply settles_preprocess|]. intros p.
    apply settles_bind; [apply settles_log|]. intros _.
    apply settles_bind; [apply settles_dateNow|]. intros now.
    apply settles_bind; [apply settles_randomSuffix|]. intros rnd.
    apply settles_bind.
    { apply settles_bind; [apply settles_lift_sum|]. intros _. apply settles_writeFile. }
    intros _.
    apply settles_bind.
    { destruct (potrace_validate env _); [apply settles_throw | apply settles_ret]. }
    intros _.
    apply settles_bind; [apply settles_gets|]. intros r.
    apply settles_bind; [|intros _; apply settles_lift_sum].
    apply settles_try_catch; [apply settles_unlinkSync|]. intros _. apply settles_log.
  - intros e. apply settles_bind; [apply settles_log|]. intros _. apply settles_throw.
Qed.



(** C6.  The claim fails where the tracer rejects the options.  The call
    [potrace.trace(tempPath, opts, callback)] then throws inside the
    executor of the promise: the promise is rejected and the error reaches
    the caller of [convertFile], but the callback, which alone unlinks
    the temporary file, never runs, so the temporary file is still there
    when the error surfaces.  (Where the tracer calls back with an error,
    the file is unlinked first: lemma [convertFile_trace_failure].) *)
Theorem trace_throw_leaves_temp_file inputPath outputPath options w img p e mime parent :
  let w1 := logged (LogConverting inputPath) w in
  let opts := mergeOptions options in
  let tempPath := fileTempPath inputPath (timeline env (clock_reads w)) in
  jimpRead env inputPath w1 = (Returned img, w1) →
  preprocess env opts img w1 = (Returned p, w1) →
  jimp_mime env tempPath = inr mime →
  nodes w !! path_dirname env tempPath = Some (Dir parent) →
  (∀ items, nodes w !! tempPath ≠ Some (Dir items)) →
  potrace_validate env opts = Some e →
  ∃ w', convertFile env inputPath outputPath options w = (Thrown e, w') ∧
        nodes w' !! tempPath = Some (File (jimp_encode env p)) ∧
        (outputPath ≠ tempPath → nodes w' !! outputPath = nodes w !! outputPath) ∧
        console w' = console w ++ [LogConverting inputPath;
                                   LogDimensions (jimp_size env p).1 (jimp_size env p).2;
                                   ErrConversionFailed e].
Proof.
  intros w1 opts tempPath Hread Hpre Hmime Hparent Hdir Hvalid.
  destruct (convertFile_trace_throws inputPath outputPath options w img p e mime parent
              Hread Hpre Hmime Hparent Hdir Hvalid) as (w' & Hrun & Hnodes & Hcons).
  exists w'. split; [exact Hrun|]. rewrite Hnodes. split; [apply lookup_insert_eq|].
  split; [|exact Hcons].
  intros Hne. by rewrite lookup_insert_ne.
Qed.

End Failures.

Lemma trace_throw_leaves_temp_file_witness :
  nodes Sample.world0 !! "in/a.temp_1700000000000.png" = None ∧
  ∃ w', convertFile Sample.env "in/a.png" "out/new.svg"
          {[ "turnPolicy" := VStr "bogus" ]} Sample.world0
          = (Thrown (TraceError "Bad turnPolicy value"), w') ∧
        nodes w' !! "in/a.temp_1700000000000.png" = Some (File "PNG-a:gcnt") ∧
        nodes w' !! "out/new.svg" = None.
Proof.
  split; [reflexivity|].
  destruct (trace_throw_leaves_temp_file Sample.env "in/a.png" "out/new.svg"
              {[ "turnPolicy" := VStr "bogus" ]} Sample.world0
              ("PNG-a", [])
              ("PNG-a", [Greyscale; Contrast (Fin 0.3); Normalize;
                         Threshold (VNum (Fin 128))])
              (TraceError "Bad turnPolicy value") "image/png"
              ["a.png"; "B.PNG"; "notes.txt"; "bad.png"; "sub"])
    as (w' & Hrun & Htemp & Hout & _).
  - reflexivity.
  - reflexivity.
  - reflexivity.
  - reflexivity.
  - intros items H. vm_compute in H. discriminate H.
  - reflexivity.
  - exists w'. split; [exact Hrun|]. split; [exact Htemp|].
    rewrite Hout; [reflexivity | discriminate].
Defined.

End ConverterFacts.

(* ===================================================================== *)
(** ** Facts about the option assembly (bulk driver and REST handler) *)
(* ===================================================================== *)

Module OptionFacts.
Import JS Eff Converter Bulk Server ConverterFacts.

Lemma num_truthy_zero (q : Q) : (q == 0)%Q → num_truthy (Fin q) = false.
Proof. intros H. simpl. by rewrite (proj2 (Qeq_bool_iff q 0) H). Qed.

Lemma conversionOptionsOf_threshold (options : BulkConversionOptions) :
  conversionOptionsOf options !! "threshold" =
    match threshold options with
    | Some t => if num_truthy t then Some (VNum t)
                else presetOptionsOf options !! "threshold"
    | None => presetOptionsOf options !! "threshold"
    end.
Proof.
  unfold conversionOptionsOf.
  repeat case_match; by simplify_map_eq.
Qed.

Lemma conversionOptionsOf_turdSize (options : BulkConversionOptions) :
  conversionOptionsOf options !! "turdSize" =
    match turdSize options with
    | Some t => if num_truthy t then Some (VNum t)
                else presetOptionsOf options !! "turdSize"
    | None => presetOptionsOf options !! "turdSize"
    end.
Proof.
  unfold conversionOptionsOf.
  repeat case_match; by simplify_map_eq.
Qed.

Lemma conversionOptionsOf_optCurve (options : BulkConversionOptions) :
  conversionOptionsOf options !! "optCurve" =
    match optCurve options with
    | Some b => Some (VBool b)
    | None => presetOptionsOf options !! "optCurve"
    end.
Proof.
  unfold conversionOptionsOf.
  repeat case_match; by simplify_map_eq.
Qed.

Lemma parseOptions_threshold (body : gmap string string) :
  parseOptions body !! "threshold" =
    match body !! "threshold" with
    | Some t => if str_truthy t then Some (VNum (parseInt t))
                else presetOf body !! "threshold"
    | None => presetOf body !! "threshold"
    end.
Proof.
  unfold parseOptions.
  repeat case_match; by simplify_map_eq.
Qed.

Lemma parseOptions_turdSize (body : gmap string string) :
  parseOptions body !! "turdSize" =
    match body !! "turdSize" with
    | Some t => if str_truthy t then Some (VNum (parseInt t))
                else presetOf body !! "turdSize"
    | None => presetOf body !! "turdSize"
    end.
Proof.
  unfold parseOptions.
  repeat case_match; by simplify_map_eq.
Qed.

Lemma parseOptions_optCurve (body : gmap string string) :
  parseOptions body !! "optCurve" =
    match body !! "optCurve" with
    | Some b => Some (VBool (String.eqb b "true"))
    | None => presetOf body !! "optCurve"
    end.
Proof.
  unfold parseOptions.
  repeat case_match; by simplify_map_eq.
Qed.

(** C9 (as amended).  In the option assembly of the bulk driver (the same
    lines in [convertSequentially] and [processChunk]) a [threshold] or
    [turdSize] of zero is ignored: the property keeps the value of the
    preset, or stays missing and takes the converter's default; an
    [optCurve] of [false] is honoured.  In the REST handler the fields are
    strings: the field ["0"] is truthy and is honoured as the number 0,
    only an empty field is ignored, and an [optCurve] field of ["false"]
    is honoured. *)
Theorem zero_override_bulk_and_rest (options : BulkConversionOptions)
    (body : gmap string string) (q : Q) :
  (threshold options = Some (Fin q) → (q == 0)%Q →
     conversionOptionsOf options !! "threshold" = presetOptionsOf options !! "threshold" ∧
     get (mergeOptions (conversionOptionsOf options)) "threshold" =
       default (VNum (Fin 128)) (presetOptionsOf options !! "threshold")) ∧
  (turdSize options = Some (Fin q) → (q == 0)%Q →
     conversionOptionsOf options !! "turdSize" = presetOptionsOf options !! "turdSize" ∧
     get (mergeOptions (conversionOptionsOf options)) "turdSize" =
       default (VNum (Fin 2)) (presetOptionsOf options !! "turdSize")) ∧
  (optCurve options = Some false →
     conversionOptionsOf options !! "optCurve" = Some (VBool false)) ∧
  (body !! "threshold" = Some "0" →
     parseOptions body !! "threshold" = Some (VNum (Fin 0))) ∧
  (body !! "turdSize" = Some "0" →
     parseOptions body !! "turdSize" = Some (VNum (Fin 0))) ∧
  (body !! "threshold" = Some "" →
     parseOptions body !! "threshold" = presetOf body !! "threshold") ∧
  (body !! "turdSize" = Some "" →
     parseOptions body !! "turdSize" = presetOf body !! "turdSize") ∧
  (body !! "optCurve" = Some "false" →
     parseOptions body !! "optCurve" = Some (VBool false)).
Proof.
  assert (∀ k (d : value) (o : obj), 
            get (mergeOptions o) k = default (default VUndefined (defaultOptions !! k)) (o !! k))
    as Hget.
  { intros k d o. unfold get. destruct (o !! k) as [v|] eqn:E.
    - by rewrite (mergeOptions_supplied _ _ _ E).
    - by rewrite (mergeOptions_missing _ _ E). }
  split_and!.
  - intros H Hq.
    assert (conversionOptionsOf options !! "threshold"
            = presetOptionsOf options !! "threshold") as E
      by (by rewrite conversionOptionsOf_threshold, H, (num_truthy_zero q Hq)).
    split; [exact E|]. rewrite (Hget _ VUndefined), E. reflexivity.
  - intros H Hq.
    assert (conversionOptionsOf options !! "turdSize"
            = presetOptionsOf options !! "turdSize") as E
      by (by rewrite conversionOptionsOf_turdSize, H, (num_truthy_zero q Hq)).
    split; [exact E|]. rewrite (Hget _ VUndefined), E. reflexivity.
  - intros H. by rewrite conversionOptionsOf_optCurve, H.
  - intros H. by rewrite parseOptions_threshold, H.
  - intros H. by rewrite parseOptions_turdSize, H.
  - intros H. by rewrite parseOptions_threshold, H.
  - intros H. by rewrite parseOptions_turdSize, H.
  - intros H. by rewrite parseOptions_optCurve, H.
Qed.

Lemma zero_override_bulk_and_rest_witness :
  let options := mkOptions (Some "photo") (Some (Fin 0)) (Some (Fin 0)) (Some false)
                           None None None None None None in
  let body : gmap string string :=
    {[ "preset" := "photo"; "threshold" := "0"; "turdSize" := "0";
       "optCurve" := "false" ]} in
  let blank : gmap string string :=
    {[ "preset" := "photo"; "threshold" := ""; "turdSize" := "" ]} in
  (conversionOptionsOf options !! "threshold" = Some (VNum (Fin 120)) ∧
   get (mergeOptions (conversionOptionsOf options)) "threshold" = VNum (Fin 120)) ∧
  (conversionOptionsOf options !! "turdSize" = Some (VNum (Fin 4)) ∧
   get (mergeOptions (conversionOptionsOf options)) "turdSize" = VNum (Fin 4)) ∧
  conversionOptionsOf options !! "optCurve" = Some (VBool false) ∧
  parseOptions body !! "threshold" = Some (VNum (Fin 0)) ∧
  parseOptions body !! "turdSize" = Some (VNum (Fin 0)) ∧
  parseOptions blank !! "threshold" = Some (VNum (Fin 120)) ∧
  parseOptions blank !! "turdSize" = Some (VNum (Fin 4)) ∧
  parseOptions body !! "optCurve" = Some (VBool false).
Proof.
  intros options body blank.
  destruct (zero_override_bulk_and_rest options body 0)
    as (H1 & H2 & H3 & H4 & H5 & _ & _ & H8).
  destruct (zero_override_bulk_and_rest options blank 0)
    as (_ & _ & _ & _ & _ & H6 & H7 & _).
  split; [apply H1; reflexivity|].
  split; [apply H2; reflexivity|].
  split; [apply H3; reflexivity|].
  split; [apply H4; reflexivity|].
  split; [apply H5; reflexivity|].
  split; [apply H6; reflexivity|].
  split; [apply H7; reflexivity|].
  apply H8; reflexivity.
Defined.

(** C9 as stated fails for the REST handler: a [threshold] field of ["0"]
    is not ignored, it overrides the preset's 120 with 0, and 0 is what
    the converter then thresholds and traces with. *)
Lemma rest_threshold_zero_is_honoured :
  let body : gmap string string := {[ "preset" := "photo"; "threshold" := "0" ]} in
  presetOf body !! "threshold" = Some (VNum (Fin 120)) ∧
  parseOptions body !! "threshold" = Some (VNum (Fin 0)) ∧
  get (mergeOptions (parseOptions body)) "threshold" = VNum (Fin 0).
Proof. repeat split; reflexivity. Qed.

End OptionFacts.

(* ===================================================================== *)
(** ** Facts about the bulk driver *)
(* ===================================================================== *)

Module BulkFacts.
Import JS Eff Converter Bulk EffFacts TurnFacts ConverterFacts.
Local Open Scope eff_scope.

(** *** Chunks *)

(** Inside the array, a slice of [c] elements from [i] is [take c (drop i array)]. *)
Lemma slice_in_range {T} (array : list T) (i c : Z) :
  0 ≤ i → i < Z.of_nat (length array) → 1 ≤ c →
  slice array i (i + c) = take (Z.to_nat c) (drop (Z.to_nat i) array).
Proof.
  intros Hi Hlen Hc. unfold slice.
  destruct (Z.ltb_spec i 0); [lia|].
  destruct (Z.ltb_spec (i + c) 0); [lia|].
  rewrite (Z.min_l i) by lia.
  destruct (Z.le_ge_cases (i + c) (Z.of_nat (length array))).
  - rewrite Z.min_l by lia. f_equal. lia.
  - rewrite Z.min_r by lia.
    rewrite !take_ge; [done| |]; rewrite length_drop; lia.
Qed.

(** With a chunk size of at least one the loop ends within as many
    iterations as elements are left, and appends the remaining elements cut
    into consecutive chunks. *)
Lemma chunkArray_loop_ends {T} (array : list T) (c : Z) :
  1 ≤ c →
  ∀ fuel i acc,
    0 ≤ i → Z.of_nat (length array) - i ≤ Z.of_nat fuel →
    ∃ rest,
      chunkArray_loop fuel array c i acc = Some (acc ++ rest) ∧
      concat rest = drop (Z.to_nat i) array ∧
      Forall (λ ch, 1 ≤ Z.of_nat (length ch) ≤ c) rest ∧
      Z.of_nat (length rest) = (Z.max 0 (Z.of_nat (length array) - i) + c - 1) / c ∧
      (∀ (j : nat) ch, rest !! j = Some ch →
         ch = take (Z.to_nat c) (drop (Z.to_nat (i + Z.of_nat j * c)) array)).
Proof.
  intros Hc. induction fuel as [|fuel IH]; intros i acc Hi Hfuel.
  - exists []. simpl. destruct (Z.ltb_spec i (Z.of_nat (length array))); [lia|].
    rewrite app_nil_r. split; [done|]. split.
    { by rewrite drop_ge by lia. }
    split; [constructor|]. split; [|done].
    rewrite Z.max_l by lia. symmetry. apply Z.div_small. lia.
  - simpl. destruct (Z.ltb_spec i (Z.of_nat (length array))) as [Hlt|Hge].
    + destruct (IH (i + c) (acc ++ [slice array i (i + c)])) as (rest & Hrun & Hcat & Hall & Hlen & Hnth);
        [lia|lia|].
      exists (slice array i (i + c) :: rest).
      rewrite Hrun, <- app_assoc. split; [done|].
      rewrite slice_in_range by lia.
      split; [|split; [|split]].
      * simpl. rewrite Hcat.
        replace (Z.to_nat (i + c)) with (Z.to_nat i + Z.to_nat c)%nat by lia.
        rewrite <- drop_drop. apply take_drop.
      * constructor; [|done]. rewrite length_take, length_drop. lia.
      * simpl length. rewrite Nat2Z.inj_succ, Hlen.
        rewrite (Z.max_r 0 (_ - i)) by lia.
        destruct (Z.le_gt_cases 0 (Z.of_nat (length array) - (i + c))).
        -- rewrite Z.max_r by lia.
           replace (Z.of_nat (length array) - i + c - 1)
             with ((Z.of_nat (length array) - (i + c) + c - 1) + 1 * c) by lia.
           rewrite Z.div_add by lia. lia.
        -- rewrite Z.max_l by lia.
           replace (0 + c - 1) with (c - 1) by lia.
           rewrite (Z.div_small (c - 1)) by lia.
           replace (Z.of_nat (length array) - i + c - 1)
             with ((Z.of_nat (length array) - i - 1) + 1 * c) by lia.
           rewrite Z.div_add by lia. rewrite Z.div_small by lia. lia.
      * intros [|j] ch Hj; simpl in Hj.
        -- injection Hj as <-. do 2 f_equal. lia.
        -- rewrite (Hnth j ch Hj). do 3 f_equal. lia.
    + exists []. rewrite app_nil_r. split; [done|]. split.
      { by rewrite drop_ge by lia. }
      split; [constructor|]. split; [|done].
      rewrite Z.max_l by lia. symmetry. apply Z.div_small. lia.
Qed.

(** With a chunk size of zero or less the index never passes the length:
    the loop does not end on a non-empty array, whatever the fuel. *)
Lemma chunkArray_loop_never_ends {T} (array : list T) (c : Z) :
  c ≤ 0 → array ≠ [] →
  ∀ fuel i acc, i ≤ 0 → chunkArray_loop fuel array c i acc = None.
Proof.
  intros Hc Hne. assert (0 < Z.of_nat (length array)) by (destruct array; [done|simpl; lia]).
  induction fuel as [|fuel IH]; intros i acc Hi; simpl;
    destruct (Z.ltb_spec i (Z.of_nat (length array))); try lia; [done|].
  apply IH. lia.
Qed.




Lemma chunkArray_ends {T} (array : list T) (c : Z) :
  1 ≤ c →
  ∃ chunks,
    chunkArray array c = Some chunks ∧
    concat chunks = array ∧
    Forall (λ ch, 1 ≤ Z.of_nat (length ch) ≤ c) chunks ∧
    Z.of_nat (length chunks) = (Z.of_nat (length array) + c - 1) / c ∧
    (∀ (j : nat) ch, chunks !! j = Some ch →
       ch = take (Z.to_nat c) (drop (j * Z.to_nat c) array)).
Proof.
  intros Hc.
  destruct (chunkArray_loop_ends array c Hc (length array) 0 []) as
    (rest & Hrun & Hcat & Hall & Hlen & Hnth); [lia|lia|].
  exists rest. unfold chunkArray. rewrite Hrun. split; [done|].
  split; [exact Hcat|]. split; [exact Hall|]. split.
  - rewrite Hlen. f_equal. lia.
  - intros j ch Hj. rewrite (Hnth j ch Hj). do 2 f_equal. lia.
Qed.

Lemma chunkArray_concat {T} (array : list T) (c : Z) (chunks : list (list T)) :
  chunkArray array c = Some chunks → concat chunks = array.
Proof.
  intros H. destruct (Z.le_gt_cases 1 c) as [Hc|Hc].
  - destruct (chunkArray_ends array c Hc) as (chunks' & Hrun & Hcat & _).
    rewrite Hrun in H. by injection H as <-.
  - destruct array as [|x array].
    + unfold chunkArray in H. simpl in H. by injection H as <-.
    + unfold chunkArray in H.
      rewrite chunkArray_loop_never_ends in H; [done|lia|done|lia].
Qed.

(** *** The counters, turn by turn *)

Lemma turn_adds_refl (s : BulkState) : turn_adds s s 0.
Proof. unfold turn_adds. split; [lia|done]. Qed.

Lemma turn_adds_trans (s1 s2 s3 : BulkState) (i j : nat) :
  turn_adds s1 s2 i → turn_adds s2 s3 j → turn_adds s1 s3 (i + j).
Proof. unfold turn_adds. intros [H1 H2] [H3 H4]. split; [lia|congruence]. Qed.

Lemma tallies_weaken {A} (c : Co BulkState A) (QR QR' : A → nat → Prop)
    (QT QT' : error → nat → Prop) :
  (∀ a d, QR a d → QR' a d) → (∀ e d, QT e d → QT' e d) →
  ∀ d, tallies c d QR QT → tallies c d QR' QT'.
Proof.
  intros HR HT.
  induction c as [[a|e|e|]|resume IH] using Co_induction; intros d; cbn; auto.
  intros H s. destruct (H s) as (j & Hj & Hc). exists j. split; [done|]. by apply IH.
Qed.

Lemma tallies_shift {A} (c : Co BulkState A) (QR : A → nat → Prop)
    (QT : error → nat → Prop) (d d' : nat) :
  d = d' → tallies c d QR QT → tallies c d' QR QT.
Proof. by intros ->. Qed.

(** Code that only touches the world accounts for no file. *)
Lemma tallies_co_liftW {A} (c : Co World A) (d : nat) (QR : A → nat → Prop)
    (QT : error → nat → Prop) :
  (∀ a, QR a d) → (∀ e, QT e d) → tallies (co_liftW c) d QR QT.
Proof.
  intros HR HT.
  induction c as [[a|e|e|]|resume IH] using Co_induction; cbn; auto.
  intros s. exists 0%nat. specialize (IH (world s)).
  destruct (resume (world s)) as [c' w']. cbn. split.
  - split; cbn; [lia|done].
  - by rewrite Nat.add_0_r.
Qed.

Lemma atallies_aliftW {A} (m : Async World A) (d : nat) (QR : A → nat → Prop)
    (QT : error → nat → Prop) :
  (∀ a, QR a d) → (∀ e, QT e d) → atallies (aliftW m) d QR QT.
Proof.
  intros HR HT s. exists 0%nat. unfold aliftW.
  destruct (m (world s)) as [c w']. cbn. split.
  - split; cbn; [lia|done].
  - rewrite Nat.add_0_r. by apply tallies_co_liftW.
Qed.

Lemma atallies_sync {A} (m : M BulkState A) (d : nat) (QR : A → nat → Prop)
    (QT : error → nat → Prop) :
  (∀ s, ∃ j, turn_adds s (m s).2 j ∧
             match (m s).1 with
             | Returned a => QR a (d + j)%nat
             | Thrown e => QT e (d + j)%nat
             | _ => True
             end) →
  atallies (sync m) d QR QT.
Proof.
  intros H s. destruct (H s) as (j & Hj & Hq). exists j. unfold sync.
  destruct (m s) as [[a|e|e|] s']; cbn in *; done.
Qed.

Lemma atallies_sync_liftW {A} (m : M World A) (d : nat) (QR : A → nat → Prop)
    (QT : error → nat → Prop) :
  (∀ a, QR a d) → (∀ e, QT e d) → atallies (sync (liftW m)) d QR QT.
Proof.
  intros HR HT. apply atallies_sync. intros s. exists 0%nat. unfold liftW.
  destruct (m (world s)) as [[a|e|e|] w']; cbn; rewrite ?Nat.add_0_r;
    (split; [split; cbn; [lia|done] | done]).
Qed.

Lemma tallies_co_bind {A B} (c : Co BulkState A) (k : A → Async BulkState B)
    (QR1 : A → nat → Prop) (QT1 : error → nat → Prop)
    (QR : B → nat → Prop) (QT : error → nat → Prop) :
  (∀ a d', QR1 a d' → atallies (k a) d' QR QT) →
  (∀ e d', QT1 e d' → QT e d') →
  ∀ d, tallies c d QR1 QT1 →
  ∀ s, ∃ j, turn_adds s (co_bind c k s).2 j ∧ tallies (co_bind c k s).1 (d + j) QR QT.
Proof.
  intros Hk HT.
  induction c as [[a|e|e|]|resume IH] using Co_induction; intros d Hc s; cbn in Hc.
  - apply (Hk a d Hc s).
  - exists 0%nat. cbn. rewrite Nat.add_0_r. split; [apply turn_adds_refl | by apply HT].
  - exists 0%nat. cbn. split; [apply turn_adds_refl | done].
  - exists 0%nat. cbn. split; [apply turn_adds_refl | done].
  - exists 0%nat. cbn. split; [apply turn_adds_refl|].
    intros s1. destruct (Hc s1) as (j1 & Hj1 & Hc1).
    specialize (IH s1). destruct (resume s1) as [c' s2]. cbn in *.
    destruct (IH (d + j1)%nat Hc1 s2) as (j2 & Hj2 & Hc2).
    exists (j1 + j2)%nat. split; [by eapply turn_adds_trans|].
    eapply tallies_shift; [|exact Hc2]. lia.
Qed.

Lemma atallies_abind {A B} (m : Async BulkState A) (k : A → Async BulkState B)
    (QR1 : A → nat → Prop) (QT1 : error → nat → Prop)
    (QR : B → nat → Prop) (QT : error → nat → Prop) (d : nat) :
  atallies m d QR1 QT1 →
  (∀ a d', QR1 a d' → atallies (k a) d' QR QT) →
  (∀ e d', QT1 e d' → QT e d') →
  atallies (abind m k) d QR QT.
Proof.
  intros Hm Hk HT s. unfold abind.
  destruct (Hm s) as (j1 & Hj1 & Hc1). destruct (m s) as [c s1]. cbn in *.
  destruct (tallies_co_bind c k QR1 QT1 QR QT Hk HT (d + j1)%nat Hc1 s1) as (j2 & Hj2 & Hc2).
  exists (j1 + j2)%nat. split; [by eapply turn_adds_trans|].
  eapply tallies_shift; [|exact Hc2]. lia.
Qed.

Lemma tallies_co_catch {A} (c : Co BulkState A) (h : error → Async BulkState A)
    (QR1 : A → nat → Prop) (QT1 : error → nat → Prop)
    (QR : A → nat → Prop) (QT : error → nat → Prop) :
  (∀ a d', QR1 a d' → QR a d') →
  (∀ e d', QT1 e d' → atallies (h e) d' QR QT) →
  ∀ d, tallies c d QR1 QT1 →
  ∀ s, ∃ j, turn_adds s (co_catch c h s).2 j ∧ tallies (co_catch c h s).1 (d + j) QR QT.
Proof.
  intros HR Hh.
  induction c as [[a|e|e|]|resume IH] using Co_induction; intros d Hc s; cbn in Hc.
  - exists 0%nat. cbn. rewrite Nat.add_0_r. split; [apply turn_adds_refl | by apply HR].
  - apply (Hh e d Hc s).
  - exists 0%nat. cbn. split; [apply turn_adds_refl | done].
  - exists 0%nat. cbn. split; [apply turn_adds_refl | done].
  - exists 0%nat. cbn. split; [apply turn_adds_refl|].
    intros s1. destruct (Hc s1) as (j1 & Hj1 & Hc1).
    specialize (IH s1). destruct (resume s1) as [c' s2]. cbn in *.
    destruct (IH (d + j1)%nat Hc1 s2) as (j2 & Hj2 & Hc2).
    exists (j1 + j2)%nat. split; [by eapply turn_adds_trans|].
    eapply tallies_shift; [|exact Hc2]. lia.
Qed.

Lemma atallies_atry {A} (m : Async BulkState A) (h : error → Async BulkState A)
    (QR1 : A → nat → Prop) (QT1 : error → nat → Prop)
    (QR : A → nat → Prop) (QT : error → nat → Prop) (d : nat) :
  atallies m d QR1 QT1 →
  (∀ a d', QR1 a d' → QR a d') →
  (∀ e d', QT1 e d' → atallies (h e) d' QR QT) →
  atallies (atry m h) d QR QT.
Proof.
  intros Hm HR Hh s. unfold atry.
  destruct (Hm s) as (j1 & Hj1 & Hc1). destruct (m s) as [c s1]. cbn in *.
  destruct (tallies_co_catch c h QR1 QT1 QR QT HR Hh (d + j1)%nat Hc1 s1) as (j2 & Hj2 & Hc2).
  exists (j1 + j2)%nat. split; [by eapply turn_adds_trans|].
  eapply tallies_shift; [|exact Hc2]. lia.
Qed.

Lemma tallies_co_settle {A} (c : Co BulkState A) (QR : A → nat → Prop)
    (QT : error → nat → Prop) :
  ∀ d, tallies c d QR QT → tallies (co_settle c) d QR QT.
Proof.
  induction c as [[a|e|e|]|resume IH] using Co_induction; intros d Hc; cbn in *; try done.
  - intros s. exists 0%nat. cbn. rewrite Nat.add_0_r. split; [apply turn_adds_refl | done].
  - intros s. exists 0%nat. cbn. rewrite Nat.add_0_r. split; [apply turn_adds_refl | done].
  - intros s. destruct (Hc s) as (j & Hj & Hc1). exists j.
    specialize (IH s). destruct (resume s) as [c' s']. cbn in *. split; [done|].
    by apply IH.
Qed.

Lemma atallies_await {A} (m : Async BulkState A) (QR : A → nat → Prop)
    (QT : error → nat → Prop) (d : nat) :
  atallies m d QR QT → atallies (await m) d QR QT.
Proof.
  intros Hm s. unfold await. destruct (Hm s) as (j & Hj & Hc).
  destruct (m s) as [c s']. cbn in *. exists j. split; [done|].
  by apply tallies_co_settle.
Qed.

(** A started call run to its end has accounted for what its turns
    accounted for. *)
Lemma tallies_run {A} (c : Co BulkState A) (QR : A → nat → Prop)
    (QT : error → nat → Prop) :
  ∀ d, tallies c d QR QT →
  ∀ s, ∃ j, turn_adds s (run c s).2 j ∧
            match (run c s).1 with
            | Returned a => QR a (d + j)%nat
            | Thrown e => QT e (d + j)%nat
            | _ => True
            end.
Proof.
  induction c as [[a|e|e|]|resume IH] using Co_induction; intros d Hc s; cbn in Hc.
  - exists 0%nat. cbn. rewrite Nat.add_0_r. split; [apply turn_adds_refl | done].
  - exists 0%nat. cbn. rewrite Nat.add_0_r. split; [apply turn_adds_refl | done].
  - exists 0%nat. cbn. split; [apply turn_adds_refl | done].
  - exists 0%nat. cbn. split; [apply turn_adds_refl | done].
  - destruct (Hc s) as (j1 & Hj1 & Hc1). cbn.
    specialize (IH s). destruct (resume s) as [c' s2]. cbn in *.
    destruct (IH (d + j1)%nat Hc1 s2) as (j2 & Hj2 & Hq).
    exists (j1 + j2)%nat. split; [by eapply turn_adds_trans|].
    replace (d + (j1 + j2))%nat with (d + j1 + j2)%nat by lia. exact Hq.
Qed.



(** *** One file, and the loops over files *)

Section Driver.
Context (env : Env).

Lemma ensureDir_returns dir w : fst (ensureDir dir w) = Returned tt.
Proof.
  unfold ensureDir, bind, existsSync, gets. simpl.
  by destruct (bool_decide _).
Qed.

(** The body of either loop, run: the file is skipped, or converted and
    counted. *)
Lemma fileBody_run header skippedMsg convertedMsg failedMsg options conversionOptions
    inputDir outputDir file s :
  fileBody env header skippedMsg convertedMsg failedMsg options conversionOptions
           inputDir outputDir file s
  = fileOutcome env header skippedMsg convertedMsg failedMsg options conversionOptions
                inputDir outputDir file s.
Proof.
  unfold fileBody, fileOutcome, convertAndCount, bind, liftW, try_catch, modifyStats,
    modify, log, existsSync, gets. simpl.
  destruct (negb _ && _); [reflexivity|].
  pose proof (ensureDir_returns (path_dirname env (outputPathOf env inputDir outputDir file))
                (logged header (world s))) as He.
  destruct (ensureDir _ _) as [r w1]. simpl in He. subst r. simpl.
  destruct (convertFile env file _ conversionOptions w1) as [[[]|e|e|] w2]; reflexivity.
Qed.

Lemma sequentialBody_fileBody options conversionOptions inputDir outputDir n i file :
  sequentialBody env options conversionOptions inputDir outputDir n i file
  = fileBody env (LogFile (i + 1) n (path_relative env inputDir file))
             LogSkipped LogFileConverted LogFileFailed
             options conversionOptions inputDir outputDir file.
Proof. reflexivity. Qed.

Lemma chunkBody_fileBody options conversionOptions inputDir outputDir workerIndex file :
  chunkBody env options conversionOptions inputDir outputDir workerIndex file
  = fileBody env (LogWorkerFile (workerIndex + 1) (path_relative env inputDir file))
             (LogWorkerSkipped (workerIndex + 1)) (LogWorkerConverted (workerIndex + 1))
             (LogWorkerFailed (workerIndex + 1))
             options conversionOptions inputDir outputDir file.
Proof. reflexivity. Qed.

(** A file that is done adds one to exactly one of the three counters. *)
Lemma fileOutcome_counts header skippedMsg convertedMsg failedMsg options conversionOptions
    inputDir outputDir file s s' :
  fileOutcome env header skippedMsg convertedMsg failedMsg options conversionOptions
              inputDir outputDir file s = (Returned tt, s') →
  total (stats s') = total (stats s) ∧
  accounted (stats s') = S (accounted (stats s)).
Proof.
  unfold fileOutcome, convertAndCount.
  destruct (negb _ && _).
  - intros [= <-]. simpl. unfold accounted. simpl. lia.
  - destruct (convertFile _ _ _ _ _) as [[[]|e|e|] w2]; intros [= <-];
      simpl; unfold accounted; simpl; lia.
Qed.

Lemma fileBody_counts header skippedMsg convertedMsg failedMsg options conversionOptions
    inputDir outputDir file s s' :
  fileBody env header skippedMsg convertedMsg failedMsg options conversionOptions
           inputDir outputDir file s = (Returned tt, s') →
  total (stats s') = total (stats s) ∧
  accounted (stats s') = S (accounted (stats s)).
Proof. rewrite fileBody_run. apply fileOutcome_counts. Qed.

Lemma sequentialLoop_counts options conversionOptions inputDir outputDir n files :
  ∀ i s s',
    sequentialLoop env options conversionOptions inputDir outputDir n files i s
      = (Returned tt, s') →
    total (stats s') = total (stats s) ∧
    accounted (stats s') = (accounted (stats s) + length files)%nat.
Proof.
  induction files as [|file files IH]; intros i s s' H; simpl in H.
  - injection H as <-. simpl. split; [done|lia].
  - apply bind_inv_Returned in H as ([] & s1 & Hbody & Hrest).
    rewrite sequentialBody_fileBody in Hbody.
    apply fileBody_counts in Hbody as [Ht Ha].
    apply IH in Hrest as [Ht' Ha']. simpl. split; [congruence|lia].
Qed.

Lemma chunkLoop_counts options conversionOptions inputDir outputDir k files :
  ∀ s s',
    chunkLoop env options conversionOptions inputDir outputDir k files s
      = (Returned tt, s') →
    total (stats s') = total (stats s) ∧
    accounted (stats s') = (accounted (stats s) + length files)%nat.
Proof.
  induction files as [|file files IH]; intros s s' H; simpl in H.
  - injection H as <-. simpl. split; [done|lia].
  - apply bind_inv_Returned in H as ([] & s1 & Hbody & Hrest).
    rewrite chunkBody_fileBody in Hbody.
    apply fileBody_counts in Hbody as [Ht Ha].
    apply IH in Hrest as [Ht' Ha']. simpl. split; [congruence|lia].
Qed.




(** Whatever runs between its turns, the body of the loop of a chunk
    task accounts for one file when it returns. *)
Lemma chunkBody_tallies options conversionOptions inputDir outputDir k file d :
  atallies (chunkBody_async env options conversionOptions inputDir outputDir k file) d
           (fun _ d' => d' = S d) (fun _ _ => True).
Proof.
  unfold chunkBody_async. cbv zeta.
  eapply (atallies_abind _ _ (fun _ d' => d' = d) (fun _ _ => True));
    [by apply atallies_sync_liftW | | done].
  intros _ ? ->.
  eapply (atallies_abind _ _ (fun _ d' => d' = d) (fun _ _ => True));
    [by apply atallies_sync_liftW | | done].
  intros there ? ->.
  destruct (negb _ && there).
  - apply atallies_sync. intros s. exists 1%nat. cbn. split; [|lia].
    split; cbn; [unfold accounted; cbn; lia | done].
  - eapply (atallies_abind _ _ (fun _ d' => d' = d) (fun _ _ => True));
      [by apply atallies_sync_liftW | | done].
    intros _ ? ->.
    eapply (atallies_atry _ _ (fun _ d' => d' = S d) (fun _ d' => d' = d)); [| done |].
    + eapply (atallies_abind _ _ (fun _ d' => d' = d) (fun _ d' => d' = d)); [| | done].
      * apply atallies_await. by apply atallies_aliftW.
      * intros _ ? ->. apply atallies_sync. intros s. exists 1%nat. cbn. split; [|lia].
        split; cbn; [unfold accounted; cbn; lia | done].
    + intros e ? ->. apply atallies_sync. intros s. exists 1%nat. cbn. split; [|lia].
      split; cbn; [unfold accounted; cbn; lia | done].
Qed.

Lemma chunkLoop_tallies options conversionOptions inputDir outputDir k files :
  ∀ d, atallies (chunkLoop_async env options conversionOptions inputDir outputDir k files) d
                (fun _ d' => d' = (d + length files)%nat) (fun _ _ => True).
Proof.
  induction files as [|file files IH]; intros d.
  - apply atallies_sync. intros s. exists 0%nat. cbn. split; [apply turn_adds_refl | lia].
  - cbn [chunkLoop_async].
    eapply (atallies_abind _ _ (fun _ d' => d' = S d) (fun _ _ => True));
      [apply chunkBody_tallies | | done].
    intros _ ? ->. specialize (IH (S d)).
    intros s. destruct (IH s) as (j & Hj & Hc). exists j. split; [done|].
    eapply tallies_weaken; [| |exact Hc]; cbn; [intros; lia | done].
Qed.

Lemma sum_fst_insert (dns : list (nat * nat)) (k d n j : nat) :
  dns !! k = Some (d, n) →
  sum_list (<[k := ((d + j)%nat, n)]> dns).*1 = (sum_list dns.*1 + j)%nat ∧
  (<[k := ((d + j)%nat, n)]> dns).*2 = dns.*2.
Proof.
  revert k. induction dns as [|[d0 n0] dns IH]; intros [|k] H; try done.
  - cbn in H. injection H as -> ->. cbn. split; [lia|done].
  - cbn in H. destruct (IH k H) as [H1 H2]. cbn in H1, H2 |- *.
    split; [|by f_equal].
    transitivity (d0 + (sum_list dns.*1 + j))%nat; [|lia]. f_equal. exact H1.
Qed.

(** Starting the tasks: each task has accounted for some files of its
    chunk, and owes the whole chunk. *)
Lemma startTasks_owes inputDir outputDir options chunks :
  ∀ index s,
    ∃ dns,
      Forall2 owes (startTasks env chunks index inputDir outputDir options s).1 dns ∧
      turn_adds s (startTasks env chunks index inputDir outputDir options s).2
                (sum_list dns.*1) ∧
      dns.*2 = map length chunks.
Proof.
  induction chunks as [|chunk chunks IH]; intros index s.
  - exists []. cbn. split; [constructor|]. split; [apply turn_adds_refl | done].
  - cbn [startTasks]. unfold processChunk_async.
    destruct (chunkLoop_tallies options (conversionOptionsOf options) inputDir outputDir
                index chunk 0 s) as (j & Hj & Hc).
    destruct (chunkLoop_async _ _ _ _ _ _ _ s) as [task s1]. cbn in Hj, Hc.
    destruct (IH (S index) s1) as (dns & Hall & Hadds & Hn).
    destruct (startTasks _ _ _ _ _ _ s1) as [tasks s2]. cbn in *.
    exists ((j, length chunk) :: dns). cbn. split; [|split].
    + constructor; [exact Hc | exact Hall].
    + by eapply turn_adds_trans.
    + by rewrite Hn.
Qed.

(** Along a schedule every task goes on owing its chunk, and the counters
    hold what the tasks have accounted for. *)
Lemma runSchedule_owes schedule :
  ∀ tasks first dns s r s',
    Forall2 owes tasks dns →
    runSchedule schedule tasks first s = (Returned r, s') →
    ∃ dns',
      Forall2 owes r.1 dns' ∧ dns'.*2 = dns.*2 ∧
      total (stats s') = total (stats s) ∧
      (accounted (stats s') + sum_list dns.*1 = accounted (stats s) + sum_list dns'.*1)%nat.
Proof.
  induction schedule as [|k schedule IH]; intros tasks first dns s r s' Hall H; cbn in H.
  - injection H as <- <-. exists dns. cbn. done.
  - destruct (tasks !! k) as [[o|resume]|] eqn:Hk; try (by apply (IH _ _ _ _ _ _ Hall H)).
    destruct (Forall2_lookup_l _ _ _ _ _ Hall Hk) as ([d n] & Hdn & Howes).
    unfold owes in Howes. cbn in Howes.
    destruct (Howes s) as (j & Hj & Hc).
    destruct (resume s) as [task s1]. cbn in Hj, Hc.
    destruct (sum_fst_insert dns k d n j Hdn) as [Hsum Hsnd].
    assert (Forall2 owes (<[k := task]> tasks) (<[k := ((d + j)%nat, n)]> dns)) as Hall'
      by (by apply Forall2_insert).
    assert (∀ first', runSchedule schedule (<[k := task]> tasks) first' s1 = (Returned r, s') →
              ∃ dns', Forall2 owes r.1 dns' ∧ dns'.*2 = dns.*2 ∧
                      total (stats s') = total (stats s) ∧
                      (accounted (stats s') + sum_list dns.*1
                       = accounted (stats s) + sum_list dns'.*1)%nat) as Hgo.
    { intros first' Hrun.
      destruct (IH _ _ _ _ _ _ Hall' Hrun) as (dns' & Hall2 & Hn & Ht & Ha).
      exists dns'. destruct Hj as [Hja Hjt].
      split; [done|]. split; [congruence|]. split; [congruence|]. lia. }
    destruct task as [[[]|e|e|]|resume']; try discriminate H; by eapply Hgo.
Qed.

(** Once a task has thrown, [Promise.all] does not return. *)
Lemma finishTasks_rejected tasks :
  ∀ e s s', finishTasks tasks (Some e) s ≠ (Returned tt, s').
Proof.
  induction tasks as [|task tasks IH]; intros e s s'; cbn; [done|].
  destruct (run task s) as [[[]|e'|e'|] s2]; try done; apply IH.
Qed.

Lemma finishTasks_owes tasks :
  ∀ first dns s s',
    Forall2 owes tasks dns →
    finishTasks tasks first s = (Returned tt, s') →
    total (stats s') = total (stats s) ∧
    (accounted (stats s') + sum_list dns.*1 = accounted (stats s) + sum_list dns.*2)%nat.
Proof.
  induction tasks as [|task tasks IH]; intros first dns s s' Hall H; cbn in H.
  - apply Forall2_nil_inv_l in Hall as ->. destruct first; [discriminate H|].
    injection H as <-. done.
  - apply Forall2_cons_inv_l in Hall as ([d n] & dns' & Howes & Hall & ->).
    destruct (tallies_run task _ _ d Howes s) as (j & [Hja Hjt] & Hq).
    destruct (run task s) as [[[]|e|e|] s1]; cbn in *; try discriminate H.
    + destruct (IH _ _ _ _ Hall H) as [Ht Ha]. split; [congruence|]. lia.
    + by apply finishTasks_rejected in H.
Qed.

Lemma liftW_stats {A} (m : M World A) s r s' :
  liftW m s = (r, s') → stats s' = stats s.
Proof. unfold liftW. destruct (m (world s)). by intros [= _ <-]. Qed.

Lemma sum_list_map_length (chunks : list (list string)) :
  sum_list (map length chunks) = length (concat chunks).
Proof.
  induction chunks as [|chunk chunks IH]; [done|].
  cbn. rewrite length_app. lia.
Qed.

(** Whatever the schedule, a parallel run that returns has accounted for
    as many files as it was given. *)
Lemma convertInParallel_counts schedule files inputDir outputDir options s s' :
  convertInParallel env schedule files inputDir outputDir options s = (Returned tt, s') →
  total (stats s') = total (stats s) ∧
  accounted (stats s') = (accounted (stats s) + length files)%nat.
Proof.
  unfold convertInParallel. intros H.
  apply bind_inv_Returned in H as ([] & s1 & Hlog & H).
  apply liftW_stats in Hlog.
  destruct (chunkArray files _) as [chunks|] eqn:Hchunks; [|discriminate H].
  apply chunkArray_concat in Hchunks.
  destruct (startTasks_owes inputDir outputDir options chunks 0 s1)
    as (dns & Hall & [Hsa Hst] & Hn).
  destruct (startTasks env chunks 0 inputDir outputDir options s1) as [tasks s2].
  cbn in Hall, Hsa, Hst.
  apply bind_inv_Returned in H as (r & s3 & Hrun & Hfin).
  destruct (runSchedule_owes _ _ _ _ _ _ _ Hall Hrun) as (dns' & Hall' & Hn' & Ht & Ha).
  destruct (finishTasks_owes _ _ _ _ _ Hall' Hfin) as [Ht' Ha'].
  assert (sum_list dns'.*2 = length files) as Hlen
    by (by rewrite Hn', Hn, sum_list_map_length, Hchunks).
  rewrite Hlog in *. split; [congruence|lia].
Qed.

Lemma convertSequentially_counts files inputDir outputDir options s s' :
  convertSequentially env files inputDir outputDir options s = (Returned tt, s') →
  total (stats s') = total (stats s) ∧
  accounted (stats s') = (accounted (stats s) + length files)%nat.
Proof.
  unfold convertSequentially. intros H.
  apply bind_inv_Returned in H as ([] & s1 & Hlog & H).
  apply liftW_stats in Hlog.
  apply sequentialLoop_counts in H. by rewrite Hlog in H.
Qed.

(** *** Discovery and the size filter only read the file system *)

Lemma statSync_world path w : snd (statSync path w) = w.
Proof. unfold statSync. by destruct (nodes w !! path) as [[]|]. Qed.

Lemma readdirSync_world path w : snd (readdirSync path w) = w.
Proof. unfold readdirSync. by destruct (nodes w !! path) as [[]|]. Qed.

Lemma searchDir_world depth recursive :
  ∀ currentDir files w, snd (searchDir env depth recursive currentDir files w) = w.
Proof.
  induction depth as [|depth IH]; intros currentDir files w; [done|].
  simpl. unfold bind at 1.
  pose proof (readdirSync_world currentDir w) as Hr.
  destruct (readdirSync currentDir w) as [[items|e|e|] w1]; simpl in Hr; subst w1; try done.
  revert files. induction items as [|item items IHi]; intros files; [done|].
  unfold bind at 1.
  pose proof (statSync_world (path_join env currentDir item) w) as Hs.
  destruct (statSync _ w) as [[stat|e|e|] w1]; simpl in Hs; subst w1; try done.
  unfold bind at 1.
  destruct (isDirectory stat && recursive).
  - pose proof (IH (path_join env currentDir item) files w) as Hd.
    destruct (searchDir _ _ _ _ _ w) as [[files'|e|e|] w1]; simpl in Hd; subst w1;
      [apply IHi | done..].
  - destruct (isFile stat && _); simpl; apply IHi.
Qed.

Lemma findPngFiles_world dir recursive w : snd (findPngFiles env dir recursive w) = w.
Proof. apply searchDir_world. Qed.

Lemma filterLoop_run sizeFilter files :
  ∀ filtered w r w',
    filterLoop sizeFilter files filtered w = (r, w') →
    w' = w ∧
    ∀ result, r = Returned result →
      ∃ kept, result = filtered ++ kept ∧ sublist kept files.
Proof.
  induction files as [|file files IH]; intros filtered w r w' H; simpl in H.
  - injection H as <- <-. split; [done|]. intros result [= <-].
    exists []. by rewrite app_nil_r.
  - unfold bind in H.
    pose proof (statSync_world file w) as Hs.
    destruct (statSync file w) as [[stat|e|e|] w1]; simpl in Hs; subst w1;
      try (injection H as <- <-; split; [done|]; intros ? [=]).
    destruct (keptBySize sizeFilter (size stat)).
    + apply IH in H as [-> H]. split; [done|]. intros result Hr.
      destruct (H result Hr) as (kept & -> & Hsub).
      exists (file :: kept). rewrite <- app_assoc. split; [done|]. by constructor.
    + apply IH in H as [-> H]. split; [done|]. intros result Hr.
      destruct (H result Hr) as (kept & -> & Hsub).
      exists kept. split; [done|]. by constructor.
Qed.

Lemma filterBySize_run files sizeFilter w result w' :
  filterBySize files sizeFilter w = (Returned result, w') →
  w' = w ∧ sublist result files ∧ (sizeFilter = None → result = files).
Proof.
  destruct sizeFilter as [sf|]; simpl.
  - intros H. apply filterLoop_run in H as [-> H].
    destruct (H result eq_refl) as (kept & -> & Hsub). done.
  - by intros [= <- <-].
Qed.

Lemma liftW_inv {A} (m : M World A) s r s' :
  liftW m s = (r, s') → m (world s) = (r, world s') ∧ stats s' = stats s.
Proof. unfold liftW. destruct (m (world s)). by intros [= <- <-]. Qed.

Lemma printSummary_run s :
  printSummary s =
    (Returned tt,
     mkState (stats s)
             (logged (LogSummary (total (stats s)) (successful (stats s))
                                 (failed (stats s)) (skipped (stats s))) (world s))).
Proof. reflexivity. Qed.

End Driver.

(** *** The counters, the skip rule and the chunks *)

Section Runs.
Context (env : Env).

(** The counters after a run that starts from any counters [st0]: they are
    never reset, so a second run on the same driver adds to the first. *)
Lemma convertDirectory_counters_from schedule inputDir outputDir options st0 w s' :
  convertDirectory env schedule inputDir outputDir options (mkState st0 w)
    = (Returned tt, s') →
  ∃ pngFiles,
    findPngFiles env inputDir (recursive options) (logged (LogBulkStart inputDir outputDir) w)
      = (Returned pngFiles, logged (LogBulkStart inputDir outputDir) w) ∧
    total (stats s') = length pngFiles ∧
    (pngFiles = [] → accounted (stats s') = accounted st0) ∧
    (pngFiles ≠ [] →
      ∃ filteredFiles,
        filterBySize pngFiles (filterSize options)
          (snd (ensureDir outputDir
                  (logged (LogFound (length pngFiles))
                          (logged (LogBulkStart inputDir outputDir) w))))
          = (Returned filteredFiles,
             snd (ensureDir outputDir
                    (logged (LogFound (length pngFiles))
                            (logged (LogBulkStart inputDir outputDir) w)))) ∧
        sublist filteredFiles pngFiles ∧
        (filterSize options = None → filteredFiles = pngFiles) ∧
        accounted (stats s') = (accounted st0 + length filteredFiles)%nat).
Proof.
  intros H. set (w1 := logged (LogBulkStart inputDir outputDir) w).
  unfold convertDirectory in H.
  apply bind_inv_Returned in H as ([] & s1 & Hlog & H).
  injection Hlog as <-. simpl in H.
  apply bind_inv_Returned in H as (pngFiles & s2 & Hfind & H).
  apply liftW_inv in Hfind as [Hfind Hst2]. simpl in Hfind, Hst2.
  pose proof (findPngFiles_world env inputDir (recursive options) w1) as Hw.
  fold w1 in Hfind. rewrite Hfind in Hw. simpl in Hw.
  exists pngFiles. rewrite Hw in Hfind. split; [exact Hfind|].
  apply bind_inv_Returned in H as ([] & s3 & Hset & H).
  injection Hset as <-.
  apply bind_inv_Returned in H as ([] & s4 & Hlog & H).
  injection Hlog as <-. simpl in H. rewrite Hst2, Hw in H. simpl in H.
  destruct (length pngFiles =? 0)%nat eqn:Hlen.
  - injection H as <-. simpl.
    apply Nat.eqb_eq in Hlen. destruct pngFiles; [|done].
    repeat split; done.
  - apply Nat.eqb_neq in Hlen.
    apply bind_inv_Returned in H as ([] & s5 & Hdir & H).
    apply liftW_inv in Hdir as [Hdir Hst5]. simpl in Hdir, Hst5.
    apply bind_inv_Returned in H as (filteredFiles & s6 & Hfil & H).
    apply liftW_inv in Hfil as [Hfil Hst6].
    destruct (filterBySize_run _ _ _ _ _ Hfil) as (Hw6 & Hsub & Hnone).
    apply bind_inv_Returned in H as ([] & s7 & Hlog & H).
    apply liftW_inv in Hlog as [_ Hst7].
    apply bind_inv_Returned in H as ([] & s8 & Hconv & H).
    rewrite printSummary_run in H. injection H as <-. simpl.
    assert (total (stats s8) = total (stats s7) ∧
            accounted (stats s8) = (accounted (stats s7) + length filteredFiles)%nat)
      as [Ht Ha].
    { destruct (_ && _).
      - by apply (convertInParallel_counts env) in Hconv.
      - by apply (convertSequentially_counts env) in Hconv. }
    rewrite Hst7, Hst6, Hst5 in Ht, Ha. simpl in Ht, Ha.
    split; [exact Ht|]. split; [intros ->; done|]. intros _.
    exists filteredFiles.
    rewrite Hw6 in Hfil. rewrite Hdir. simpl.
    split; [exact Hfil|]. split; [exact Hsub|]. split; [exact Hnone|].
    rewrite Ha. unfold accounted. simpl. lia.
Qed.

(** C10 (as amended).  The counters are set up once, with the driver, and
    no run resets them.  When [convertDirectory] returns from a run that
    started with counters [st0], [total] is the number of PNG files this
    run found, and, if it found any, [successful + failed + skipped] has
    grown by the number of files the size filter kept.  So on the first
    run of a driver, and on any run that starts with these three counters
    at zero, the sum is the number of files kept: at most [total], and
    equal to it when the filter kept every file.  This holds in
    sequential mode and, in parallel mode, however the turns of the chunk
    tasks interleave. *)
Theorem convertDirectory_counters schedule inputDir outputDir options st0 w s' :
  convertDirectory env schedule inputDir outputDir options (mkState st0 w)
    = (Returned tt, s') →
  let w1 := logged (LogBulkStart inputDir outputDir) w in
  ∃ pngFiles,
    findPngFiles env inputDir (recursive options) w1 = (Returned pngFiles, w1) ∧
    total (stats s') = length pngFiles ∧
    (pngFiles ≠ [] →
      let w2 := snd (ensureDir outputDir (logged (LogFound (length pngFiles)) w1)) in
      ∃ filteredFiles,
        filterBySize pngFiles (filterSize options) w2 = (Returned filteredFiles, w2) ∧
        (successful (stats s') + failed (stats s') + skipped (stats s'))%nat
          = (successful st0 + failed st0 + skipped st0 + length filteredFiles)%nat ∧
        ((successful st0 + failed st0 + skipped st0)%nat = 0%nat →
           (successful (stats s') + failed (stats s') + skipped (stats s'))%nat
             = length filteredFiles ∧
           (successful (stats s') + failed (stats s') + skipped (stats s')
              ≤ total (stats s'))%nat ∧
           (filteredFiles = pngFiles →
              (successful (stats s') + failed (stats s') + skipped (stats s'))%nat
                = total (stats s')))).
Proof.
  intros H w1.
  destruct (convertDirectory_counters_from _ _ _ _ _ _ _ H)
    as (pngFiles & Hfind & Ht & _ & Hsome).
  exists pngFiles. split; [exact Hfind|]. split; [exact Ht|].
  intros Hne w2. destruct (Hsome Hne) as (filteredFiles & Hfil & Hsub & _ & Ha).
  exists filteredFiles. split; [exact Hfil|].
  unfold accounted in Ha. split; [exact Ha|].
  intros H0. rewrite Ha, H0, Ht. cbn.
  split; [done|]. split; [by apply sublist_length | by intros ->].
Qed.





End Runs.

(** *** The size filter *)

(** With bounds that are missing or truthy, a file is kept exactly when it
    is neither below [min] nor above [max]. *)
Lemma keptBySize_truthy_bounds (sizeFilter : SizeFilter) (size : N) :
  (∀ m, min sizeFilter = Some m → num_truthy m = true) →
  (∀ m, max sizeFilter = Some m → num_truthy m = true) →
  keptBySize sizeFilter size =
    negb (opt_truthy (num_lt (Fin (Z.of_N size # 1024))) (min sizeFilter))
    && negb (opt_truthy (num_gt (Fin (Z.of_N size # 1024))) (max sizeFilter)).
Proof.
  intros Hmin Hmax. unfold keptBySize.
  destruct (min sizeFilter) as [a|]; destruct (max sizeFilter) as [b|];
    cbn [opt_truthy]; rewrite ?(Hmin a eq_refl), ?(Hmax b eq_refl);
    try destruct (num_lt _ a); try destruct (num_gt _ b); reflexivity.
Qed.

(** With both bounds set and not zero, a file is kept exactly when its
    size lies between them, the bounds included. *)
Lemma keptBySize_nonzero_bounds (a b : Q) (size : N) :
  ¬ (a == 0)%Q → ¬ (b == 0)%Q →
  keptBySize (mkSizeFilter (Some (Fin a)) (Some (Fin b))) size = true ↔
  (a <= Z.of_N size # 1024 ∧ Z.of_N size # 1024 <= b)%Q.
Proof.
  intros Ha Hb.
  assert (∀ q, ¬ (q == 0)%Q → num_truthy (Fin q) = true) as Ht.
  { intros q Hq. simpl. destruct (Qeq_bool q 0) eqn:E; [|done].
    by apply Qeq_bool_iff in E. }
  rewrite keptBySize_truthy_bounds; simpl.
  - unfold num_gt. simpl. rewrite !negb_involutive, andb_true_iff, !Qle_bool_iff. done.
  - by intros m [= <-]; apply Ht.
  - by intros m [= <-]; apply Ht.
Qed.

(** C7 fails for a bound of zero: [if (sizeFilter.max && ...)] takes
    [max: 0] for no bound at all.  The file [in/a.png] has 5 bytes, which
    is above 0 KB, and the filter keeps it. *)
Theorem filterBySize_zero_max_keeps_file :
  let sizeFilter := mkSizeFilter None (Some (Fin 0)) in
  statSync "in/a.png" Sample.world0 = (Returned (mkStat false true 5), Sample.world0) ∧
  num_gt (Fin (5 # 1024)) (Fin 0) = true ∧
  filterBySize ["in/a.png"] (Some sizeFilter) Sample.world0
    = (Returned ["in/a.png"], Sample.world0).
Proof. repeat split; vm_compute; reflexivity. Qed.

(** *** Concrete runs *)




Lemma convertDirectory_counters_witness :
  let s' := snd (convertDirectory Sample.env [] "in" "out" Sample.noOptions
                                  (mkState initialStats Sample.world0)) in
  ∃ pngFiles,
    findPngFiles Sample.env "in" None (logged (LogBulkStart "in" "out") Sample.world0)
      = (Returned pngFiles, logged (LogBulkStart "in" "out") Sample.world0) ∧
    total (stats s') = length pngFiles.
Proof.
  intros s'.
  assert (convertDirectory Sample.env [] "in" "out" Sample.noOptions
                           (mkState initialStats Sample.world0) = (Returned tt, s')) as H
    by (vm_compute; reflexivity).
  destruct (convertDirectory_counters Sample.env [] "in" "out" Sample.noOptions
              initialStats Sample.world0 s' H) as (pngFiles & Hfind & Ht & _).
  exists pngFiles. split; [exact Hfind | exact Ht].
Defined.

(** C10 as stated fails on a driver that is used again: the second run
    starts from the counters the first one left.  One PNG file is found
    and kept by each run ([in/sub] holds [c.png] alone, before and after
    the first run); the first run converts it, the second skips it, and
    after the second run [successful + failed + skipped] is 2 for a
    filtered list of one file and a [total] of 1. *)
Lemma second_run_adds_to_counters :
  let run1 := convertDirectory Sample.env [] "in/sub" "out" Sample.noOptions
                               (mkState initialStats Sample.world0) in
  let run2 := convertDirectory Sample.env [] "in/sub" "out" Sample.noOptions run1.2 in
  run1.1 = Returned tt ∧ stats run1.2 = mkStats 1 1 0 0 ∧
  findPngFiles Sample.env "in/sub" None (world run1.2)
    = (Returned ["in/sub/c.png"], world run1.2) ∧
  filterBySize ["in/sub/c.png"] None (world run1.2)
    = (Returned ["in/sub/c.png"], world run1.2) ∧
  run2.1 = Returned tt ∧ stats run2.2 = mkStats 1 1 0 1 ∧
  (successful (stats run2.2) + failed (stats run2.2) + skipped (stats run2.2))%nat = 2%nat.
Proof. split_and!; vm_compute; reflexivity. Qed.

End BulkFacts.

(* ===================================================================== *)
(** ** Facts about [createBitmap] *)
(* ===================================================================== *)

Module BitmapFacts.
Import JS Bitmap.

Lemma bytesPerLineOf_div (width : nat) : bytesPerLineOf width = ((width + 7) / 8)%nat.
Proof.
  unfold bytesPerLineOf, Qceiling, Qfloor. cbn -[Nat.div Z.div Z.mul Z.of_nat].
  change (Z.pos (1 * 8)) with 8. rewrite Z.mul_1_r.
  apply Nat2Z.inj. rewrite Nat2Z.inj_div, Nat2Z.inj_add.
  assert (0 ≤ - (- Z.of_nat width / 8)) by
    (apply Z.opp_nonneg_nonpos, Z.div_le_upper_bound; lia).
  rewrite Z2Nat.id by done.
  change (Z.of_nat 7) with 7. change (Z.of_nat 8) with 8.
  apply Z.div_unique with (r := 7 - (- Z.of_nat width) mod 8).
  - left. pose proof (Z.mod_pos_bound (- Z.of_nat width) 8). lia.
  - pose proof (Z.div_mod (- Z.of_nat width) 8). lia.
Qed.

Lemma bytesPerLineOf_bound (width x : nat) :
  (x < width)%nat → (x / 8 < bytesPerLineOf width)%nat.
Proof.
  intros H. rewrite bytesPerLineOf_div.
  apply Nat.Div0.div_lt_upper_bound.
  pose proof (Nat.div_mod_eq (width + 7) 8).
  pose proof (Nat.mod_upper_bound (width + 7) 8). lia.
Qed.

Lemma setPixel_length data width bpl y x bitmap :
  length (setPixel data width bpl y x bitmap) = length bitmap.
Proof. unfold setPixel. destruct (isWhiteAt _ _); [apply length_insert|done]. Qed.

Lemma setRow_length data width bpl bitmap y :
  length (setRow data width bpl bitmap y) = length bitmap.
Proof.
  unfold setRow. generalize (seq 0 width). intros xs. revert bitmap.
  induction xs as [|x xs IH]; intros bitmap; simpl; [done|].
  by rewrite IH, setPixel_length.
Qed.

Lemma rows_length data width bpl (ys : list nat) :
  ∀ bitmap, length (foldl (setRow data width bpl) bitmap ys) = length bitmap.
Proof.
  induction ys as [|y ys IH]; intros bitmap; simpl; [done|].
  by rewrite IH, setRow_length.
Qed.

Lemma length_createBitmap (width height : nat) (data : list Z) :
  length (createBitmap width height data) = ((width + 7) / 8 * height)%nat.
Proof.
  unfold createBitmap. by rewrite rows_length, length_replicate, bytesPerLineOf_div.
Qed.

(** X1.  The bitmap [createBitmap] returns has one row of
    [ceil(width / 8)] bytes per image row, whatever the pixel buffer
    holds: [bytesPerLine * height] bytes, where [bytesPerLine] is
    [(width + 7) / 8] in integers, the least number of bytes that hold
    [width] bits. *)
Theorem createBitmap_length (width height : nat) (data : list Z) :
  let bytesPerLine := ((width + 7) / 8)%nat in
  length (createBitmap width height data) = (bytesPerLine * height)%nat ∧
  bytesPerLineOf width = bytesPerLine ∧
  (width ≤ 8 * bytesPerLine < width + 8)%nat.
Proof.
  intros bytesPerLine. split; [apply length_createBitmap|].
  split; [apply bytesPerLineOf_div|].
  pose proof (Nat.div_mod_eq (width + 7) 8) as Hdiv.
  pose proof (Nat.mod_upper_bound (width + 7) 8) as Hmod.
  unfold bytesPerLine. lia.
Qed.

Lemma setPixel_bytes data width bpl y x bitmap :
  Forall (λ b, 0 ≤ b < 256) bitmap →
  Forall (λ b, 0 ≤ b < 256) (setPixel data width bpl y x bitmap).
Proof.
  intros H. unfold setPixel. destruct (isWhiteAt _ _); [|done].
  apply Forall_insert; [done|]. apply Z.mod_pos_bound. lia.
Qed.

Lemma fold_pixels_bytes data width bpl (ps : list (nat * nat)) :
  ∀ bitmap,
    Forall (λ b, 0 ≤ b < 256) bitmap →
    Forall (λ b, 0 ≤ b < 256)
      (foldl (λ bm p, setPixel data width bpl p.1 p.2 bm) bitmap ps).
Proof.
  induction ps as [|p ps IH]; intros bitmap H; simpl; [done|].
  apply IH. by apply setPixel_bytes.
Qed.

Lemma rows_as_pixels data width bpl (ys : list nat) :
  ∀ bitmap,
    foldl (setRow data width bpl) bitmap ys =
    foldl (λ bm p, setPixel data width bpl p.1 p.2 bm) bitmap
          (flat_map (λ y, map (λ x, (y, x)) (seq 0 width)) ys).
Proof.
  induction ys as [|y ys IH]; intros bitmap; simpl; [done|].
  rewrite foldl_app, <- IH. f_equal.
  unfold setRow. generalize (seq 0 width). intros xs. revert bitmap.
  induction xs as [|x xs IHx]; intros bitmap; simpl; [done|]. apply IHx.
Qed.

Lemma testbit_one_shift (b k : nat) :
  Z.testbit (Z.shiftl 1 (Z.of_nat b)) (Z.of_nat k) = bool_decide (b = k).
Proof.
  rewrite Z.shiftl_1_l, Z.pow2_bits_eqb by lia.
  destruct (Z.eqb_spec (Z.of_nat b) (Z.of_nat k)); case_bool_decide; lia || done.
Qed.

Lemma fold_pixels_bits data width bpl (ps : list (nat * nat)) :
  ∀ bitmap (i k : nat),
    Forall (λ p, (p.1 * bpl + p.2 / 8 < length bitmap)%nat) ps →
    (k < 8)%nat →
    Z.testbit (default 0 (foldl (λ bm p, setPixel data width bpl p.1 p.2 bm) bitmap ps !! i))
              (Z.of_nat k)
    = Z.testbit (default 0 (bitmap !! i)) (Z.of_nat k)
      || existsb (λ p, isWhiteAt data ((p.1 * width + p.2) * 4)
                       && bool_decide ((p.1 * bpl + p.2 / 8)%nat = i)
                       && bool_decide ((7 - p.2 mod 8)%nat = k)) ps.
Proof.
  induction ps as [|[y x] ps IH]; intros bitmap i k Hin Hk; simpl.
  - by rewrite orb_false_r.
  - apply Forall_cons in Hin as [Hp Hps]. simpl in Hp.
    rewrite IH; [|by rewrite setPixel_length|done].
    unfold setPixel. destruct (isWhiteAt data _) eqn:Hw; simpl; [|done].
    rewrite orb_assoc. f_equal.
    destruct (decide ((y * bpl + x / 8)%nat = i)) as [<-|Hne].
    + rewrite list_lookup_insert_eq by done. simpl.
      rewrite bool_decide_eq_true_2 by done. simpl.
      change 256 with (2 ^ 8). rewrite Z.mod_pow2_bits_low by lia.
      by rewrite Z.lor_spec, testbit_one_shift.
    + rewrite list_lookup_insert_ne by done.
      rewrite (bool_decide_eq_false_2 _ Hne). simpl. by rewrite orb_false_r.
Qed.

Lemma pixels_in (width height y x : nat) :
  In (y, x) (flat_map (λ y, map (λ x, (y, x)) (seq 0 width)) (seq 0 height))
  ↔ (y < height ∧ x < width)%nat.
Proof.
  rewrite in_flat_map. split.
  - intros (y' & Hy & Hx). apply in_map_iff in Hx as (x' & [= <- <-] & Hx).
    apply in_seq in Hy, Hx. lia.
  - intros [Hy Hx]. exists y. split; [apply in_seq; lia|].
    apply in_map_iff. exists x. split; [done|]. apply in_seq. lia.
Qed.

(** Every bit of every byte of the bitmap: bit [k] of byte [i] stands for
    the pixel in row [i / bytesPerLine] and column
    [(i mod bytesPerLine) * 8 + (7 - k)]; it is set when that column is
    inside the image and the pixel's red byte is above 127. *)
Lemma createBitmap_bit (width height : nat) (data : list Z) (i k : nat) :
  let bpl := ((width + 7) / 8)%nat in
  (i < bpl * height)%nat → (k < 8)%nat →
  Z.testbit (default 0 (createBitmap width height data !! i)) (Z.of_nat k)
  = let x := ((i mod bpl) * 8 + (7 - k))%nat in
    bool_decide (x < width)%nat && isWhiteAt data (((i / bpl) * width + x) * 4).
Proof.
  intros bpl Hi Hk. unfold createBitmap.
  rewrite bytesPerLineOf_div. fold bpl.
  rewrite rows_as_pixels, fold_pixels_bits; [|..|done].
  2:{ apply Forall_forall. intros [y x] Hp. apply list_elem_of_In, pixels_in in Hp.
      destruct Hp as [Hy Hx].
      rewrite length_replicate. cbn [fst snd].
      pose proof (bytesPerLineOf_bound width x Hx) as Hb.
      rewrite bytesPerLineOf_div in Hb. fold bpl in Hb.
      assert (y * bpl + bpl ≤ bpl * height)%nat by nia. lia. }
  assert (default 0 (replicate (bpl * height) 0 !! i) = 0) as ->.
  { destruct (replicate _ _ !! i) eqn:E; [|done].
    apply lookup_replicate in E as [-> _]. done. }
  rewrite Z.bits_0. cbn [orb].
  assert (0 < bpl)%nat as Hbpl by (destruct bpl; lia).
  apply Bool.eq_iff_eq_true.
  rewrite existsb_exists, andb_true_iff, bool_decide_eq_true. split.
  - intros ([y x] & Hp & Hw). apply pixels_in in Hp as [Hy Hx].
    cbn [fst snd] in Hw. rewrite !andb_true_iff, !bool_decide_eq_true in Hw.
    destruct Hw as [[Hw Hbyte] Hbit].
    pose proof (bytesPerLineOf_bound width x Hx) as Hb.
    rewrite bytesPerLineOf_div in Hb. fold bpl in Hb.
    assert (i / bpl = y)%nat as Hdiv.
    { symmetry. apply (Nat.div_unique _ _ _ (x / 8)); lia. }
    assert (i mod bpl = x / 8)%nat as Hmod.
    { symmetry. apply (Nat.mod_unique _ _ y); lia. }
    pose proof (Nat.div_mod_eq x 8). pose proof (Nat.mod_upper_bound x 8).
    assert ((i mod bpl) * 8 + (7 - k) = x)%nat as -> by lia.
    rewrite Hdiv. done.
  - intros [Hx Hw].
    set (x := ((i mod bpl) * 8 + (7 - k))%nat) in *.
    exists ((i / bpl)%nat, x). split.
    + apply pixels_in. split; [|done].
      apply Nat.Div0.div_lt_upper_bound. lia.
    + cbn [fst snd]. rewrite Hw. cbn [andb]. rewrite andb_true_iff, !bool_decide_eq_true.
      assert (x / 8 = i mod bpl)%nat as Hq.
      { symmetry. apply (Nat.div_unique _ _ _ (7 - k)); unfold x; lia. }
      assert (x mod 8 = 7 - k)%nat as Hr.
      { symmetry. apply (Nat.mod_unique _ _ (i mod bpl)); unfold x; lia. }
      rewrite Hq, Hr. pose proof (Nat.div_mod_eq i bpl). split; lia.
Qed.

(** X2.  The pixel in column [x] of row [y] is bit [7 - x mod 8] (the
    most significant bit is the leftmost pixel) of byte
    [y * bytesPerLine + x / 8], and that bit is set exactly when the red
    byte of the pixel, [data[(y * width + x) * 4]], is above 127; a pixel
    the buffer is too short for is black. *)
Theorem createBitmap_pixel (width height : nat) (data : list Z) (x y : nat) :
  (x < width)%nat → (y < height)%nat →
  ∃ b, createBitmap width height data !! (y * ((width + 7) / 8) + x / 8)%nat = Some b ∧
       Z.testbit b (Z.of_nat (7 - x mod 8)) = isWhiteAt data ((y * width + x) * 4).
Proof.
  intros Hx Hy. set (bpl := ((width + 7) / 8)%nat).
  pose proof (bytesPerLineOf_bound width x Hx) as Hb.
  rewrite bytesPerLineOf_div in Hb. fold bpl in Hb.
  assert (y * bpl + x / 8 < bpl * height)%nat as Hi by nia.
  destruct (createBitmap width height data !! (y * bpl + x / 8)%nat) as [b|] eqn:E.
  2:{ apply lookup_ge_None in E. rewrite length_createBitmap in E. fold bpl in E. lia. }
  exists b. split; [done|].
  pose proof (createBitmap_bit width height data (y * bpl + x / 8) (7 - x mod 8)) as H.
  fold bpl in H. rewrite E in H. change (default 0 (Some b)) with b in H. cbv zeta in H.
  rewrite H; [|done|lia].
  assert ((y * bpl + x / 8) / bpl = y)%nat as ->.
  { symmetry. apply (Nat.div_unique _ _ _ (x / 8)); lia. }
  assert ((y * bpl + x / 8) mod bpl = x / 8)%nat as ->.
  { symmetry. apply (Nat.mod_unique _ _ y); lia. }
  pose proof (Nat.div_mod_eq x 8). pose proof (Nat.mod_upper_bound x 8).
  assert (x / 8 * 8 + (7 - (7 - x mod 8)) = x)%nat as -> by lia.
  by rewrite bool_decide_eq_true_2.
Qed.

(** X3.  Every element of the bitmap is a byte, and the padding bits of a
    row (the columns from [width] up to the byte boundary) are never
    set. *)
Theorem createBitmap_padding (width height : nat) (data : list Z) (i : nat) (b : Z) :
  createBitmap width height data !! i = Some b →
  0 ≤ b < 256 ∧
  ∀ k : nat, (k < 8)%nat →
    (width ≤ (i mod ((width + 7) / 8)) * 8 + (7 - k))%nat →
    Z.testbit b (Z.of_nat k) = false.
Proof.
  intros E. split.
  - unfold createBitmap in E. rewrite rows_as_pixels in E.
    eapply (Forall_lookup_1 (λ b, 0 ≤ b < 256)); [|exact E].
    apply fold_pixels_bytes. apply Forall_replicate. lia.
  - intros k Hk Hpad.
    pose proof (lookup_lt_Some _ _ _ E) as Hi. rewrite length_createBitmap in Hi.
    pose proof (createBitmap_bit width height data i k Hi Hk) as H.
    rewrite E in H. change (default 0 (Some b)) with b in H. cbv zeta in H. rewrite H.
    rewrite bool_decide_eq_false_2 by lia. done.
Qed.

(** X4.  Only the red byte of a pixel is read: two pixel buffers that
    agree at every index that is a multiple of four give the same bitmap,
    whatever their green, blue and alpha bytes. *)
Theorem createBitmap_red_channel (width height : nat) (data data' : list Z) :
  (∀ n : nat, data !! (n * 4)%nat = data' !! (n * 4)%nat) →
  createBitmap width height data = createBitmap width height data'.
Proof.
  intros H. unfold createBitmap. rewrite !rows_as_pixels.
  generalize (flat_map (λ y, map (λ x, (y, x)) (seq 0 width)) (seq 0 height)).
  intros ps. generalize (replicate (bytesPerLineOf width * height) 0).
  induction ps as [|p ps IH]; intros bm; simpl; [done|].
  rewrite IH. f_equal. unfold setPixel, isWhiteAt. cbv zeta. by rewrite H.
Qed.

Lemma createBitmap_pixel_witness :
  ∃ b, createBitmap 10 2 [0; 0; 0; 255; 200; 0; 0; 255] !! (0 * ((10 + 7) / 8) + 1 / 8)%nat = Some b ∧
       Z.testbit b (Z.of_nat (7 - 1 mod 8)) = isWhiteAt [0; 0; 0; 255; 200; 0; 0; 255] ((0 * 10 + 1) * 4).
Proof. apply (createBitmap_pixel 10 2 [0; 0; 0; 255; 200; 0; 0; 255] 1 0); lia. Defined.

Lemma createBitmap_padding_witness :
  0 ≤ 128 < 256 ∧
  ∀ k : nat, (k < 8)%nat → (9 ≤ (1 mod ((9 + 7) / 8)) * 8 + (7 - k))%nat →
    Z.testbit 128 (Z.of_nat k) = false.
Proof.
  apply (createBitmap_padding 9 1
    [0; 0; 0; 0; 0; 0; 0; 0; 0; 0; 0; 0; 0; 0; 0; 0; 0; 0; 0; 0; 0; 0; 0; 0;
     0; 0; 0; 0; 0; 0; 0; 0; 255; 0; 0; 0] 1 128).
  vm_compute. reflexivity.
Defined.

Lemma createBitmap_red_channel_witness :
  createBitmap 1 1 [200; 0; 0; 255] = createBitmap 1 1 [200; 90; 30; 0].
Proof.
  apply (createBitmap_red_channel 1 1 [200; 0; 0; 255] [200; 90; 30; 0]).
  intros [|n]; reflexivity.
Defined.

End BitmapFacts.

(* ===================================================================== *)
(** ** What the conversions leave of the file system *)
(* ===================================================================== *)

Module FrameFacts.
Import JS Eff Converter EffFacts ConverterFacts.
Local Open Scope eff_scope.

Lemma preprocess_any_world (env : Env) opts (img : image env) (w w' : World) :
  fst (preprocess env opts img w) = fst (preprocess env opts img w').
Proof.
  unfold preprocess, basePipeline, bind.
  destruct (jimp_apply env Greyscale img) as [e|g]; [done|]. cbn.
  destruct (jimp_apply env (Contrast (Fin 0.3)) g) as [e|c]; [done|]. cbn.
  destruct (jimp_apply env Normalize c) as [e|n]; [done|]. cbn.
  destruct (is_defined _); [|done].
  by destruct (jimp_apply env (Threshold _) n).
Qed.

Lemma preprocess_run (env : Env) opts (img : image env) (w w' : World) :
  preprocess env opts img w' = (fst (preprocess env opts img w), w').
Proof.
  rewrite (preprocess_any_world env opts img w w').
  rewrite <- (preprocess_world env opts img w') at 3.
  by destruct (preprocess env opts img w').
Qed.

(** What [convertFile] changes lies at its temporary path and at its
    output path. *)
Lemma convertFile_kept (env : Env) inputPath outputPath options w :
  kept (λ path, path = fileTempPath inputPath (timeline env (clock_reads w))
                ∨ path = outputPath)
       w (convertFile env inputPath outputPath options w).2.
Proof.
  set (P := λ path, path = fileTempPath inputPath (timeline env (clock_reads w))
                    ∨ path = outputPath).
  unfold convertFile. apply kept_try_catch; [|intros e _; by apply kept_nodes].
  apply kept_bind; [by apply kept_nodes|]. intros _ _.
  change (log (LogConverting inputPath) w).2 with (logged (LogConverting inputPath) w).
  set (w1 := logged (LogConverting inputPath) w).
  apply kept_bind; [apply kept_nodes; by rewrite jimpRead_world|].
  intros img _. rewrite jimpRead_world. cbv zeta.
  apply kept_bind; [apply kept_nodes; by rewrite preprocess_world|].
  intros p _. rewrite preprocess_world.
  apply kept_bind; [by apply kept_nodes|]. intros now [= <-].
  cbn [dateNow snd w1 logged nodes sticky clock_reads random_reads console].
  apply kept_bind; [apply kept_jimpWrite; by left|]. intros _ _.
  apply kept_bind; [by apply kept_nodes|]. intros _ _.
  apply kept_bind; [apply kept_traceAndUnlink; by left|]. intros svg _.
  apply kept_bind; [apply kept_writeFile; by right|]. intros _ _.
  by apply kept_nodes.
Qed.

(** X5.  Whatever happens in [convertFile] (the read fails, the tracer
    fails, the cleanup fails, the call succeeds), it changes no path of
    the file system but its temporary path and its output path. *)
Theorem convertFile_frame (env : Env) inputPath outputPath options w path :
  path ≠ fileTempPath inputPath (timeline env (clock_reads w)) →
  path ≠ outputPath →
  nodes (snd (convertFile env inputPath outputPath options w)) !! path = nodes w !! path.
Proof.
  intros Ht Ho. apply (convertFile_kept env inputPath outputPath options w).
  by intros [|].
Qed.

(** X6.  An input path that does not contain [.png] (such as one ending
    in [.PNG]) is its own temporary path.  When the file decodes and
    preprocesses, the image library has an encoder for the extension and
    the directory of the file exists, [convertFile] writes the
    preprocessed image over the input.  If the tracer takes the options
    and the file may be unlinked, the cleanup unlinks it: after the call
    the input file is gone, whether the tracer failed or not, and on a
    result of the tracer, with an output path whose directory exists and
    which is no directory, the call still returns.  If the tracer throws
    on the options, the input file is left holding the preprocessed
    image. *)
Theorem convertFile_consumes_input (env : Env) inputPath outputPath options w bytes img p
    mime parent :
  occurs ".png" inputPath = false →
  nodes w !! inputPath = Some (File bytes) →
  jimp_decode env bytes = inr img →
  fst (preprocess env (mergeOptions options) img w) = Returned p →
  jimp_mime env inputPath = inr mime →
  nodes w !! path_dirname env inputPath = Some (Dir parent) →
  inputPath ≠ outputPath →
  (potrace_validate env (mergeOptions options) = None → inputPath ∉ sticky w →
     nodes (snd (convertFile env inputPath outputPath options w)) !! inputPath = None ∧
     (∀ svg outParent,
        potrace_trace env (jimp_encode env p) (mergeOptions options) = inr svg →
        nodes w !! path_dirname env outputPath = Some (Dir outParent) →
        (∀ items, nodes w !! outputPath ≠ Some (Dir items)) →
        fst (convertFile env inputPath outputPath options w) = Returned tt)) ∧
  (∀ e, potrace_validate env (mergeOptions options) = Some e →
     convertFile env inputPath outputPath options w
       = (Thrown e, (convertFile env inputPath outputPath options w).2) ∧
     nodes (snd (convertFile env inputPath outputPath options w)) !! inputPath
       = Some (File (jimp_encode env p))).
Proof.
  intros Hocc Hin Hdec Hpre Hmime Hparent Hne.
  set (w1 := logged (LogConverting inputPath) w).
  assert (fileTempPath inputPath (timeline env (clock_reads w)) = inputPath) as Htemp
    by (unfold fileTempPath; by rewrite (replace_first_absent _ _ _ Hocc)).
  assert (jimpRead env inputPath w1 = (Returned img, w1)) as Hread
    by (by apply (jimpRead_ok env inputPath bytes)).
  assert (preprocess env (mergeOptions options) img w1 = (Returned p, w1)) as Hpre1
    by (by rewrite (preprocess_run env _ img w), Hpre).
  assert (∀ items, nodes w !! inputPath ≠ Some (Dir items)) as Hdir
    by (intros items; by rewrite Hin).
  split.
  - intros Hvalid Hsticky. split.
    + destruct (convertFile_from_trace env inputPath outputPath options w img p mime parent)
        as (w2 & Hn2 & Hs2 & ->); rewrite ?Htemp; try done.
      rewrite Htemp in Hn2. unfold try_catch, bind.
      rewrite (traceAndUnlink_called env inputPath _ (jimp_encode env p));
        [|done|by rewrite Hn2, lookup_insert_eq|by rewrite Hs2].
      assert (nodes (set_nodes (delete inputPath) w2) !! inputPath = None) as Hgone
        by (cbn; apply lookup_delete_eq).
      destruct (potrace_trace env (jimp_encode env p) (mergeOptions options)) as [e|svg].
      * exact Hgone.
      * pose proof (kept_writeFile (λ q, q = outputPath) env outputPath svg
                      (set_nodes (delete inputPath) w2) eq_refl inputPath Hne) as Hk.
        destruct (writeFile env outputPath svg _) as [[[]|e|e|] w3]; cbn in *; congruence.
    + intros svg outParent Htrace Hop Hout.
      destruct (convertFile_success env inputPath outputPath options w img p svg mime parent
                  outParent) as (w' & -> & _); rewrite ?Htemp; done.
  - intros e Hvalid.
    destruct (convertFile_trace_throws env inputPath outputPath options w img p e mime parent)
      as (w' & -> & Hnodes & _); rewrite ?Htemp; try done.
    split; [done|]. cbn. rewrite Hnodes, Htemp. apply lookup_insert_eq.
Qed.

(** What [convertBuffer] changes lies at its temporary path. *)
Lemma convertBuffer_kept (env : Env) pngBuffer options w :
  kept (λ path, path = bufferTempPath (timeline env (clock_reads w))
                                      (randoms env (random_reads w)))
       w (convertBuffer env pngBuffer options w).2.
Proof.
  unfold convertBuffer. apply kept_try_catch; [|intros e _; by apply kept_nodes].
  apply kept_bind; [apply kept_lift_sum|]. intros img _. rewrite lift_sum_world.
  unfold convertImageToSvg. cbv zeta.
  apply kept_bind; [apply kept_nodes; by rewrite preprocess_world|].
  intros p _. rewrite preprocess_world.
  apply kept_bind; [by apply kept_nodes|]. intros _ _.
  apply kept_bind; [by apply kept_nodes|]. intros now [= <-].
  apply kept_bind; [by apply kept_nodes|]. intros rnd [= <-].
  cbn [log modify dateNow randomSuffix snd logged nodes sticky clock_reads random_reads
       console].
  apply kept_bind; [by apply kept_jimpWrite|]. intros _ _.
  by apply kept_traceAndTryUnlink.
Qed.

(** When the tracer takes the options, a temporary path that was free and
    may be unlinked is free again after [convertBuffer]. *)
Lemma convertBuffer_temp_gone (env : Env) pngBuffer options w :
  let tempPath := bufferTempPath (timeline env (clock_reads w))
                                 (randoms env (random_reads w)) in
  nodes w !! tempPath = None → tempPath ∉ sticky w →
  potrace_validate env (mergeOptions options) = None →
  nodes (convertBuffer env pngBuffer options w).2 !! tempPath = None.
Proof.
  intros tempPath Hfree Hsticky Hvalid.
  unfold convertBuffer, try_catch, convertImageToSvg.
  destruct (jimp_decode env pngBuffer) as [e|img]; [exact Hfree|].
  erewrite (bind_Returned (lift_sum _)) by reflexivity.
  unfold bind at 1. rewrite (preprocess_run env _ img w).
  destruct (fst (preprocess env (mergeOptions options) img w)) as [p|e|e|];
    [|exact Hfree..].
  erewrite bind_Returned by reflexivity.
  erewrite bind_Returned by reflexivity.
  erewrite bind_Returned by reflexivity.
  simpl clock_reads. simpl random_reads. fold tempPath.
  unfold bind at 1, jimpWrite, bind at 1.
  destruct (jimp_mime env tempPath) as [e|mime]; [exact Hfree|].
  cbn [lift_sum ret]. unfold writeFile.
  cbn [logged nodes sticky clock_reads random_reads console].
  destruct (nodes w !! path_dirname env tempPath) as [[b|parent]|]; try exact Hfree.
  rewrite Hfree. cbn [set_nodes logged nodes sticky clock_reads random_reads console].
  unfold traceAndTryUnlink, traceCall. rewrite Hvalid.
  erewrite bind_Returned by reflexivity.
  erewrite bind_Returned by reflexivity.
  erewrite (bind_Returned (try_catch _ _)).
  2:{ unfold try_catch. erewrite unlinkSync_ok;
        [reflexivity | cbn; apply lookup_insert_eq | exact Hsticky]. }
  destruct (traceResult env tempPath _ _) as [e|svg]; cbn; apply lookup_delete_eq.
Qed.

(** X7.  [convertBuffer] changes no path of the file system but its
    temporary path, however it ends.  When the tracer takes the options
    and that path was free and may be unlinked, the file system after the
    call is the one before it.  When the tracer throws on the options
    (the buffer decodes and preprocesses, the image library has an
    encoder for the temporary path, whose directory exists), the call
    throws what the tracer threw and the temporary file is left behind. *)
Theorem convertBuffer_frame (env : Env) pngBuffer options w :
  let tempPath := bufferTempPath (timeline env (clock_reads w))
                                 (randoms env (random_reads w)) in
  (∀ path, path ≠ tempPath →
     nodes (snd (convertBuffer env pngBuffer options w)) !! path = nodes w !! path) ∧
  (nodes w !! tempPath = None → tempPath ∉ sticky w →
   potrace_validate env (mergeOptions options) = None →
     nodes (snd (convertBuffer env pngBuffer options w)) = nodes w) ∧
  (∀ e img p mime parent,
     potrace_validate env (mergeOptions options) = Some e →
     jimp_decode env pngBuffer = inr img →
     fst (preprocess env (mergeOptions options) img w) = Returned p →
     jimp_mime env tempPath = inr mime →
     nodes w !! path_dirname env tempPath = Some (Dir parent) →
     (∀ items, nodes w !! tempPath ≠ Some (Dir items)) →
     fst (convertBuffer env pngBuffer options w) = Thrown e ∧
     nodes (snd (convertBuffer env pngBuffer options w)) !! tempPath
       = Some (File (jimp_encode env p))).
Proof.
  intros tempPath. split; [|split].
  - intros path Hp. by apply (convertBuffer_kept env pngBuffer options w).
  - intros Hfree Hsticky Hvalid. apply map_eq. intros path.
    destruct (decide (path = tempPath)) as [->|Hp].
    + rewrite Hfree. by apply convertBuffer_temp_gone.
    + by apply (convertBuffer_kept env pngBuffer options w).
  - intros e img p mime parent Hvalid Hdec Hpre Hmime Hparent Hdir.
    destruct (convertBuffer_trace_throws env pngBuffer options w img p e mime parent)
      as (w' & -> & Hnodes); try done.
    + by rewrite (preprocess_run env _ img w), Hpre.
    + split; [done|]. cbn. rewrite Hnodes. apply lookup_insert_eq.
Qed.

Lemma convertFile_frame_witness :
  nodes (snd (convertFile Sample.env "in/a.png" "out/a.svg" ∅ Sample.world0)) !! "in/notes.txt"
    = nodes Sample.world0 !! "in/notes.txt".
Proof.
  apply (convertFile_frame Sample.env "in/a.png" "out/a.svg" ∅ Sample.world0 "in/notes.txt").
  - intros H. vm_compute in H. discriminate H.
  - discriminate.
Defined.

Lemma convertFile_consumes_input_witness :
  nodes (snd (convertFile Sample.env "in/B.PNG" "out/B.svg" ∅ Sample.world0)) !! "in/B.PNG"
    = None ∧
  nodes (snd (convertFile Sample.env "in/B.PNG" "out/B.svg"
                          {[ "turnPolicy" := VStr "bogus" ]} Sample.world0)) !! "in/B.PNG"
    = Some (File "PNG-b:gcnt").
Proof.
  split.
  - destruct (convertFile_consumes_input Sample.env "in/B.PNG" "out/B.svg" ∅ Sample.world0
                "PNG-b" ("PNG-b", [])
                ("PNG-b", [Greyscale; Contrast (Fin 0.3); Normalize;
                           Threshold (VNum (Fin 128))])
                "image/png" ["a.png"; "B.PNG"; "notes.txt"; "bad.png"; "sub"])
      as [Hgone _];
      [reflexivity | reflexivity | reflexivity | reflexivity | reflexivity | reflexivity
      | discriminate | ].
    apply Hgone; [reflexivity | apply not_elem_of_empty].
  - destruct (convertFile_consumes_input Sample.env "in/B.PNG" "out/B.svg"
                {[ "turnPolicy" := VStr "bogus" ]} Sample.world0
                "PNG-b" ("PNG-b", [])
                ("PNG-b", [Greyscale; Contrast (Fin 0.3); Normalize;
                           Threshold (VNum (Fin 128))])
                "image/png" ["a.png"; "B.PNG"; "notes.txt"; "bad.png"; "sub"])
      as [_ Hleft];
      [reflexivity | reflexivity | reflexivity | reflexivity | reflexivity | reflexivity
      | discriminate | ].
    apply (Hleft (TraceError "Bad turnPolicy value")). reflexivity.
Defined.

Lemma convertBuffer_frame_witness :
  nodes (snd (convertBuffer Sample.env "PNG-x" ∅ Sample.world0)) = nodes Sample.world0 ∧
  nodes (snd (convertBuffer Sample.env "PNG-x" {[ "turnPolicy" := VStr "bogus" ]}
                            Sample.world0)) !! "/tmp/temp_1700000000000_k3x9q0zab.png"
    = Some (File "PNG-x:gcnt").
Proof.
  destruct (convertBuffer_frame Sample.env "PNG-x" ∅ Sample.world0) as (_ & Hsame & _).
  destruct (convertBuffer_frame Sample.env "PNG-x" {[ "turnPolicy" := VStr "bogus" ]}
              Sample.world0) as (_ & _ & Hleft).
  split.
  - apply Hsame; [reflexivity | apply not_elem_of_empty | reflexivity].
  - apply (Hleft (TraceError "Bad turnPolicy value") ("PNG-x", [])
             ("PNG-x", [Greyscale; Contrast (Fin 0.3); Normalize;
                        Threshold (VNum (Fin 128))])
             "image/png" []); try reflexivity.
    intros items H. vm_compute in H. discriminate H.
Defined.

End FrameFacts.

(* ===================================================================== *)
(** ** Facts about the posterizer and its REST handler *)
(* ===================================================================== *)

Module PosterizeFacts.
Import JS Eff Converter Session Posterize Server Rest EffFacts ConverterFacts.
Local Open Scope eff_scope.

Lemma liftS_run {A} (m : M World A) (s : Session) r w' :
  m (sworld s) = (r, w') → liftS m s = (r, mkSession w' (notes s)).
Proof. intros H. unfold liftS. by rewrite H. Qed.

Lemma occurs_self (pat : string) : occurs pat pat = true.
Proof.
  assert (String.prefix pat pat = true) as H.
  { induction pat as [|c pat IH]; [done|]. simpl. by destruct (Ascii.ascii_dec c c). }
  destruct pat; simpl in *; [done|]. by rewrite H.
Qed.

Lemma occurs_append_r (pat a s : string) :
  occurs pat s = true → occurs pat (a +:+ s) = true.
Proof.
  intros H. induction a as [|c a IH]; [done|].
  change (occurs pat (String c a +:+ s))
    with (String.prefix pat (String c (a +:+ s)) || occurs pat (a +:+ s)).
  rewrite IH. apply orb_true_r.
Qed.

Lemma uploadPath_occurs (now : N) : occurs ".png" (uploadPath now) = true.
Proof. unfold uploadPath. do 2 apply occurs_append_r. apply occurs_self. Qed.

(** The three paths of a posterize request are pairwise distinct,
    whatever the clock says. *)
Lemma posterize_paths_distinct (t1 t2 t3 : N) :
  uploadPath t1 ≠ resultPath t2 ∧
  posterizeTempPath (uploadPath t1) t3 ≠ uploadPath t1 ∧
  posterizeTempPath (uploadPath t1) t3 ≠ resultPath t2.
Proof.
  split_and!.
  - unfold uploadPath, resultPath. cbn. intros [=].
  - intros H. pose proof (uploadPath_occurs t1) as Ho.
    apply (replace_first_length _ (".temp-posterize_" +:+ show_N t3 +:+ ".png")) in Ho.
    unfold posterizeTempPath in H. rewrite H in Ho.
    rewrite !length_append in Ho. simpl in Ho. lia.
  - unfold posterizeTempPath, uploadPath, resultPath. cbn. intros [=].
Qed.


Section Runs.
Context (env : Env) (potrace_posterize : string → obj → error + string).
Context (posterize_validate : obj → option error).

Lemma posterizeAndUnlink_called tempPath opts bytes w :
  posterize_validate opts = None →
  nodes w !! tempPath = Some (File bytes) →
  tempPath ∉ sticky w →
  posterizeAndUnlink potrace_posterize posterize_validate tempPath opts w
    = (match potrace_posterize bytes opts with
       | inl e => Thrown e
       | inr svg => Returned svg
       end, set_nodes (delete tempPath) w).
Proof.
  intros Hvalid Hfile Hsticky. unfold posterizeAndUnlink, posterizeCall. rewrite Hvalid.
  erewrite bind_Returned by reflexivity.
  erewrite bind_Returned by reflexivity.
  unfold posterizeResult. rewrite Hfile.
  erewrite unlinkSync_ok by done.
  by destruct (potrace_posterize bytes opts).
Qed.

Lemma posterizeAndUnlink_thrown tempPath opts e w :
  posterize_validate opts = Some e →
  posterizeAndUnlink potrace_posterize posterize_validate tempPath opts w = (Thrown e, w).
Proof. intros Hvalid. unfold posterizeAndUnlink, posterizeCall. by rewrite Hvalid. Qed.

(** [convertToPosterized] from the call of the posterizer on, once the
    temporary file is written. *)
Lemma convertToPosterized_from_call inputPath outputPath steps options s bytes img p
    mime parent :
  let w := sworld s in
  let tempPath := posterizeTempPath inputPath (timeline env (clock_reads w)) in
  let s2 := mkSession (mkWorld (<[tempPath := File (jimp_encode env p)]> (nodes w))
                               (sticky w) (S (clock_reads w)) (random_reads w) (console w))
                      (notes s ++ [(length (console w), LogPosterizing steps)]) in
  nodes w !! inputPath = Some (File bytes) →
  jimp_decode env bytes = inr img →
  preprocessPosterized env options img w = (Returned p, w) →
  jimp_mime env tempPath = inr mime →
  nodes w !! path_dirname env tempPath = Some (Dir parent) →
  (∀ items, nodes w !! tempPath ≠ Some (Dir items)) →
  convertToPosterized env potrace_posterize posterize_validate inputPath outputPath steps
                      options s
  = try_catch
      (let* svg := liftS (posterizeAndUnlink potrace_posterize posterize_validate tempPath
                                             (posterizeOptions steps options)) in
       liftS (writeFile env outputPath svg) ;;;
       logNote (LogPosterized outputPath))
      (fun error => logNote (ErrPosterizedFailed error) ;;; throw error) s2.
Proof.
  intros w tempPath s2 Hin Hdec Hpre Hmime Hparent Hdir.
  unfold convertToPosterized, try_catch.
  erewrite bind_Returned by reflexivity.
  erewrite bind_Returned
    by (apply liftS_run; cbn [noted sworld]; by apply (jimpRead_ok env inputPath bytes)).
  erewrite bind_Returned by (apply liftS_run; cbn [sworld noted]; exact Hpre).
  erewrite bind_Returned by (apply liftS_run; reflexivity).
  cbn [sworld noted notes clock_reads]. fold w. fold tempPath.
  erewrite bind_Returned
    by (apply liftS_run; by apply (jimpWrite_ok env p tempPath _ mime parent)).
  reflexivity.
Qed.

Lemma convertToPosterized_decode_failure inputPath outputPath steps options s bytes e :
  nodes (sworld s) !! inputPath = Some (File bytes) →
  jimp_decode env bytes = inl e →
  convertToPosterized env potrace_posterize posterize_validate inputPath outputPath steps
                      options s =
    (Thrown e, noted (ErrPosterizedFailed e) (noted (LogPosterizing steps) s)).
Proof.
  intros Hin Hdec. unfold convertToPosterized, try_catch.
  erewrite bind_Returned by reflexivity.
  erewrite bind_Thrown; [reflexivity|].
  apply liftS_run. unfold jimpRead, existsSync, gets, readFile, bind. cbn [noted sworld].
  rewrite Hin, bool_decide_eq_true_2 by done. rewrite Hin. cbn.
  rewrite Hdec. reflexivity.
Qed.

Lemma posterizeOptions_empty steps : posterizeOptions steps ∅ = {[ "steps" := VNum steps ]}.
Proof. unfold posterizeOptions, spread. apply (left_id_L ∅ (∪)). Qed.

Lemma stepsOf_truthy body : num_truthy (stepsOf body) = true.
Proof.
  unfold stepsOf.
  destruct (num_truthy (match body !! "steps" with Some s => parseInt s | None => NaN end))
    eqn:E; [exact E | reflexivity].
Qed.

(** The handler up to its first [require]. *)
Lemma posterizeHandler_run req s buffer :
  file req = Some buffer →
  posterizeHandler env potrace_posterize posterize_validate req s
  = (Returned (Json 500 "Failed to convert image" (Some (ReferenceError "require"))),
     noted (ErrPosterizedConversion (ReferenceError "require"))
           (mkSession (mkWorld (nodes (sworld s)) (sticky (sworld s))
                               (S (S (clock_reads (sworld s))))
                               (random_reads (sworld s)) (console (sworld s)))
                      (notes s))).
Proof.
  intros Hfile. unfold posterizeHandler, try_catch. rewrite Hfile.
  erewrite bind_Returned by (apply liftS_run; reflexivity).
  erewrite bind_Returned by (apply liftS_run; reflexivity).
  erewrite bind_Thrown by (apply liftS_run; reflexivity).
  reflexivity.
Qed.

(** X9.  [POST /api/posterize] never converts.  A request without a file
    is answered with status 400; a request with a file is answered with
    status 500 and the [ReferenceError] that evaluating [require] throws
    in an ES module, whatever the upload and the [steps] field are; the
    handler has read the clock twice and printed the error, and the
    posterizer was not reached. *)
Theorem posterizeHandler_answers_500 req s :
  (file req = None →
     posterizeHandler env potrace_posterize posterize_validate req s
       = (Returned (Json 400 "No image file provided" None), s)) ∧
  (∀ buffer, file req = Some buffer →
     ∃ s', posterizeHandler env potrace_posterize posterize_validate req s
             = (Returned (Json 500 "Failed to convert image"
                               (Some (ReferenceError "require"))), s') ∧
           clock_reads (sworld s') = S (S (clock_reads (sworld s))) ∧
           console (sworld s') = console (sworld s) ∧
           notes s' = notes s ++ [(length (console (sworld s)),
                                   ErrPosterizedConversion (ReferenceError "require"))]).
Proof.
  split.
  - intros Hfile. unfold posterizeHandler, try_catch. by rewrite Hfile.
  - intros buffer Hfile. rewrite (posterizeHandler_run req s buffer Hfile).
    eexists. split; [reflexivity|]. done.
Qed.

(** X10.  A posterize request leaves the file system as it found it: the
    upload is not written to [/tmp/temp_<now>.png], and no output or
    temporary file of the posterizer appears. *)
Theorem posterizeHandler_writes_nothing req s :
  nodes (sworld (posterizeHandler env potrace_posterize posterize_validate req s).2)
    = nodes (sworld s) ∧
  (∀ buffer, file req = Some buffer →
     nodes (sworld (posterizeHandler env potrace_posterize posterize_validate req s).2)
       !! uploadPath (timeline env (clock_reads (sworld s)))
     = nodes (sworld s) !! uploadPath (timeline env (clock_reads (sworld s)))).
Proof.
  assert (nodes (sworld (posterizeHandler env potrace_posterize posterize_validate req s).2)
          = nodes (sworld s)) as H.
  { destruct (file req) as [buffer|] eqn:Hfile.
    - by rewrite (posterizeHandler_run req s buffer Hfile).
    - unfold posterizeHandler, try_catch. by rewrite Hfile. }
  split; [exact H|]. intros buffer _. by rewrite H.
Qed.

(** X8.  [convertToPosterized] on a file that decodes, with options
    that hold neither [threshold] nor [steps], once the temporary file
    could be written (the image library has an encoder for its path, and
    its directory exists): the image goes through [greyscale] and
    [normalize] only, and the posterizer gets the options as supplied
    plus [steps], with no default merged in.  If the posterizer throws on
    these options, the call throws the same and the temporary file is
    left behind.  If it takes them and the temporary file may be
    unlinked: an error it calls back with is thrown and leaves the file
    system as before but for the temporary file, which is gone; a result
    is written to the output path when the directory of that path exists
    and the path is no directory, and when that directory is missing the
    call throws [ENOENT], with the temporary file gone as well. *)
Theorem convertToPosterized_policy inputPath outputPath steps options s bytes img g p
    mime parent :
  let w := sworld s in
  let tempPath := posterizeTempPath inputPath (timeline env (clock_reads w)) in
  let opts := <["steps" := VNum steps]> options in
  let traced := potrace_posterize (jimp_encode env p) opts in
  let run := convertToPosterized env potrace_posterize posterize_validate
                                 inputPath outputPath steps options s in
  nodes w !! inputPath = Some (File bytes) →
  jimp_decode env bytes = inr img →
  jimp_apply env Greyscale img = inr g →
  jimp_apply env Normalize g = inr p →
  options !! "threshold" = None →
  options !! "steps" = None →
  jimp_mime env tempPath = inr mime →
  nodes w !! path_dirname env tempPath = Some (Dir parent) →
  (∀ items, nodes w !! tempPath ≠ Some (Dir items)) →
  (∀ e, posterize_validate opts = Some e →
     run.1 = Thrown e ∧
     nodes (sworld run.2) = <[tempPath := File (jimp_encode env p)]> (nodes w)) ∧
  (posterize_validate opts = None → tempPath ∉ sticky w →
     (∀ e, traced = inl e →
        run.1 = Thrown e ∧ nodes (sworld run.2) = delete tempPath (nodes w)) ∧
     (∀ svg outParent, traced = inr svg →
        nodes w !! path_dirname env outputPath = Some (Dir outParent) →
        (∀ items, nodes w !! outputPath ≠ Some (Dir items)) →
        run.1 = Returned tt ∧
        nodes (sworld run.2) = <[outputPath := File svg]> (delete tempPath (nodes w))) ∧
     (∀ svg, traced = inr svg →
        nodes w !! path_dirname env outputPath = None →
        path_dirname env outputPath ≠ tempPath →
        run.1 = Thrown (FsError "ENOENT" outputPath) ∧
        nodes (sworld run.2) = delete tempPath (nodes w))).
Proof.
  intros w tempPath opts traced run Hin Hdec Hg Hn Hthr Hsteps Hmime Hparent Hdir.
  assert (posterizeOptions steps options = opts) as Hopts.
  { unfold posterizeOptions, spread, opts. symmetry. by apply insert_union_singleton_r. }
  assert (preprocessPosterized env options img w = (Returned p, w)) as Hpre.
  { unfold preprocessPosterized, bind, get. rewrite Hg. cbn [lift_sum ret]. rewrite Hn.
    by rewrite Hthr. }
  unfold run.
  rewrite (convertToPosterized_from_call inputPath outputPath steps options s bytes img p
             mime parent Hin Hdec Hpre Hmime Hparent Hdir).
  fold w tempPath. rewrite Hopts. unfold try_catch.
  set (w2 := mkWorld (<[tempPath := File (jimp_encode env p)]> (nodes w)) (sticky w)
                     (S (clock_reads w)) (random_reads w) (console w)).
  split.
  - intros e Hvalid.
    erewrite bind_Thrown
      by (apply liftS_run; cbn [sworld]; by apply posterizeAndUnlink_thrown).
    done.
  - intros Hvalid Hsticky.
    assert (liftS (posterizeAndUnlink potrace_posterize posterize_validate tempPath opts)
              (mkSession w2 (notes s ++ [(length (console w), LogPosterizing steps)]))
            = (match traced with inl e => Thrown e | inr svg => Returned svg end,
               mkSession (set_nodes (delete tempPath) w2)
                         (notes s ++ [(length (console w), LogPosterizing steps)]))) as Hcall.
    { apply liftS_run. cbn [sworld].
      apply (posterizeAndUnlink_called tempPath opts (jimp_encode env p));
        [done | cbn; apply lookup_insert_eq | exact Hsticky]. }
    assert (nodes (set_nodes (delete tempPath) w2) = delete tempPath (nodes w)) as Hnodes
      by (cbn; apply delete_insert_eq).
    split; [|split].
    + intros e He. rewrite He in Hcall. erewrite bind_Thrown by exact Hcall.
      cbn. split; [done | exact Hnodes].
    + intros svg outParent Hsvg Hop Hout. rewrite Hsvg in Hcall.
      erewrite bind_Returned by exact Hcall.
      assert (tempPath ≠ path_dirname env outputPath) as Hne
        by (intros Heq; apply (Hdir outParent); by rewrite Heq).
      erewrite bind_Returned.
      2:{ apply liftS_run. cbn [sworld].
          apply (writeFile_ok env outputPath _ _ outParent).
          - rewrite Hnodes. by rewrite lookup_delete_ne.
          - intros items. rewrite Hnodes.
            destruct (decide (tempPath = outputPath)) as [<-|Hne'].
            + by rewrite lookup_delete_eq.
            + rewrite lookup_delete_ne by done. apply Hout. }
      cbn. split; [done|]. by rewrite delete_insert_eq.
    + intros svg Hsvg Hop Hne. rewrite Hsvg in Hcall.
      erewrite bind_Returned by exact Hcall.
      erewrite bind_Thrown.
      2:{ apply liftS_run. cbn [sworld]. unfold writeFile.
          rewrite Hnodes, lookup_delete_ne, Hop by done. reflexivity. }
      cbn. split; [done|]. apply delete_insert_eq.
Qed.

End Runs.

(** C4 as stated fails for [convertToPosterized], the third function of
    the facade that takes a [ConversionOptions] record: it merges no
    default.  With the empty record the posterizer is called with
    [{ steps: 4 }] alone, where [convertFile] would pass the seven
    defaults, and the threshold step is skipped, where [convertFile]
    would apply it with 128. *)
Lemma posterizer_gets_no_defaults :
  mergeOptions ∅ !! "turdSize" = Some (VNum (Fin 2)) ∧
  posterizeOptions (Fin 4) ∅ = {[ "steps" := VNum (Fin 4) ]} ∧
  posterizeOptions (Fin 4) ∅ !! "turdSize" = None ∧
  (let run := convertToPosterized Sample.env SampleRest.posterize SampleRest.validate
                "in/a.png" "out/p.svg" (Fin 4) ∅ (mkSession Sample.world0 []) in
   run.1 = Returned tt ∧
   nodes (sworld run.2) !! "out/p.svg" = Some (File "<svg steps>PNG-a:gn</svg>")) ∧
  nodes (convertFile Sample.env "in/a.png" "out/p.svg" ∅ Sample.world0).2 !! "out/p.svg"
    = Some (File "<svg>PNG-a:gcnt</svg>").
Proof.
  split; [reflexivity|]. split; [apply posterizeOptions_empty|].
  split; [by rewrite posterizeOptions_empty|].
  split; [split|]; vm_compute; reflexivity.
Qed.

Lemma posterizeHandler_answers_500_witness :
  ∃ s', posterizeHandler Sample.env SampleRest.posterize SampleRest.validate
          (mkRequest (Some "PNG-x") {[ "steps" := "3" ]}) (mkSession Sample.world0 [])
          = (Returned (Json 500 "Failed to convert image"
                            (Some (ReferenceError "require"))), s') ∧
        notes s' = [(0%nat, ErrPosterizedConversion (ReferenceError "require"))].
Proof.
  destruct (posterizeHandler_answers_500 Sample.env SampleRest.posterize SampleRest.validate
              (mkRequest (Some "PNG-x") {[ "steps" := "3" ]}) (mkSession Sample.world0 []))
    as [_ H].
  destruct (H "PNG-x" eq_refl) as (s' & Hrun & _ & _ & Hnotes).
  exists s'. split; [exact Hrun | exact Hnotes].
Defined.

Lemma posterizeHandler_writes_nothing_witness :
  nodes (sworld (posterizeHandler Sample.env SampleRest.posterize SampleRest.validate
                   (mkRequest (Some "PNG-x") ∅) (mkSession Sample.world0 [])).2)
    !! "/tmp/temp_1700000000000.png" = None.
Proof.
  destruct (posterizeHandler_writes_nothing Sample.env SampleRest.posterize
              SampleRest.validate (mkRequest (Some "PNG-x") ∅) (mkSession Sample.world0 []))
    as [_ H].
  exact (H "PNG-x" eq_refl).
Defined.

Lemma convertToPosterized_policy_witness :
  (let run := convertToPosterized Sample.env SampleRest.posterize SampleRest.validate
                "in/bad.png" "out/bad.svg" (Fin 4) ∅ (mkSession Sample.world0 []) in
   run.1 = Thrown (TraceError "posterize failed") ∧
   nodes (sworld run.2)
     = delete "in/bad.temp-posterize_1700000000000.png" (nodes Sample.world0)) ∧
  (let run := convertToPosterized Sample.env SampleRest.posterize SampleRest.validate
                "in/a.png" "out/a.svg" (Fin (-3)) ∅ (mkSession Sample.world0 []) in
   run.1 = Thrown (TraceError "Bad 'steps' value") ∧
   nodes (sworld run.2)
     = <["in/a.temp-posterize_1700000000000.png" := File "PNG-a:gn"]> (nodes Sample.world0)).
Proof.
  split.
  - destruct (convertToPosterized_policy Sample.env SampleRest.posterize SampleRest.validate
                "in/bad.png" "out/bad.svg" (Fin 4) ∅ (mkSession Sample.world0 [])
                "PNG!bad" ("PNG!bad", []) ("PNG!bad", [Greyscale])
                ("PNG!bad", [Greyscale; Normalize]) "image/png"
                ["a.png"; "B.PNG"; "notes.txt"; "bad.png"; "sub"])
      as [_ Hcalled];
      [reflexivity | reflexivity | reflexivity | reflexivity | reflexivity | reflexivity
      | reflexivity | reflexivity | intros items H; vm_compute in H; discriminate H | ].
    destruct Hcalled as (Hfail & _); [reflexivity | apply not_elem_of_empty |].
    apply (Hfail (TraceError "posterize failed")). reflexivity.
  - destruct (convertToPosterized_policy Sample.env SampleRest.posterize SampleRest.validate
                "in/a.png" "out/a.svg" (Fin (-3)) ∅ (mkSession Sample.world0 [])
                "PNG-a" ("PNG-a", []) ("PNG-a", [Greyscale])
                ("PNG-a", [Greyscale; Normalize]) "image/png"
                ["a.png"; "B.PNG"; "notes.txt"; "bad.png"; "sub"])
      as [Hthrown _];
      [reflexivity | reflexivity | reflexivity | reflexivity | reflexivity | reflexivity
      | reflexivity | reflexivity | intros items H; vm_compute in H; discriminate H | ].
    apply (Hthrown (TraceError "Bad 'steps' value")). reflexivity.
Defined.

End PosterizeFacts.

(* ===================================================================== *)
(** ** Facts about the options of the [cli.ts] commands *)
(* ===================================================================== *)

Module CliFacts.
Import JS Eff Converter Posterize Cli EffFacts ConverterFacts.
Local Open Scope eff_scope.

(** A preset holds no other property than these five. *)
Lemma getPresetOptions_keys (p k : string) :
  k ≠ "threshold" → k ≠ "turdSize" → k ≠ "optCurve" → k ≠ "optTolerance" →
  k ≠ "turnPolicy" → getPresetOptions p !! k = None.
Proof.
  intros. unfold getPresetOptions.
  repeat case_match; rewrite ?lookup_insert_ne by done;
    try apply lookup_singleton_ne; try apply lookup_empty; done.
Qed.

Lemma presetOptions_keys (p : option string) (k : string) :
  k ≠ "threshold" → k ≠ "turdSize" → k ≠ "optCurve" → k ≠ "optTolerance" →
  k ≠ "turnPolicy" → presetOptions p !! k = None.
Proof.
  intros. unfold presetOptions. destruct p as [p|]; [|apply lookup_empty].
  destruct (str_truthy p); [by apply getPresetOptions_keys | apply lookup_empty].
Qed.

Section WithParseFloat.
Context (parseFloat : string → number).

(** X12.  In the [convert] command the four valued options that have a
    declared default ([--threshold], [--turd-size], [--opt-tolerance],
    [--turn-policy]) are never empty, so each overwrites what the preset
    set: of the options handed to the converter, only [optCurve] can
    depend on [--preset]. *)
Theorem convert_preset_changes_optCurve_only
    (t s : string) (a : option string) (oc : option bool) (ot tp : string)
    (bw : option bool) (p1 p2 : option string) (k : string) :
  str_truthy t = true → str_truthy s = true →
  str_truthy ot = true → str_truthy tp = true →
  k ≠ "optCurve" →
  convertOptionsOf parseFloat
    (mkConvertFlags (Some t) (Some s) a oc (Some ot) (Some tp) bw p1) !! k
  = convertOptionsOf parseFloat
      (mkConvertFlags (Some t) (Some s) a oc (Some ot) (Some tp) bw p2) !! k.
Proof.
  intros Ht Hs Hot Htp Hk. unfold convertOptionsOf.
  cbn [threshold turdSize alphaMax optCurve optTolerance turnPolicy blackOnWhite preset].
  rewrite Ht, Hs, Hot, Htp.
  assert (∀ (m1 m2 : obj) key v,
            (k ≠ key → m1 !! k = m2 !! k) → <[key := v]> m1 !! k = <[key := v]> m2 !! k)
    as Hins.
  { intros m1 m2 key v H. destruct (decide (k = key)) as [->|Hne].
    - by rewrite !lookup_insert_eq.
    - rewrite !lookup_insert_ne by done. by apply H. }
  destruct bw as [[]|]; destruct oc as [[]|]; destruct a as [a|];
    try destruct (str_truthy a);
    repeat (apply Hins; intros ?);
    rewrite !presetOptions_keys by done; done.
Qed.

End WithParseFloat.

(** X11.  In the [posterize] command a non-empty [--threshold] (the
    declared default is ['128']) is always passed on, so the posterizer's
    preprocessing always applies the threshold operation with the parsed
    value, whatever the preset says. *)
Theorem posterize_command_thresholds (env : Env) (flags : PosterizeFlags) (t : string)
    (img : image env) (w : World) :
  pthreshold flags = Some t → str_truthy t = true →
  preprocessPosterized env (posterizeConversionOptions flags) img w =
    (let* g := lift_sum (jimp_apply env Greyscale img) in
     let* n := lift_sum (jimp_apply env Normalize g) in
     lift_sum (jimp_apply env (Threshold (VNum (parseInt t))) n)) w.
Proof.
  intros Hthr Ht. unfold preprocessPosterized, posterizeConversionOptions, get.
  rewrite Hthr, Ht, lookup_insert_eq. reflexivity.
Qed.

Lemma convert_preset_changes_optCurve_only_witness :
  convertOptionsOf (fun _ => NaN)
    (mkConvertFlags (Some "128") (Some "2") (Some "1") (Some true) (Some "0.2")
                    (Some "minority") (Some true) (Some "photo")) !! "threshold"
  = convertOptionsOf (fun _ => NaN)
      (mkConvertFlags (Some "128") (Some "2") (Some "1") (Some true) (Some "0.2")
                      (Some "minority") (Some true) None) !! "threshold".
Proof.
  apply (convert_preset_changes_optCurve_only (fun _ => NaN) "128" "2" (Some "1") (Some true)
           "0.2" "minority" (Some true) (Some "photo") None "threshold");
    try reflexivity.
  discriminate.
Defined.

Lemma posterize_command_thresholds_witness :
  preprocessPosterized Sample.env
    (posterizeConversionOptions (mkPosterizeFlags (Some "4") (Some "128") (Some "photo")))
    ("PNG-a", []) Sample.world0
  = (Returned ("PNG-a", [Greyscale; Normalize; Threshold (VNum (Fin 128))]), Sample.world0).
Proof.
  rewrite (posterize_command_thresholds Sample.env
             (mkPosterizeFlags (Some "4") (Some "128") (Some "photo")) "128"
             ("PNG-a", []) Sample.world0); reflexivity.
Defined.

End CliFacts.

(* ===================================================================== *)
(** ** Facts about the REST handlers *)
(* ===================================================================== *)

Module RestFacts.
Import JS Eff Converter Session Server Rest EffFacts ConverterFacts.
Local Open Scope eff_scope.

Section Handlers.
Context (env : Env).

(** X13.  The handler of [POST /api/convert] answers every request and
    never throws: 400 when no file was uploaded (and then nothing was
    printed or written), the SVG text when [convertBuffer] returned, 500
    with the error when it threw. *)
Theorem convertHandler_responds (req : Request) (w : World) :
  ∃ resp w',
    convertHandler env req w = (Returned resp, w') ∧
    match file req with
    | None => resp = Json 400 "No image file provided" None ∧ w' = w
    | Some buffer =>
        match fst (convertBuffer env buffer (parseOptions (body req))
                                 (logged (LogOptions (parseOptions (body req))) w)) with
        | Returned svg => resp = Svg svg
        | Thrown e => resp = Json 500 "Failed to convert image" (Some e)
        | _ => False
        end
    end.
Proof.
  unfold convertHandler, try_catch. destruct (file req) as [buffer|].
  - unfold bind at 1. cbn [log modify].
    set (options := parseOptions (body req)). set (w1 := logged _ w).
    unfold bind.
    destruct (settles_convertBuffer env buffer options w1) as (w2 & [[svg H]|[e H]]);
      rewrite H; cbn; eauto.
  - eexists _, _. split; [reflexivity|]. done.
Qed.

(** One pass of the loop of the bulk handler: it returns, with one more
    result and one more in [successful] or in [failed]. *)
Lemma bulkLoop_run (options : obj) (files : list Upload) :
  ∀ i results successful failed s,
    ∃ more successful' failed' s',
      bulkLoop env options files i results successful failed s
        = (Returned (results ++ more, successful', failed'), s') ∧
      length more = length files ∧
      (successful' + failed' = successful + failed + length files)%nat ∧
      successful' = (successful + length (filter (λ r, success r = true) more))%nat ∧
      ∀ j r, more !! j = Some r →
        ∃ file, files !! j = Some file ∧
                filename r = filenameOf (i + j) file ∧
                match r with
                | Converted _ svgFilename svg size =>
                    svgFilename = replace_png_ext (filenameOf (i + j) file) ∧
                    size = String.length svg
                | NotConverted _ _ => True
                end.
Proof.
  induction files as [|file files IH]; intros i results successful failed s.
  - exists [], successful, failed, s. cbn. rewrite app_nil_r.
    split_and!; try done; lia.
  - cbn [bulkLoop]. unfold bind at 1. unfold try_catch.
    unfold bind at 1. cbn [logNote modify].
    set (s1 := noted _ s).
    unfold bind at 1. unfold liftS at 1.
    destruct (settles_convertBuffer env (buffer file) options (sworld s1))
      as (w2 & [[svg H]|[e H]]); rewrite H; cbn [ret fst snd].
    + destruct (IH (S i) (results ++ [Converted (filenameOf i file)
                                        (replace_png_ext (filenameOf i file)) svg
                                        (String.length svg)])
                   (S successful) failed (mkSession w2 (notes s1)))
        as (more & successful' & failed' & s' & Hrun & Hlen & Hsum & Hsucc & Hnth).
      eexists (_ :: more), successful', failed', s'.
      rewrite Hrun, <- app_assoc. split; [done|].
      split; [cbn; by rewrite Hlen|]. split; [cbn; lia|].
      split; [rewrite filter_cons_True by done; cbn; lia|].
      intros [|j] r Hj; cbn in Hj.
      * injection Hj as <-. exists file. rewrite Nat.add_0_r. done.
      * destruct (Hnth j r Hj) as (file' & Hf & Hn & Hr).
        exists file'. replace (i + S j)%nat with (S i + j)%nat by lia. done.
    + unfold bind at 1. cbn [logNote modify].
      set (s2 := noted _ _).
      destruct (IH (S i) (results ++ [NotConverted (filenameOf i file) e])
                   successful (S failed) s2)
        as (more & successful' & failed' & s' & Hrun & Hlen & Hsum & Hsucc & Hnth).
      eexists (_ :: more), successful', failed', s'.
      cbn [ret fst snd]. rewrite Hrun, <- app_assoc. split; [done|].
      split; [cbn; by rewrite Hlen|]. split; [cbn; lia|].
      split; [rewrite filter_cons_False by done; cbn; lia|].
      intros [|j] r Hj; cbn in Hj.
      * injection Hj as <-. exists file. rewrite Nat.add_0_r. done.
      * destruct (Hnth j r Hj) as (file' & Hf & Hn & Hr).
        exists file'. replace (i + S j)%nat with (S i + j)%nat by lia. done.
Qed.


(** X14.  The handler of [POST /api/bulk-convert], given at least one
    file, always answers with the summary and the results, never with
    status 500: a file that fails is reported in its result.  [total] is
    the number of files, there is one result per file,
    [successful + failed = total], and [successful] counts the results
    whose [success] is [true]. *)
Theorem bulkHandler_summary (files : list Upload) (body : gmap string string) (s : Session) :
  files ≠ [] →
  ∃ summary results s',
    bulkHandler env (Some files) body s = (Returned (BulkJson summary results), s') ∧
    total summary = length files ∧
    length results = length files ∧
    (successful summary + failed summary = length files)%nat ∧
    successful summary = length (filter (λ r, success r = true) results).
Proof.
  intros Hne. unfold bulkHandler, try_catch. destruct files as [|file files]; [done|].
  unfold bind at 1. cbn [logNote modify].
  set (s1 := noted _ s). unfold bind at 1.
  destruct (bulkLoop_run (parseOptions body) (file :: files) 0 [] 0 0 s1)
    as (more & successful' & failed' & s' & Hrun & Hlen & Hsum & Hsucc & _).
  rewrite Hrun. unfold bind, liftS, dateNow. cbn.
  eexists _, _, _. split; [reflexivity|]. cbn in *. split_and!; try done; lia.
Qed.

(** X15.  The results of a bulk request are in the order of the upload:
    the result at index [i] is the one of the file at index [i]; its
    [filename] is the file's original name, or [image_<i+1>.png] when that
    name is empty; a successful result carries the name with its [.png]
    ending (in any case) replaced by [.svg], and the length of the SVG
    text as [size]. *)
Theorem bulkHandler_results_in_order (files : list Upload) (body : gmap string string)
    (s : Session) (i : nat) (file : Upload) :
  files !! i = Some file →
  ∃ summary results s' r,
    bulkHandler env (Some files) body s = (Returned (BulkJson summary results), s') ∧
    results !! i = Some r ∧
    filename r = (if str_truthy (originalname file) then originalname file
                  else "image_" +:+ show_N (N.of_nat (i + 1)) +:+ ".png") ∧
    match r with
    | Converted _ svgFilename svg size =>
        svgFilename = replace_png_ext (filename r) ∧ size = String.length svg
    | NotConverted _ _ => True
    end.
Proof.
  intros Hi. unfold bulkHandler, try_catch.
  destruct files as [|file0 files]; [done|].
  unfold bind at 1. cbn [logNote modify].
  set (s1 := noted _ s). unfold bind at 1.
  destruct (bulkLoop_run (parseOptions body) (file0 :: files) 0 [] 0 0 s1)
    as (more & successful' & failed' & s' & Hrun & Hlen & _ & _ & Hnth).
  rewrite Hrun. unfold bind, liftS, dateNow. cbn [fst snd ret].
  assert (is_Some (more !! i)) as [r Hr].
  { apply lookup_lt_is_Some. rewrite Hlen. by eapply lookup_lt_Some. }
  destruct (Hnth i r Hr) as (file' & Hf & Hn & Hm).
  rewrite Hi in Hf. injection Hf as <-. cbn [Nat.add] in Hn, Hm.
  eexists _, _, _, r. split; [reflexivity|]. split; [exact Hr|].
  split; [exact Hn|]. destruct r; [|done]. by rewrite Hn.
Qed.

End Handlers.

(** X16.  The upload filter accepts exactly the MIME type [image/png];
    the error it raises for any other type is the one the error
    middleware answers with status 400 and the same message, not with
    500. *)
Theorem rejected_upload_answers_400 (mimetype : string) :
  match fileFilter mimetype with
  | inr accepted => accepted = true ∧ mimetype = "image/png"
  | inl error =>
      mimetype ≠ "image/png" ∧
      errorMiddleware error = Json 400 "Only PNG files are allowed" None
  end.
Proof.
  unfold fileFilter. destruct (String.eqb_spec mimetype "image/png"); done.
Qed.

Lemma bulkHandler_summary_witness :
  ∃ summary results s',
    bulkHandler Sample.env (Some [mkUpload "a.PNG" "PNG-a"; mkUpload "" "GIF89a"]) ∅
                (mkSession Sample.world0 [])
      = (Returned (BulkJson summary results), s') ∧
    total summary = 2%nat ∧
    (successful summary + failed summary = 2)%nat.
Proof.
  destruct (bulkHandler_summary Sample.env
              [mkUpload "a.PNG" "PNG-a"; mkUpload "" "GIF89a"] ∅
              (mkSession Sample.world0 []))
    as (summary & results & s' & Hrun & Htotal & _ & Hsum & _).
  - discriminate.
  - exists summary, results, s'. split; [exact Hrun|]. split; [exact Htotal | exact Hsum].
Defined.

Lemma bulkHandler_results_in_order_witness :
  ∃ summary results s' r,
    bulkHandler Sample.env (Some [mkUpload "a.PNG" "PNG-a"; mkUpload "" "GIF89a"]) ∅
                (mkSession Sample.world0 [])
      = (Returned (BulkJson summary results), s') ∧
    results !! 1%nat = Some r ∧
    filename r = "image_2.png".
Proof.
  destruct (bulkHandler_results_in_order Sample.env
              [mkUpload "a.PNG" "PNG-a"; mkUpload "" "GIF89a"] ∅
              (mkSession Sample.world0 []) 1 (mkUpload "" "GIF89a"))
    as (summary & results & s' & r & Hrun & Hr & Hname & _).
  - reflexivity.
  - exists summary, results, s', r. split; [exact Hrun|]. split; [exact Hr | exact Hname].
Defined.

End RestFacts.

(* ===================================================================== *)
(** ** More facts about the bulk driver *)
(* ===================================================================== *)

Module DriverFacts.
Import JS Eff Converter Bulk EffFacts ConverterFacts BulkFacts.
Local Open Scope eff_scope.

Section Discovery.
Context (env : Env).

(** X17.  Without [recursive], the search of a directory whose entries
    all exist returns, in the order of the listing, the joined paths of
    the entries that are regular files and whose name ends in [.png] in
    any case; a directory is never returned, whatever its name, and the
    file system is only read. *)
Theorem findPngFiles_flat (dir : string) (recursive : option bool) (items : list string)
    (w : World) :
  (0 < max_depth env)%nat →
  recursive ≠ Some true →
  nodes w !! dir = Some (Dir items) →
  (∀ item, item ∈ items → is_Some (nodes w !! path_join env dir item)) →
  findPngFiles env dir recursive w =
    (Returned
       (map (path_join env dir)
            (List.filter
               (λ item, match nodes w !! path_join env dir item with
                        | Some (File _) => endsWith (toLowerCase item) ".png"
                        | _ => false
                        end) items)),
     w).
Proof.
  intros Hdepth Hrec Hdir Hitems. unfold findPngFiles.
  assert (default false recursive = false) as -> by (by destruct recursive as [[]|]).
  destruct (max_depth env) as [|depth]; [lia|].
  cbn [searchDir]. unfold bind at 1. unfold readdirSync. rewrite Hdir.
  clear Hdir.
  match goal with
  | |- ?each items [] w = (Returned ?found, w) =>
      enough (∀ files, each items files w = (Returned (files ++ found), w)) as H
        by exact (H [])
  end.
  induction items as [|item items IH]; intros files.
  - cbn. by rewrite app_nil_r.
  - unfold bind at 1. unfold statSync.
    destruct (Hitems item) as [node Hnode]; [by left|]. rewrite Hnode.
    assert (∀ item', item' ∈ items → is_Some (nodes w !! path_join env dir item')) as Hrest
      by (intros item' H; apply Hitems; by right).
    destruct node as [bytes|sub]; cbn [isDirectory isFile andb]; unfold bind at 1.
    + cbn [List.filter]. rewrite Hnode.
      destruct (endsWith (toLowerCase item) ".png"); cbn [ret].
      * rewrite (IH Hrest). cbn [map]. by rewrite <- app_assoc.
      * by rewrite (IH Hrest).
    + cbn [ret List.filter]. rewrite Hnode. by rewrite (IH Hrest).
Qed.


Lemma liftW_run {A} (m : M World A) (s : BulkState) r w' :
  m (world s) = (r, w') → liftW m s = (r, mkState (stats s) w').
Proof. intros H. unfold liftW. by rewrite H. Qed.


End Discovery.

Section Parallel.
Context (env : Env).

Lemma Qceiling_nonpos (x : Q) : (x <= 0)%Q → Qceiling x ≤ 0.
Proof.
  intros Hx. destruct (Z.le_gt_cases (Qceiling x) 0) as [|H]; [done|].
  pose proof (Qceiling_lt x) as Hc.
  assert (0 <= inject_Z (Qceiling x - 1))%Q as H0 by (rewrite <- (Zle_Qle 0); lia).
  lra.
Qed.

(** X19.  With a negative [maxWorkers] the chunk size
    [ceil(count / maxWorkers)] is zero or negative, and the loop of
    [chunkArray] never ends on a non-empty file list: [convertInParallel]
    prints its first line and does not return; no file is converted. *)
Theorem convertInParallel_diverges (schedule : list nat) (files : list string)
    (inputDir outputDir : string) (options : BulkConversionOptions) (q : Q) (s : BulkState) :
  files ≠ [] →
  maxWorkers options = Some (Fin q) → (q < 0)%Q →
  convertInParallel env schedule files inputDir outputDir options s
    = (Diverged, mkState (stats s) (logged (LogParallel (Fin q)) (world s))).
Proof.
  intros Hne Hw Hq. unfold convertInParallel, maxWorkersOf. rewrite Hw.
  assert (num_truthy (Fin q) = true) as ->.
  { cbn. destruct (Qeq_bool q 0) eqn:E; [|done]. apply Qeq_bool_iff in E. lra. }
  erewrite bind_Returned by reflexivity.
  unfold chunkArray. rewrite chunkArray_loop_never_ends; [reflexivity| |exact Hne|done].
  unfold chunkSizeOf. apply Qceiling_nonpos.
  set (a := inject_Z (Z.of_nat (length files))).
  assert (0 <= a)%Q as Ha by (unfold a; rewrite <- (Zle_Qle 0); lia).
  assert (a / q * q == a)%Q as E by (field; lra).
  nra.
Qed.

End Parallel.

(** *** Destinations *)

Lemma append_cons (c : ascii) (a b : string) : String c a +:+ b = String c (a +:+ b).
Proof. reflexivity. Qed.

Lemma toLowerCase_append (a b : string) :
  toLowerCase (a +:+ b) = toLowerCase a +:+ toLowerCase b.
Proof.
  induction a as [|c a IH]; [done|].
  rewrite append_cons. cbn [toLowerCase]. by rewrite append_cons, IH.
Qed.

Lemma toLowerCase_length (s : string) : String.length (toLowerCase s) = String.length s.
Proof.
  induction s as [|c s IH]; [done|]. cbn [toLowerCase String.length]. by rewrite IH.
Qed.

Lemma substring_append_skip (a b : string) (m : nat) :
  String.substring (String.length a) m (a +:+ b) = String.substring 0 m b.
Proof.
  induction a as [|c a IH]; [done|].
  rewrite append_cons. cbn [String.length String.substring]. exact IH.
Qed.

Lemma substring_append_take (a b : string) :
  String.substring 0 (String.length a) (a +:+ b) = a.
Proof.
  induction a as [|c a IH]; [by destruct b|].
  rewrite append_cons. cbn [String.length String.substring]. by rewrite IH.
Qed.

(** X20.  The destination name ignores the case of the extension: a name
    that ends in [.png] in any mix of cases maps to the same stem with
    [.svg], so [a.png] and [a.PNG] have the same destination. *)
Theorem replace_png_ext_any_case (stem ext : string) :
  toLowerCase ext = ".png" →
  replace_png_ext (stem +:+ ext) = stem +:+ ".svg".
Proof.
  intros Hext.
  assert (String.length ext = 4%nat) as Hlen
    by (rewrite <- toLowerCase_length, Hext; reflexivity).
  unfold replace_png_ext, endsWith.
  rewrite toLowerCase_length, toLowerCase_append, Hext, !length_append, Hlen.
  cbn [String.length].
  replace (String.length stem + 4 - 4)%nat with (String.length (toLowerCase stem))
    by (rewrite toLowerCase_length; lia).
  rewrite substring_append_skip. cbn [String.substring].
  assert ((4 <=? String.length stem + 4)%nat = true) as -> by (apply Nat.leb_le; lia).
  cbn. rewrite toLowerCase_length, substring_append_take. reflexivity.
Qed.

(** *** The size filter *)

(** X21.  With both bounds set and not zero, the size filter on files
    that exist keeps, in order, exactly the files whose size in units of
    1024 bytes lies between [min] and [max], the bounds included; it only
    reads the file system. *)
Theorem filterBySize_in_range (files : list string) (a b : Q) (w : World) :
  ¬ (a == 0)%Q → ¬ (b == 0)%Q →
  (∀ file, file ∈ files → ∃ bytes, nodes w !! file = Some (File bytes)) →
  filterBySize files (Some (mkSizeFilter (Some (Fin a)) (Some (Fin b)))) w =
    (Returned
       (List.filter
          (λ file, match nodes w !! file with
                   | Some (File bytes) =>
                       Qle_bool a (Z.of_nat (String.length bytes) # 1024)
                       && Qle_bool (Z.of_nat (String.length bytes) # 1024) b
                   | _ => false
                   end) files),
     w).
Proof.
  intros Ha Hb Hfiles. cbn [filterBySize].
  enough (∀ filtered,
            filterLoop (mkSizeFilter (Some (Fin a)) (Some (Fin b))) files filtered w =
              (Returned
                 (filtered ++
                  List.filter
                    (λ file, match nodes w !! file with
                             | Some (File bytes) =>
                                 Qle_bool a (Z.of_nat (String.length bytes) # 1024)
                                 && Qle_bool (Z.of_nat (String.length bytes) # 1024) b
                             | _ => false
                             end) files), w)) as H by exact (H []).
  induction files as [|file files IH]; intros filtered.
  - cbn. by rewrite app_nil_r.
  - destruct (Hfiles file) as [bytes Hfile]; [by left|].
    assert (∀ file', file' ∈ files → ∃ bytes', nodes w !! file' = Some (File bytes')) as Hrest
      by (intros file' H; apply Hfiles; by right).
    cbn [filterLoop List.filter]. unfold bind, statSync. rewrite Hfile. cbn [size].
    pose proof (keptBySize_nonzero_bounds a b (N.of_nat (String.length bytes)) Ha Hb) as Hk.
    rewrite nat_N_Z in Hk.
    destruct (keptBySize _ _) eqn:Ekept.
    + destruct Hk as [Hk _]. destruct (Hk eq_refl) as [H1 H2].
      apply Qle_bool_iff in H1, H2. rewrite H1, H2. cbn [andb].
      rewrite (IH Hrest). by rewrite <- app_assoc.
    + assert (Qle_bool a (Z.of_nat (String.length bytes) # 1024)
              && Qle_bool (Z.of_nat (String.length bytes) # 1024) b = false) as ->.
      { apply not_true_is_false. intros H. apply andb_true_iff in H as [H1 H2].
        apply Qle_bool_iff in H1, H2. destruct Hk as [_ Hk].
        specialize (Hk (conj H1 H2)). discriminate Hk. }
      by rewrite (IH Hrest).
Qed.

Lemma findPngFiles_flat_witness :
  findPngFiles Sample.env "in" None Sample.world0
    = (Returned ["in/a.png"; "in/B.PNG"; "in/bad.png"], Sample.world0).
Proof.
  rewrite (findPngFiles_flat Sample.env "in" None
             ["a.png"; "B.PNG"; "notes.txt"; "bad.png"; "sub"] Sample.world0).
  - reflexivity.
  - cbn. lia.
  - discriminate.
  - reflexivity.
  - intros item H.
    repeat (apply elem_of_cons in H as [->|H]); [..|by apply elem_of_nil in H];
      (eexists; vm_compute; reflexivity).
Defined.


Lemma convertInParallel_diverges_witness :
  fst (convertInParallel Sample.env [] ["in/a.png"; "in/bad.png"] "in" "out"
         (mkOptions None None None None None (Some true) (Some (Fin (-2))) None None None)
         (mkState initialStats Sample.world0))
    = Diverged.
Proof.
  rewrite (convertInParallel_diverges Sample.env [] ["in/a.png"; "in/bad.png"] "in" "out"
             (mkOptions None None None None None (Some true) (Some (Fin (-2))) None None None)
             (-2) (mkState initialStats Sample.world0)).
  - reflexivity.
  - discriminate.
  - reflexivity.
  - reflexivity.
Defined.

Lemma replace_png_ext_any_case_witness :
  replace_png_ext ("logo" +:+ ".PnG") = "logo" +:+ ".svg".
Proof. apply (replace_png_ext_any_case "logo" ".PnG"). reflexivity. Defined.

Lemma filterBySize_in_range_witness :
  filterBySize ["in/a.png"; "in/bad.png"]
               (Some (mkSizeFilter (Some (Fin (1 # 1024))) (Some (Fin (5 # 1024)))))
               Sample.world0
    = (Returned ["in/a.png"], Sample.world0).
Proof.
  rewrite (filterBySize_in_range ["in/a.png"; "in/bad.png"] (1 # 1024) (5 # 1024)
             Sample.world0).
  - reflexivity.
  - intros H. discriminate H.
  - intros H. discriminate H.
  - intros file H.
    repeat (apply elem_of_cons in H as [->|H]); [..|by apply elem_of_nil in H];
      (eexists; vm_compute; reflexivity).
Defined.

End DriverFacts.

(* ===================================================================== *)
(** ** Facts about the command line of the bulk driver *)
(* ===================================================================== *)

Module BulkCliFacts.
Import JS Eff Converter Bulk BulkCli.

Lemma to_double_integral (z : Z) : integral (to_double z).
Proof.
  unfold to_double, integral. cbv zeta.
  destruct (Z.abs z <? _); [eauto|].
  destruct (2 ^ 1024 <=? _); eauto.
Qed.

Lemma parseInt_integral (s : string) : integral (parseInt s).
Proof.
  unfold parseInt.
  destruct (skip_spaces s) as [|c r].
  - cbn. by left.
  - repeat case_match; simplify_eq; try apply to_double_integral; by left.
Qed.

Lemma parseIntArg_integral (value : option string) : integral (parseIntArg value).
Proof. destruct value; [apply parseInt_integral | by left]. Qed.

(** Beyond [2^53] the result is the nearest double, and from [2^1024] on
    it is an infinity. *)
Lemma parseInt_rounds :
  parseInt "9007199254740993" = Fin 9007199254740992 ∧
  parseInt "-9007199254740995" = Fin (-9007199254740996) ∧
  parseInt (String.concat "" (replicate 310 "9")) = Inf false.
Proof. split_and!; vm_compute; reflexivity. Qed.

Lemma setSwitch_expressible flag o : expressible o → expressible (setSwitch flag o).
Proof.
  unfold expressible, setSwitch. intros (H1 & H2 & H3 & H4 & H5 & H6 & H7 & H8 & H9).
  repeat case_match; cbn; split_and!; done.
Qed.

Lemma setValued_expressible flag value o : expressible o → expressible (setValued flag value o).
Proof.
  unfold expressible, setValued, withMin, withMax, integral_opt.
  intros (H1 & H2 & H3 & H4 & H5 & H6 & H7 & H8 & H9).
  pose proof (parseIntArg_integral value) as Hv.
  destruct (filterSize o) as [sf0|] eqn:Hfs;
    repeat case_match; cbn; split_and!; try done;
    try (by intros n [= <-]);
    intros sf Hsf; simplify_eq; cbn; try (by apply H9);
    (split; try (by intros n [= <-])); try done;
    by destruct (H9 sf0 eq_refl).
Qed.

Lemma parseFlags_cons (flag : string) (rest : list string) (o : BulkConversionOptions) :
  parseFlags (flag :: rest) o =
    if isSwitch flag then parseFlags rest (setSwitch flag o)
    else match rest with
         | [] => setValued flag None o
         | value :: rest' => parseFlags rest' (setValued flag (Some value) o)
         end.
Proof. reflexivity. Qed.

Lemma parseFlags_expressible (args : list string) :
  ∀ o, expressible o → expressible (parseFlags args o).
Proof.
  assert (∀ n args, (length args ≤ n)%nat →
            ∀ o, expressible o → expressible (parseFlags args o)) as H.
  { clear args. induction n as [|n IH]; intros args Hlen o Ho.
    - destruct args; [done | cbn in Hlen; lia].
    - destruct args as [|flag rest]; [done|]. rewrite parseFlags_cons.
      cbn [length] in Hlen.
      destruct (isSwitch flag).
      + apply IH; [lia | by apply setSwitch_expressible].
      + destruct rest as [|value rest']; [by apply setValued_expressible|].
        apply IH; [cbn [length] in Hlen; lia | by apply setValued_expressible]. }
  by apply (H (length args)).
Qed.

(** X22.  Whatever the arguments of the bulk command line, the options
    it passes to [convertDirectory] are within what its flags can say:
    [turdSize], [optCurve] and [turnPolicy] are never set, a switch is
    never set to [false], and every number ([threshold], [maxWorkers],
    the bounds of the size filter) is an integer, [NaN] or an infinity,
    never a fraction.  The directories are the first two arguments. *)
Theorem parseArgs_expressible (args : list string) inputDir outputDir options :
  parseArgs args = Some (inputDir, outputDir, options) →
  args !! 0%nat = Some inputDir ∧ args !! 1%nat = Some outputDir ∧ expressible options.
Proof.
  destruct args as [|a [|b flags]]; try done. cbn. intros [= <- <- <-].
  split_and!; try done.
  apply parseFlags_expressible. unfold expressible, emptyOptions, integral_opt. cbn.
  split_and!; done.
Qed.

Lemma parseArgs_expressible_witness :
  expressible
    (parseFlags ["--min-size"; "0.5"; "--parallel"; "--max-workers"; "-2"; "--preset"]
                emptyOptions).
Proof.
  apply (parseArgs_expressible
           ["in"; "out"; "--min-size"; "0.5"; "--parallel"; "--max-workers"; "-2"; "--preset"]
           "in" "out"
           (parseFlags ["--min-size"; "0.5"; "--parallel"; "--max-workers"; "-2"; "--preset"]
                       emptyOptions)).
  reflexivity.
Defined.

End BulkCliFacts.

(* ===================================================================== *)
(** ** The two entry points agree; the search feeds the filter *)
(* ===================================================================== *)

Module AgreementFacts.
Import JS Eff Converter Bulk EffFacts ConverterFacts BulkFacts FrameFacts.
Local Open Scope eff_scope.

Section Agreement.
Context (env : Env).

Lemma jimpRead_inv path w img w' :
  jimpRead env path w = (Returned img, w') →
  w' = w ∧ ∃ bytes, nodes w !! path = Some (File bytes) ∧ jimp_decode env bytes = inr img.
Proof.
  unfold jimpRead, bind, existsSync, gets, readFile.
  destruct (bool_decide _); [|discriminate].
  destruct (nodes w !! path) as [[bytes|items]|]; try discriminate.
  intros H. apply lift_sum_inv in H as [Hdec ->]. split; [done|]. by exists bytes.
Qed.

(** The promise around the tracer is resolved only with what the tracer
    made, under these options, of the file it was given. *)
Lemma traced_inv (callback : string → error + string → M World string) tempPath opts bytes
    svg w w' :
  (∀ r w1 w2, callback tempPath r w1 = (Returned svg, w2) → r = inr svg) →
  nodes w !! tempPath = Some (File bytes) →
  (traceCall env opts ;;;
   let* r := gets (traceResult env tempPath opts) in
   callback tempPath r) w = (Returned svg, w') →
  potrace_validate env opts = None ∧ potrace_trace env bytes opts = inr svg.
Proof.
  intros Hcb Hfile H.
  apply bind_inv_Returned in H as ([] & w1 & Hcall & H).
  unfold traceCall in Hcall.
  destruct (potrace_validate env opts) as [e|]; [discriminate|]. injection Hcall as <-.
  apply bind_inv_Returned in H as (r & w2 & Hr & H). injection Hr as <- <-.
  apply Hcb in H. unfold traceResult in H. rewrite Hfile in H. done.
Qed.

(** C4 (as amended).  In [convertFile] and in [convertBuffer] the options
    are the supplied record spread over the defaults: a supplied property
    overrides the default of the same name, and each of the seven
    properties that is not supplied takes its documented default.  These
    merged options are what the threshold step reads and what the tracer
    is called with: whenever [convertFile] returns, the output file holds
    what the tracer made, under the merged options, of the image
    preprocessed under the merged options, and whenever [convertBuffer]
    returns, it returns that. *)
Theorem facade_merges_defaults inputPath outputPath pngBuffer options (k : string) w :
  (∀ v, options !! k = Some v → mergeOptions options !! k = Some v) ∧
  (options !! k = None → mergeOptions options !! k = defaultOptions !! k) ∧
  defaultOptions !! "threshold" = Some (VNum (Fin 128)) ∧
  defaultOptions !! "turdSize" = Some (VNum (Fin 2)) ∧
  defaultOptions !! "alphaMax" = Some (VNum (Fin 1)) ∧
  defaultOptions !! "optCurve" = Some (VBool true) ∧
  defaultOptions !! "optTolerance" = Some (VNum (Fin 0.2)) ∧
  defaultOptions !! "turnPolicy" = Some (VStr "minority") ∧
  defaultOptions !! "blackOnWhite" = Some (VBool true) ∧
  dom defaultOptions = {[ "threshold"; "turdSize"; "alphaMax"; "optCurve";
                          "optTolerance"; "turnPolicy"; "blackOnWhite" ]} ∧
  (∀ w', convertFile env inputPath outputPath options w = (Returned tt, w') →
     ∃ bytes img p svg,
       nodes w !! inputPath = Some (File bytes) ∧
       jimp_decode env bytes = inr img ∧
       fst (preprocess env (mergeOptions options) img w) = Returned p ∧
       potrace_validate env (mergeOptions options) = None ∧
       potrace_trace env (jimp_encode env p) (mergeOptions options) = inr svg ∧
       nodes w' !! outputPath = Some (File svg)) ∧
  (∀ svg w', convertBuffer env pngBuffer options w = (Returned svg, w') →
     ∃ img p,
       jimp_decode env pngBuffer = inr img ∧
       fst (preprocess env (mergeOptions options) img w) = Returned p ∧
       potrace_validate env (mergeOptions options) = None ∧
       potrace_trace env (jimp_encode env p) (mergeOptions options) = inr svg).
Proof.
  split; [intros v; apply mergeOptions_supplied|].
  split; [apply mergeOptions_missing|].
  do 8 (split; [reflexivity|]).
  split.
  - intros w' H. unfold convertFile, try_catch in H.
    match type of H with
    | (let (_, _) := ?body w in _) = _ => destruct (body w) as [[[]|e|e|] w2] eqn:Hbody
    end; try discriminate H.
    injection H as <-.
    apply bind_inv_Returned in Hbody as ([] & w1 & Hlog & Hbody). injection Hlog as <-.
    apply bind_inv_Returned in Hbody as (img & w1' & Hread & Hbody).
    apply jimpRead_inv in Hread as (-> & bytes & Hin & Hdec).
    cbv zeta in Hbody.
    apply bind_inv_Returned in Hbody as (p & w3 & Hpre & Hbody).
    pose proof (preprocess_world env (mergeOptions options) img
                  (logged (LogConverting inputPath) w)) as Hw3.
    rewrite Hpre in Hw3. cbn in Hw3. subst w3.
    apply bind_inv_Returned in Hbody as (now & w4 & Hnow & Hbody).
    injection Hnow as <- <-.
    apply bind_inv_Returned in Hbody as ([] & w5 & Hwrite & Hbody).
    unfold jimpWrite in Hwrite.
    apply bind_inv_Returned in Hwrite as (mime & w4' & Hmime & Hwrite).
    apply lift_sum_inv in Hmime as [_ ->].
    apply writeFile_inv in Hwrite as (_ & _ & ->).
    apply bind_inv_Returned in Hbody as ([] & w6 & Hlog & Hbody). injection Hlog as <-.
    apply bind_inv_Returned in Hbody as (svg & w7 & Htrace & Hbody).
    apply (traced_inv traceCallback _ _ (jimp_encode env p)) in Htrace as [Hvalid Htrace].
    2:{ intros r wa wb. unfold traceCallback.
        destruct (unlinkSync _ wa) as [[[]|e|e|] wc]; try discriminate.
        intros Hr. by apply lift_sum_inv in Hr as [-> _]. }
    2:{ cbn. apply lookup_insert_eq. }
    apply bind_inv_Returned in Hbody as ([] & w8 & Hout & Hbody).
    apply writeFile_inv in Hout as (_ & _ & ->). injection Hbody as <-.
    exists bytes, img, p, svg. split_and!; try done.
    + rewrite (preprocess_any_world env _ img w (logged (LogConverting inputPath) w)).
      by rewrite Hpre.
    + cbn. apply lookup_insert_eq.
  - intros svg w' H. unfold convertBuffer, try_catch in H.
    match type of H with
    | (let (_, _) := ?body w in _) = _ => destruct (body w) as [[svg'|e|e|] w2] eqn:Hbody
    end; try discriminate H.
    injection H as -> <-.
    apply bind_inv_Returned in Hbody as (img & w1 & Hdec & Hbody).
    apply lift_sum_inv in Hdec as [Hdec ->].
    unfold convertImageToSvg in Hbody. cbv zeta in Hbody.
    apply bind_inv_Returned in Hbody as (p & w3 & Hpre & Hbody).
    pose proof (preprocess_world env (mergeOptions options) img w) as Hw3.
    rewrite Hpre in Hw3. cbn in Hw3. subst w3.
    apply bind_inv_Returned in Hbody as ([] & w4 & Hlog & Hbody). injection Hlog as <-.
    apply bind_inv_Returned in Hbody as (now & w5 & Hnow & Hbody). injection Hnow as <- <-.
    apply bind_inv_Returned in Hbody as (rnd & w6 & Hrnd & Hbody). injection Hrnd as <- <-.
    apply bind_inv_Returned in Hbody as ([] & w7 & Hwrite & Hbody).
    unfold jimpWrite in Hwrite.
    apply bind_inv_Returned in Hwrite as (mime & w6' & Hmime & Hwrite).
    apply lift_sum_inv in Hmime as [_ ->].
    apply writeFile_inv in Hwrite as (_ & _ & ->).
    apply (traced_inv (fun tempPath r =>
                         try_catch (unlinkSync tempPath)
                                   (fun _ => log (WarnCleanup tempPath)) ;;;
                         lift_sum r) _ _ (jimp_encode env p)) in Hbody as [Hvalid Htrace].
    2:{ intros r wa wb Hr. apply bind_inv_Returned in Hr as ([] & wc & _ & Hr).
        by apply lift_sum_inv in Hr as [-> _]. }
    2:{ cbn. apply lookup_insert_eq. }
    exists img, p. split_and!; try done. by rewrite Hpre.
Qed.


(** Everything the search appends is a regular file. *)
Lemma searchDir_regular depth recursive :
  ∀ currentDir files w found w',
    searchDir env depth recursive currentDir files w = (Returned found, w') →
    (∀ f, f ∈ files → ∃ bytes, nodes w !! f = Some (File bytes)) →
    ∀ f, f ∈ found → ∃ bytes, nodes w !! f = Some (File bytes).
Proof.
  induction depth as [|depth IH]; intros currentDir files w found w' Hrun Hfiles; [done|].
  cbn [searchDir] in Hrun. unfold bind at 1 in Hrun.
  pose proof (readdirSync_world currentDir w) as Hr.
  destruct (readdirSync currentDir w) as [[items|e|e|] w1]; simpl in Hr; subst w1; try done.
  revert files Hfiles Hrun. induction items as [|item items IHi]; intros files Hfiles Hrun.
  - injection Hrun as <- <-. exact Hfiles.
  - unfold bind at 1 in Hrun.
    pose proof (statSync_world (path_join env currentDir item) w) as Hs.
    destruct (statSync (path_join env currentDir item) w) as [[stat|e|e|] w1] eqn:Hstat;
      simpl in Hs; subst w1; try done.
    unfold bind at 1 in Hrun.
    destruct (isDirectory stat && recursive).
    + pose proof (searchDir_world env depth recursive (path_join env currentDir item) files w)
        as Hd.
      destruct (searchDir env depth recursive (path_join env currentDir item) files w)
        as [[files'|e|e|] w1] eqn:Hsub; simpl in Hd; subst w1; try done.
      apply (IHi files'); [|exact Hrun].
      by apply (IH _ _ _ _ _ Hsub).
    + destruct (isFile stat && endsWith (toLowerCase item) ".png") eqn:Hpng.
      * cbn [ret] in Hrun.
        apply (IHi (files ++ [path_join env currentDir item])); [|exact Hrun].
        intros f Hf. apply elem_of_app in Hf as [Hf|Hf]; [by apply Hfiles|].
        apply list_elem_of_singleton in Hf as ->.
        apply andb_true_iff in Hpng as [Hfile _].
        unfold statSync in Hstat.
        destruct (nodes w !! path_join env currentDir item) as [[bytes|sub]|]; try done.
        -- by exists bytes.
        -- injection Hstat as <-. done.
      * cbn [ret] in Hrun. by apply (IHi files).
Qed.

(** X24.  What [findPngFiles] returns, with or without [recursive], are
    regular files of the file system it searched, which it left
    unchanged; so the size filter that runs next finds every one of them
    and returns, whatever the bounds: it keeps a sublist. *)
Theorem found_files_pass_the_filter dir recursive w files w' sizeFilter :
  findPngFiles env dir recursive w = (Returned files, w') →
  w' = w ∧
  (∀ f, f ∈ files → ∃ bytes, nodes w !! f = Some (File bytes)) ∧
  ∃ kept, filterBySize files sizeFilter w = (Returned kept, w) ∧ sublist kept files.
Proof.
  intros Hrun.
  pose proof (findPngFiles_world env dir recursive w) as Hw. rewrite Hrun in Hw.
  cbn in Hw. subst w'. split; [done|].
  assert (∀ f, f ∈ files → ∃ bytes, nodes w !! f = Some (File bytes)) as Hreg.
  { apply (searchDir_regular _ _ _ _ _ _ _ Hrun). intros f Hf. by apply elem_of_nil in Hf. }
  split; [exact Hreg|].
  destruct sizeFilter as [sf|]; [|by exists files].
  cbn [filterBySize].
  enough (∀ filtered, ∃ kept, filterLoop sf files filtered w = (Returned (filtered ++ kept), w)
                              ∧ sublist kept files) as H.
  { destruct (H []) as (kept & Hk & Hsub). by exists kept. }
  clear Hrun. induction files as [|file files IH]; intros filtered.
  - exists []. cbn. by rewrite app_nil_r.
  - destruct (Hreg file) as [bytes Hfile]; [by left|].
    assert (∀ f, f ∈ files → ∃ bytes, nodes w !! f = Some (File bytes)) as Hrest
      by (intros f Hf; apply Hreg; by right).
    cbn [filterLoop]. unfold bind, statSync. rewrite Hfile. cbn [size].
    destruct (keptBySize sf _).
    + destruct (IH Hrest (filtered ++ [file])) as (kept & Hk & Hsub).
      exists (file :: kept). rewrite Hk, <- app_assoc. split; [done|]. by constructor.
    + destruct (IH Hrest filtered) as (kept & Hk & Hsub).
      exists kept. split; [done|]. by constructor.
Qed.

End Agreement.

Lemma facade_merges_defaults_witness :
  mergeOptions {[ "threshold" := VNum (Fin 140) ]} !! "threshold" = Some (VNum (Fin 140)) ∧
  mergeOptions {[ "threshold" := VNum (Fin 140) ]} !! "turdSize" = Some (VNum (Fin 2)) ∧
  ∃ bytes img p svg,
    nodes Sample.world0 !! "in/a.png" = Some (File bytes) ∧
    jimp_decode Sample.env bytes = inr img ∧
    fst (preprocess Sample.env (mergeOptions {[ "threshold" := VNum (Fin 140) ]}) img
                    Sample.world0) = Returned p ∧
    potrace_trace Sample.env (jimp_encode Sample.env p)
                  (mergeOptions {[ "threshold" := VNum (Fin 140) ]}) = inr svg ∧
    nodes (convertFile Sample.env "in/a.png" "out/a.svg" {[ "threshold" := VNum (Fin 140) ]}
                       Sample.world0).2 !! "out/a.svg" = Some (File svg).
Proof.
  destruct (facade_merges_defaults Sample.env "in/a.png" "out/a.svg" "PNG-a"
              {[ "threshold" := VNum (Fin 140) ]} "threshold" Sample.world0)
    as (Hsupplied & _).
  destruct (facade_merges_defaults Sample.env "in/a.png" "out/a.svg" "PNG-a"
              {[ "threshold" := VNum (Fin 140) ]} "turdSize" Sample.world0)
    as (_ & Hmissing & _ & Hturd & _ & _ & _ & _ & _ & _ & Hfile & _).
  split; [apply Hsupplied; reflexivity|].
  split; [rewrite <- Hturd; apply Hmissing; reflexivity|].
  destruct (Hfile (convertFile Sample.env "in/a.png" "out/a.svg"
                               {[ "threshold" := VNum (Fin 140) ]} Sample.world0).2)
    as (bytes & img & p & svg & H1 & H2 & H3 & _ & H4 & H5); [vm_compute; reflexivity|].
  by exists bytes, img, p, svg.
Defined.


Lemma found_files_pass_the_filter_witness :
  ∃ kept,
    filterBySize ["in/a.png"; "in/B.PNG"; "in/bad.png"; "in/sub/c.png"]
                 (Some (mkSizeFilter (Some (Fin 1)) None)) Sample.world0
      = (Returned kept, Sample.world0) ∧
    sublist kept ["in/a.png"; "in/B.PNG"; "in/bad.png"; "in/sub/c.png"].
Proof.
  assert (findPngFiles Sample.env "in" (Some true) Sample.world0
            = (Returned ["in/a.png"; "in/B.PNG"; "in/bad.png"; "in/sub/c.png"], Sample.world0))
    as H by (vm_compute; reflexivity).
  apply (found_files_pass_the_filter Sample.env "in" (Some true) Sample.world0 _ _
           (Some (mkSizeFilter (Some (Fin 1)) None)) H).
Defined.

End AgreementFacts.
